(** * Cmdly: the interpreter pipeline (tokenizer, parser, executor)

    A shallow embedding of [core/tokenizer.py], [core/parser.py] and
    [core/executor.py], with the properties of the pipeline proved over it.

    Text is a [string] whose characters stand for the code points below 256;
    the character classes of the regular expressions ([\s], [\w], [.]) are
    the ones Python's [re] uses for [str] patterns on that range. *)

From Stdlib Require Import Ascii String NArith ZArith Lia.
From Stdlib Require Import Floats.SpecFloat.
From stdpp Require Import base option list strings gmap.

Local Open Scope stdpp_scope.
Local Open Scope nat_scope.

(* ===================================================================== *)
(** ** Characters and string helpers *)
(* ===================================================================== *)

Module Chars.

Definition code (c : ascii) : N := N_of_ascii c.

Definition in_range (lo hi : N) (c : ascii) : bool :=
  (lo <=? code c)%N && (code c <=? hi)%N.

(** [\s] on a [str] pattern: the characters for which [str.isspace()]
    holds; below 256 these are TAB..CR, FS..US, space, NEL and NBSP. *)
Definition is_space (c : ascii) : bool :=
  in_range 9 13 c || in_range 28 32 c || (code c =? 133)%N || (code c =? 160)%N.

Definition is_ascii_alnum (c : ascii) : bool :=
  in_range 48 57 c || in_range 65 90 c || in_range 97 122 c.

(** [\w] on a [str] pattern: alphanumeric in the Unicode database, or the
    underscore. *)
Definition is_word (c : ascii) : bool :=
  is_ascii_alnum c || (code c =? 95)%N
  || (code c =? 170)%N || (code c =? 178)%N || (code c =? 179)%N
  || (code c =? 181)%N || (code c =? 185)%N || (code c =? 186)%N
  || in_range 188 190 c || in_range 192 214 c || in_range 216 246 c
  || in_range 248 255 c.

(** The class [[a-zA-Z0-9_-]] of the COMMAND pattern. *)
Definition is_command_char (c : ascii) : bool :=
  is_ascii_alnum c || (code c =? 95)%N || (code c =? 45)%N.

(** [.] without DOTALL: anything but a line feed. *)
Definition is_dot (c : ascii) : bool := negb (code c =? 10)%N.

(** [str.lower()] on one character. *)
Definition lower (c : ascii) : ascii :=
  if in_range 65 90 c || in_range 192 214 c || in_range 216 222 c
  then ascii_of_N (code c + 32)
  else c.

End Chars.

Module Str.

(** The longest prefix whose characters satisfy [p], and what follows. *)
Fixpoint span (p : ascii -> bool) (s : string) : string * string :=
  match s with
  | EmptyString => (EmptyString, EmptyString)
  | String c s' =>
      if p c
      then let '(run, rest) := span p s' in (String c run, rest)
      else (EmptyString, s)
  end.

(** [lit] is a prefix of [s]: what follows it. *)
Fixpoint strip_prefix (lit s : string) : option string :=
  match lit, s with
  | EmptyString, _ => Some s
  | String a lit', String b s' =>
      if Ascii.eqb a b then strip_prefix lit' s' else None
  | String _ _, EmptyString => None
  end.

(** [c in s]. *)
Fixpoint contains (c : ascii) (s : string) : bool :=
  match s with
  | EmptyString => false
  | String a s' => Ascii.eqb a c || contains c s'
  end.

(** [s.lstrip(c)]. *)
Fixpoint lstrip (c : ascii) (s : string) : string :=
  match s with
  | EmptyString => EmptyString
  | String a s' => if Ascii.eqb a c then lstrip c s' else s
  end.

(** [s.split(c, 1)] for an [s] that contains [c]: the text before the
    first [c] and the text after it. *)
Fixpoint split_once (c : ascii) (s : string) : string * string :=
  match s with
  | EmptyString => (EmptyString, EmptyString)
  | String a s' =>
      if Ascii.eqb a c then (EmptyString, s')
      else let '(k, v) := split_once c s' in (String a k, v)
  end.

Fixpoint drop_last (s : string) : string :=
  match s with
  | EmptyString => EmptyString
  | String _ EmptyString => EmptyString
  | String a s' => String a (drop_last s')
  end.

(** The slice [s[1:-1]]. *)
Definition slice_1_m1 (s : string) : string :=
  match s with
  | EmptyString => EmptyString
  | String _ s' => drop_last s'
  end.

(** [s.lower()]. *)
Fixpoint lower (s : string) : string :=
  match s with
  | EmptyString => EmptyString
  | String a s' => String (Chars.lower a) (lower s')
  end.

End Str.

(* ===================================================================== *)
(** ** Tokens ([core/core_types/tokens.py]) *)
(* ===================================================================== *)

Inductive TokType :=
| COMMAND | STRING | FLAG | AND | OR | SEMI | EOF | WHITESPACE | MISMATCH.

Global Instance TokType_eq_dec : EqDecision TokType.
Proof. solve_decision. Defined.

Record Token := mkToken { tok_type : TokType; tok_value : string }.

Global Instance Token_eq_dec : EqDecision Token.
Proof. solve_decision. Defined.

(** The literal of a Command-kind token has at least one character. *)
Definition command_literal_nonempty (t : Token) : Prop :=
  tok_type t = COMMAND -> tok_value t <> EmptyString.

(* ===================================================================== *)
(** ** Tokenizer ([core/tokenizer.py]) *)
(* ===================================================================== *)

Module Tokenizer.

(** A pattern, anchored at the start of the text it is given: the matched
    group and the text after it, or [None] when it does not match. *)
Definition pattern := string -> option (string * string).

(** [X+] for a character class [X]. *)
Definition re_plus (p : ascii -> bool) : pattern := fun s =>
  match Str.span p s with
  | (EmptyString, _) => None
  | (run, rest) => Some (run, rest)
  end.

(** A literal pattern such as [&&]. *)
Definition re_literal (lit : string) : pattern := fun s =>
  match Str.strip_prefix lit s with
  | Some rest => Some (lit, rest)
  | None => None
  end.

(** [--?\w+]. A dash is not a word character, so the optional second
    dash is taken exactly when it is there. *)
Definition re_flag : pattern := fun s =>
  match s with
  | EmptyString => None
  | String c s1 =>
      if Ascii.eqb c "-" then
        let '(dashes, s2) :=
          match s1 with
          | String d s2 =>
              if Ascii.eqb d "-" then ("--", s2) else ("-", s1)
          | EmptyString => ("-", s1)
          end in
        match re_plus Chars.is_word s2 with
        | Some (w, rest) => Some (dashes +:+ w, rest)
        | None => None
        end
      else None
  end.

(** The body of a quoted string after its opening quote [q]: a run of
    characters other than [q] and the backslash, then any number of
    (backslash, any character but a line feed, such a run), then the
    closing [q]. The pattern leaves the matcher no choice: a run cannot be
    cut short, and an escape pair cannot be given up, without the next
    character failing to be what the pattern wants there. Returns the
    group up to and including the closing quote. *)
Fixpoint re_quoted_body (q : ascii) (s : string) : option (string * string) :=
  match s with
  | EmptyString => None
  | String c s' =>
      if Ascii.eqb c q then Some (String c EmptyString, s')
      else if Ascii.eqb c "\" then
        match s' with
        | EmptyString => None
        | String d s'' =>
            if Chars.is_dot d then
              match re_quoted_body q s'' with
              | Some (g, rest) => Some (String c (String d g), rest)
              | None => None
              end
            else None
        end
      else
        match re_quoted_body q s' with
        | Some (g, rest) => Some (String c g, rest)
        | None => None
        end
  end.

(** A quoted string: the opening [q], the body, the closing [q]. *)
Definition re_quoted (q : ascii) : pattern := fun s =>
  match s with
  | EmptyString => None
  | String c s' =>
      if Ascii.eqb c q then
        match re_quoted_body q s' with
        | Some (g, rest) => Some (String c g, rest)
        | None => None
        end
      else None
  end.

(** [.] *)
Definition re_dot : pattern := fun s =>
  match s with
  | String c s' => if Chars.is_dot c then Some (String c EmptyString, s') else None
  | EmptyString => None
  end.

(** [self.patterns], in priority order. *)
Definition patterns : list (TokType * pattern) :=
  [ (WHITESPACE, re_plus Chars.is_space);
    (AND, re_literal "&&");
    (OR, re_literal "||");
    (SEMI, re_literal ";");
    (FLAG, re_flag);
    (STRING, re_quoted "034");
    (STRING, re_quoted "'");
    (COMMAND, re_plus Chars.is_command_char);
    (MISMATCH, re_dot) ].

(** [self.master_pattern.match(text, pos)] on the text from [pos] on,
    followed by the scan for the first group that is set: the alternatives
    are tried in order and the first that matches wins. *)
Fixpoint first_match (ps : list (TokType * pattern)) (s : string)
  : option (TokType * string * string) :=
  match ps with
  | [] => None
  | (tok_type, p) :: ps' =>
      match p s with
      | Some (group, rest) => Some (tok_type, group, rest)
      | None => first_match ps' s
      end
  end.

Definition master_match : string -> option (TokType * string * string) :=
  first_match patterns.

(** A match [m] of a pattern, seen in the text with [u] appended. *)
Definition extended (u : string) (m : string * string) : string * string :=
  (m.1, m.2 +:+ u).

(** [SyntaxError(f"Unexpected character: {group!r} at position {pos}")],
    kept as the two values it interpolates. *)
Record LexError := UnexpectedCharacter { bad_char : string; bad_pos : nat }.

(** What a run of the generator produces: the tokens it yields, and the
    error it raises if it stops with one. *)
Definition lex_result : Type := list Token * option LexError.

Definition yield (t : Token) (r : lex_result) : lex_result := (t :: r.1, r.2).

(** [r] after the tokens [toks] have been yielded. *)
Definition after (toks : list Token) (r : lex_result) : lex_result :=
  (toks ++ r.1, r.2).

(** What a match hands back: a non-empty group that is a prefix of the
    text, and the text after it. *)
Definition splits (s g r : string) : Prop := s = g +:+ r /\ g <> EmptyString.

(** The token yielded for a group matched by a pattern of kind
    [tok_type]: a STRING group loses its first and last character. *)
Definition token_of (tok_type : TokType) (group : string) : Token :=
  match tok_type with
  | STRING => mkToken tok_type (Str.slice_1_m1 group)
  | _ => mkToken tok_type group
  end.

(** One round of the [while pos < len(text)] loop, where [s] is
    [text[pos:]] and [continue] stands for the rounds that follow. *)
Definition round (continue : nat -> string -> option lex_result)
    (pos : nat) (s : string) : option lex_result :=
  match s with
  | EmptyString => Some ([mkToken EOF EmptyString], None)
  | String c _ =>
      match master_match s with
      | None => Some ([], Some (UnexpectedCharacter (String c EmptyString) pos))
      | Some (WHITESPACE, group, rest) =>
          continue (pos + String.length group) rest
      | Some (MISMATCH, group, rest) =>
          Some ([], Some (UnexpectedCharacter group pos))
      | Some (tok_type, group, rest) =>
          yield (token_of tok_type group)
            <$> continue (pos + String.length group) rest
      end
  end.

(** The loop, bounded by [fuel]; [None] means the bound was hit. *)
Fixpoint tokenize_loop (fuel : nat) (pos : nat) (s : string) : option lex_result :=
  match fuel with
  | 0 => None
  | S fuel' => round (tokenize_loop fuel') pos s
  end.

(** The loop from position [pos] with [s] left, with a bound that is
    enough for [s]. *)
Definition tokenize_from (pos : nat) (s : string) : option lex_result :=
  tokenize_loop (S (String.length s)) pos s.

(** [Tokenizer().tokenize(text)], run to its end. Every match consumes at
    least one character, so [len(text) + 1] rounds are enough
    (see [tokenize_total]). *)
Definition tokenize (text : string) : option lex_result :=
  tokenize_from 0 text.

(** The positions the loop comes to: [scans text pos s toks] says that
    the loop over [text] reaches position [pos] with [s] left to read,
    having yielded [toks]. *)
Inductive scans (text : string) : nat -> string -> list Token -> Prop :=
| scans_start : scans text 0 text []
| scans_skip pos s toks group rest :
    scans text pos s toks ->
    master_match s = Some (WHITESPACE, group, rest) ->
    scans text (pos + String.length group) rest toks
| scans_yield pos s toks tok_type group rest :
    scans text pos s toks ->
    master_match s = Some (tok_type, group, rest) ->
    tok_type <> WHITESPACE -> tok_type <> MISMATCH ->
    scans text (pos + String.length group) rest (toks ++ [token_of tok_type group]).

End Tokenizer.

(* ===================================================================== *)
(** ** Chains: the dictionaries the parser builds and the executor reads *)
(* ===================================================================== *)

(** A value of the [kwargs] dictionary: a string, or the boolean [True]
    a bare flag is given. *)
Inductive kwvalue :=
| KwStr (s : string)
| KwTrue.

Global Instance kwvalue_eq_dec : EqDecision kwvalue.
Proof. solve_decision. Defined.

(** The dictionary with the keys "type", "cmd", "args" and "kwargs". The
    executor reads each key with [dict.get], so a key may be absent. *)
Record chain := mkChain {
  ch_type : option string;
  ch_cmd : option string;
  ch_args : option (list string);
  ch_kwargs : option (gmap string kwvalue)
}.

(* ===================================================================== *)
(** ** Parser ([core/parser.py]) *)
(* ===================================================================== *)

Module Parser.

(** The parser object is the list of the tokens not yet consumed:
    [self.current] is its head and [self.tokens] its tail. Once the deque
    is empty [next_token] keeps setting [self.current] to an EOF token,
    which is what the head of the empty list is read as. *)
Definition state := list Token.

(** [Parser(tokens)]: [__init__] fills the deque and calls [next_token]. *)
Definition init (tokens : list Token) : state := tokens.

Definition current (st : state) : Token :=
  match st with
  | [] => mkToken EOF EmptyString
  | t :: _ => t
  end.

Definition next_token (st : state) : state :=
  match st with
  | [] => []
  | _ :: st' => st'
  end.

(** [SyntaxError(f"Expected command, got {self.current.type}")]. *)
Record ParseError := ExpectedCommand { got : TokType }.

Definition ends_command (t : TokType) : bool :=
  match t with AND | OR | SEMI | EOF => true | _ => false end.

Definition is_value (t : TokType) : bool :=
  match t with COMMAND | STRING => true | _ => false end.

Definition is_separator (t : TokType) : bool :=
  match t with SEMI | AND | OR => true | _ => false end.

(** The [while] loop of [parse_command] over the argument tail, from the
    [args] and [kwargs] built so far; returns [args], [kwargs] and the
    parser state the loop leaves. *)
Fixpoint parse_args (st : state) (args : list string) (kwargs : gmap string kwvalue)
  : list string * gmap string kwvalue * state :=
  match st with
  | [] => (args, kwargs, st)
  | cur :: st1 =>
      if ends_command (tok_type cur) then (args, kwargs, st)
      else match tok_type cur with
      | FLAG =>
          let flag := Str.lstrip "-" (tok_value cur) in
          if Str.contains "=" flag then
            let '(k, v) := Str.split_once "=" flag in
            parse_args st1 args (<[k := KwStr v]> kwargs)
          else
            match st1 with
            | nxt :: st2 =>
                if is_value (tok_type nxt)
                then parse_args st2 args (<[flag := KwStr (tok_value nxt)]> kwargs)
                else parse_args st1 args (<[flag := KwTrue]> kwargs)
            | [] => parse_args st1 args (<[flag := KwTrue]> kwargs)
            end
      | COMMAND | STRING =>
          let val := tok_value cur in
          if Str.contains "=" val then
            let '(k, v) := Str.split_once "=" val in
            parse_args st1 args (<[k := KwStr v]> kwargs)
          else parse_args st1 (args ++ [val]) kwargs
      | _ => (args, kwargs, st)
      end
  end.

(** [parse_command]: the values of the keys "cmd", "args" and "kwargs" of
    the dictionary it returns, and the parser state it leaves. *)
Definition parse_command (st : state)
  : ParseError + (string * list string * gmap string kwvalue * state) :=
  match tok_type (current st) with
  | COMMAND =>
      let cmd := tok_value (current st) in
      let '(args, kwargs, st') := parse_args (next_token st) [] ∅ in
      inr (cmd, args, kwargs, st')
  | t => inl (ExpectedCommand t)
  end.

(** [parse_chain]: the dictionary of [parse_command] with the "type" key
    added. *)
Definition parse_chain (st : state) : ParseError + (chain * state) :=
  match parse_command st with
  | inr (cmd, args, kwargs, st') =>
      inr (mkChain (Some "COMMAND") (Some cmd) (Some args) (Some kwargs), st')
  | inl e => inl e
  end.

(** The kinds of token the argument loop binds. *)
Definition is_argument (t : TokType) : bool :=
  match t with FLAG | COMMAND | STRING => true | _ => false end.

(** The chain [parse_chain] builds from a COMMAND token [cmd] followed by
    the argument tokens [arguments] and nothing else. *)
Definition chain_of (cmd : Token) (arguments : list Token) : chain :=
  let '(args, kwargs, _) := parse_args arguments [] ∅ in
  mkChain (Some "COMMAND") (Some (tok_value cmd)) (Some args) (Some kwargs).

(** After a chain: a separator, if one is there, is consumed; which one
    it was is not kept. *)
Definition after_chain (st' : state) : state :=
  if is_separator (tok_type (current st')) then next_token st' else st'.

(** One round of the [while] loop of [parse], where [continue] stands
    for the rounds that follow. *)
Definition round (continue : state -> list chain -> option (ParseError + list chain))
    (st : state) (chains : list chain) : option (ParseError + list chain) :=
  if decide (tok_type (current st) = EOF) then Some (inr chains)
  else match parse_chain st with
       | inl e => Some (inl e)
       | inr (ch, st') => continue (after_chain st') (chains ++ [ch])
       end.

(** The loop, bounded by [fuel]; [None] means the bound was hit. *)
Fixpoint parse_loop (fuel : nat) (st : state) (chains : list chain)
  : option (ParseError + list chain) :=
  match fuel with
  | 0 => None
  | S fuel' => round (parse_loop fuel') st chains
  end.

(** The loop from state [st] with [chains] collected so far, with a bound
    that is enough for [st]. *)
Definition parse_from (st : state) (chains : list chain)
  : option (ParseError + list chain) :=
  parse_loop (S (length st)) st chains.

(** [Parser(tokens).parse()]. Every round consumes a token, so
    [len(tokens) + 1] rounds are enough (see [parse_total]). *)
Definition parse (tokens : list Token) : option (ParseError + list chain) :=
  parse_from (init tokens) [].

End Parser.

(* ===================================================================== *)
(** ** One line through tokenizer and parser, as [CLI.run] chains them *)
(* ===================================================================== *)

Inductive line_result :=
| Parsed (chains : list chain)
| LexicalError (e : Tokenizer.LexError)
| SyntaxError (e : Parser.ParseError).

(** [Parser(tokenizer.tokenize(line)).parse()]: the deque is filled from the
    generator first, so an error of the tokenizer surfaces before any
    parsing and the tokens yielded before it are dropped. *)
Definition parse_line (line : string) : option line_result :=
  match Tokenizer.tokenize line with
  | None => None
  | Some (_, Some e) => Some (LexicalError e)
  | Some (tokens, None) =>
      match Parser.parse tokens with
      | None => None
      | Some (inl e) => Some (SyntaxError e)
      | Some (inr chains) => Some (Parsed chains)
      end
  end.

(* ===================================================================== *)
(** ** Executor ([core/executor.py]) *)
(* ===================================================================== *)

Module Executor.

(** *** Python values, exceptions and what the executor prints and logs *)

(** The values a plugin's [execute] may hand back and the JSON values of
    the configuration. *)
Inductive pyvalue :=
| VNone
| VBool (b : bool)
| VInt (n : Z)
| VFloat (f : spec_float)
| VStr (s : string).

(** [v != 0]. A [bool] is an [int], and a float compares by value. *)
Definition ne_zero (v : pyvalue) : bool :=
  match v with
  | VNone => true
  | VBool b => b
  | VInt n => negb (n =? 0)%Z
  | VFloat (S754_zero _) => false
  | VFloat _ => true
  | VStr _ => true
  end.

(** The truth value of [v], as [not] and [and] take it. *)
Definition truthy (v : pyvalue) : bool :=
  match v with
  | VNone => false
  | VBool b => b
  | VInt n => negb (n =? 0)%Z
  | VFloat (S754_zero _) => false
  | VFloat _ => true
  | VStr EmptyString => false
  | VStr _ => true
  end.

(** Texts, kept as the format they come from and the values they
    interpolate. A command name is [None] when the dictionary has no
    "cmd" key. [NoModuleNamed name] is the text of the
    [ModuleNotFoundError] that the request to import [name] ends in: it
    names [name] itself when the package before its last dot can be
    imported, and the first package of the dotted name that cannot
    otherwise. [MultipleValuesFor a] is the text of the [TypeError] of a
    call that binds the parameter [a] twice. *)
Inductive message :=
| Text (s : string)
| NoModuleNamed (name : string)
| NoneHasNoLower
| NoneNotCallable
| MultipleValuesFor (argument : string)
| CommandNotFound (cmd_name : option string)
| FunCommandsDisabled
| FunCommandAttempted
| ErrorLoading (cmd_name : option string) (e : message)
| FailedWithExitCode (cmd_name : option string) (result : pyvalue)
| ErrorExecuting (cmd_name : option string) (e : message)
| ErrorRunning (cmd_name : option string) (e : message)
| UnsupportedChainType (cmd_type : string).

(** The classes of what can be raised. The first four are [Exception]
    and classes derived from it; [KeyboardInterrupt], [SystemExit] and
    [OtherBaseException] (such as [GeneratorExit]) derive from
    [BaseException] and not from [Exception]. *)
Inductive exn_class :=
| ModuleNotFoundError
| AttributeError
| TypeError
| OtherException (name : string)
| KeyboardInterrupt
| SystemExit
| OtherBaseException (name : string).

(** What is raised: its class and [str(e)]. *)
Record exn := mkExn { exn_cls : exn_class; exn_str : message }.

(** [isinstance(e, Exception)], which is what [except Exception] asks. *)
Definition is_exception (e : exn) : bool :=
  match exn_cls e with
  | KeyboardInterrupt | SystemExit | OtherBaseException _ => false
  | _ => true
  end.

Inductive outcome :=
| Returns (v : pyvalue)
| Raises (e : exn).

Inductive level := WARNING | ERROR.

Inductive event :=
| Print (m : message)
| Log (logger : string) (lv : level) (m : message)
| Instantiate (cls : string)
| Execute (cls : string) (args : list string) (kwargs : gmap string kwvalue).

(** *** Plugins, modules and configuration *)

(** A class found in a command module. [cls_execute] is what a call of
    [execute] with the unpacked [args] and [kwargs] does, the binding of
    the arguments to the parameters of the method included. *)
Record pyclass := mkClass {
  cls_name : string;
  cls_is_command : bool;
  cls_is_base : bool;
  cls_fun : option pyvalue;
  cls_init : option exn;
  cls_execute : list string -> gmap string kwvalue -> outcome
}.

(** A method declared with the parameters [self], [*args] and
    [**kwargs], as the commands of the repository declare [execute],
    called on the instance with the unpacked [args] and [kwargs]: a named
    argument [self] meets the instance already bound to that parameter,
    and the call raises [TypeError] before the body runs. Every other
    named argument, and any number of positional ones, reaches the
    body. *)
Definition star_method (body : list string -> gmap string kwvalue -> outcome)
    (args : list string) (kwargs : gmap string kwvalue) : outcome :=
  match kwargs !! "self" with
  | Some _ => Raises (mkExn TypeError (MultipleValuesFor "self"))
  | None => body args kwargs
  end.

(** [config/default_settings.json], as far as the executor reads it. *)
Record config := mkConfig {
  cfg_aliases : option (gmap string string);
  cfg_features : option (gmap string pyvalue)
}.

(** What the executor finds around it: the importable modules, each as
    the list [inspect.getmembers(module, inspect.isclass)] gives for it,
    and the configuration file. A name either has its module here or
    cannot be imported ([ModuleNotFoundError]); a module whose own code
    raises something else while it is imported is not among the worlds
    described. *)
Record world := mkWorld {
  modules : gmap string (list pyclass);
  settings : config
}.

(** *** Computations that print, log and may raise *)

Inductive res (A : Type) :=
| Ret (a : A)
| Exc (e : exn).
Global Arguments Ret {A} a.
Global Arguments Exc {A} e.

Definition M (A : Type) : Type := list event * res A.

Definition ret {A} (a : A) : M A := ([], Ret a).
Definition raise {A} (e : exn) : M A := ([], Exc e).
Definition emit (ev : event) : M unit := ([ev], Ret tt).

Definition bind {A B} (m : M A) (k : A -> M B) : M B :=
  match m with
  | (t, Ret a) => let '(t', r) := k a in (t ++ t', r)
  | (t, Exc e) => (t, Exc e)
  end.

Global Instance M_ret : MRet M := @ret.
Global Instance M_bind : MBind M := fun A B k m => bind m k.

(** [try: body / except <classes> as e: handler e]. *)
Definition try_except {A} (body : M A) (catches : exn -> bool) (handler : exn -> M A) : M A :=
  match body with
  | (t, Exc e) =>
      if catches e then let '(t', r) := handler e in (t ++ t', r) else (t, Exc e)
  | (t, Ret a) => (t, Ret a)
  end.

Definition print (m : message) : M unit := emit (Print m).
Definition log (logger : string) (lv : level) (m : message) : M unit :=
  emit (Log logger lv m).

(** *** The [Executor] class *)

Record Executor := mkExecutor {
  commands_module : string;
  aliases : gmap string string
}.

(** [__init__]. *)
Definition init (cfg : config) : Executor :=
  mkExecutor "commands" (default ∅ (cfg_aliases cfg)).

Definition resolve_alias (self : Executor) (command : string) : string :=
  default command (aliases self !! command).

(** [importlib.import_module(name)]. *)
Definition import_module (w : world) (name : string) : M (list pyclass) :=
  match modules w !! name with
  | Some members => ret members
  | None => raise (mkExn ModuleNotFoundError (NoModuleNamed name))
  end.

(** [cmd_name.lower()], where [cmd_name] may be [None]. *)
Definition lower (cmd_name : option string) : M string :=
  match cmd_name with
  | Some name => ret (Str.lower name)
  | None => raise (mkExn AttributeError NoneHasNoLower)
  end.

(** The [for] loop over the classes of the module: the first subclass of
    [BaseCommand] other than [BaseCommand] itself, or [None]. *)
Fixpoint find_command_class (members : list pyclass) : option pyclass :=
  match members with
  | [] => None
  | obj :: members' =>
      if cls_is_command obj && negb (cls_is_base obj) then Some obj
      else find_command_class members'
  end.

(** [getattr(CommandClass, "fun", False)]. *)
Definition getattr_fun (CommandClass : option pyclass) : pyvalue :=
  match CommandClass with
  | Some c => default (VBool false) (cls_fun c)
  | None => VBool false
  end.

(** [Config.get_config().get("features", {}).get("fun_commands", True)]. *)
Definition fun_commands (cfg : config) : pyvalue :=
  default (VBool true) (default ∅ (cfg_features cfg) !! "fun_commands").

(** [CommandClass()]. *)
Definition instantiate (CommandClass : option pyclass) : M pyclass :=
  match CommandClass with
  | None => raise (mkExn TypeError NoneNotCallable)
  | Some c =>
      emit (Instantiate (cls_name c));;
      match cls_init c with
      | Some e => raise e
      | None => ret c
      end
  end.

(** [cmd_instance.execute] applied to the unpacked [args] and [kwargs]. *)
Definition call_execute (c : pyclass) (args : list string)
    (kwargs : gmap string kwvalue) : M pyvalue :=
  emit (Execute (cls_name c) args kwargs);;
  match cls_execute c args kwargs with
  | Returns v => ret v
  | Raises e => raise e
  end.

Definition is_lookup_error (e : exn) : bool :=
  match exn_cls e with
  | ModuleNotFoundError | AttributeError => true
  | _ => false
  end.

(** [execute_command]. The first [try] block either returns [True] from
    the function ([inl]) or leaves [CommandClass] to the second one
    ([inr]). The second one has [except Exception]: what is raised in it
    and is no instance of [Exception] leaves the function. *)
Definition execute_command (w : world) (self : Executor) (cmd_dict : chain) : M bool :=
  let cmd_name := resolve_alias self <$> ch_cmd cmd_dict in
  let args := default [] (ch_args cmd_dict) in
  let kwargs := default ∅ (ch_kwargs cmd_dict) in
  found ← try_except
    (lowered ← lower cmd_name;
     members ← import_module w (commands_module self +:+ "." +:+ lowered);
     let CommandClass := find_command_class members in
     if truthy (getattr_fun CommandClass) && negb (truthy (fun_commands (settings w)))
     then
       print FunCommandsDisabled;;
       log "executor" WARNING FunCommandAttempted;;
       ret (inl true)
     else ret (inr CommandClass))
    is_lookup_error
    (fun e =>
       print (exn_str e);;
       log "executor" ERROR (ErrorLoading cmd_name (exn_str e));;
       raise (mkExn ModuleNotFoundError (CommandNotFound cmd_name)));
  match found with
  | inl status => ret status
  | inr CommandClass =>
      try_except
        (cmd_instance ← instantiate CommandClass;
         result ← call_execute cmd_instance args kwargs;
         if ne_zero result then
           log "executor" ERROR (FailedWithExitCode cmd_name result);;
           print (FailedWithExitCode cmd_name result);;
           ret false
         else ret true)
        is_exception
        (fun e =>
           log "executor" ERROR (ErrorExecuting cmd_name (exn_str e));;
           print (ErrorRunning cmd_name (exn_str e));;
           ret false)
  end.

(** The [for] loop of [run], from the [last_status] reached so far. *)
Fixpoint run_loop (w : world) (self : Executor) (chains : list chain)
    (last_status : bool) : M bool :=
  match chains with
  | [] => ret last_status
  | ch :: chains' =>
      let cmd_type := default "COMMAND" (ch_type ch) in
      if decide (cmd_type = "COMMAND") then
        status ← execute_command w self ch;
        run_loop w self chains' status
      else
        print (UnsupportedChainType cmd_type);;
        run_loop w self chains' last_status
  end.

Definition run (w : world) (self : Executor) (chains : list chain) : M bool :=
  run_loop w self chains true.

End Executor.

(* ===================================================================== *)
(** ** Notions the properties are stated with *)
(* ===================================================================== *)

(** A well-formed command text: it is tokenized without an error into a
    Command token followed by flag, word and string tokens only (the
    [command] rule of the grammar). *)
Definition well_formed_command (text : string) (cmd : Token) (arguments : list Token) : Prop :=
  Tokenizer.tokenize text = Some (cmd :: arguments ++ [mkToken EOF EmptyString], None) /\
  tok_type cmd = COMMAND /\
  Forall (fun t => Parser.is_argument (tok_type t) = true) arguments.

(** A chain as the parser is to hand it on: tagged "COMMAND" and with a
    command name of at least one character. *)
Definition named_command (ch : chain) : Prop :=
  ch_type ch = Some "COMMAND" /\
  exists name, ch_cmd ch = Some name /\ name <> EmptyString.

Module ExecutorSpec.
Import Executor.

(** The messages printed to the console, in order. *)
Definition printed (t : list event) : list message :=
  omap (fun ev => match ev with Print m => Some m | _ => None end) t.

(** The records written to the log, in order. *)
Definition logged (t : list event) : list (level * message) :=
  omap (fun ev => match ev with Log _ lv m => Some (lv, m) | _ => None end) t.

(** How many times a plugin's [execute] is called. *)
Definition executions (t : list event) : nat :=
  length (omap (fun ev => match ev with Execute c _ _ => Some c | _ => None end) t).

(** The plugin registered under the name of an invocation: the command
    class found in the module of the resolved, lower-cased name. *)
Definition plugin_of (w : world) (self : Executor) (cmd_dict : chain) : option pyclass :=
  name ← ch_cmd cmd_dict;
  members ← modules w !! (commands_module self +:+ "." +:+ Str.lower (resolve_alias self name));
  find_command_class members.

(** The plugin's metadata marks it as a "fun" command. *)
Definition is_fun (c : pyclass) : bool := truthy (getattr_fun (Some c)).

(** The plugin is feature-gated: it is a fun command and the
    [fun_commands] flag is off. *)
Definition gated (w : world) (c : pyclass) : bool :=
  is_fun c && negb (truthy (fun_commands (settings w))).

(** What invoking the plugin does: creating the instance and calling its
    [execute]. *)
Definition invocation (c : pyclass) (cmd_dict : chain) : outcome :=
  match cls_init c with
  | Some e => Raises e
  | None => cls_execute c (default [] (ch_args cmd_dict)) (default ∅ (ch_kwargs cmd_dict))
  end.

(** The events of invoking the plugin, up to the point [execute] is left. *)
Definition invocation_events (c : pyclass) (cmd_dict : chain) : list event :=
  match cls_init c with
  | Some _ => [Instantiate (cls_name c)]
  | None =>
      [Instantiate (cls_name c);
       Execute (cls_name c) (default [] (ch_args cmd_dict)) (default ∅ (ch_kwargs cmd_dict))]
  end.

Definition resolved_name (self : Executor) (cmd_dict : chain) : option string :=
  resolve_alias self <$> ch_cmd cmd_dict.

(** The chain is tagged "COMMAND" (a chain without a tag counts as
    tagged so). *)
Definition is_command_chain (ch : chain) : Prop :=
  default "COMMAND" (ch_type ch) = "COMMAND".

Global Instance is_command_chain_dec ch : Decision (is_command_chain ch).
Proof. unfold is_command_chain. apply _. Defined.

(** What [run] is to do for one chain: execute it, or skip it with a
    diagnostic. *)
Definition chain_events (w : world) (self : Executor) (ch : chain) : list event :=
  if decide (is_command_chain ch) then (execute_command w self ch).1
  else [Print (UnsupportedChainType (default "COMMAND" (ch_type ch)))].

(** The boolean [execute_command] returns for a chain, if it returns. *)
Definition status_of (w : world) (self : Executor) (ch : chain) : option bool :=
  match (execute_command w self ch).2 with
  | Ret b => Some b
  | Exc _ => None
  end.

(** The status of the last chain executed, or [start] when none is. *)
Definition status_after (w : world) (self : Executor) (start : bool)
    (chains : list chain) : option bool :=
  match last (filter is_command_chain chains) with
  | None => Some start
  | Some ch => status_of w self ch
  end.

Definition last_status (w : world) (self : Executor) (chains : list chain) : option bool :=
  status_after w self true chains.

(** No call of [execute_command] on a chain of the sequence raises. *)
Definition none_raises (w : world) (self : Executor) (chains : list chain) : Prop :=
  Forall (fun ch => is_command_chain ch -> is_Some (status_of w self ch)) chains.

End ExecutorSpec.

(* ===================================================================== *)
(** ** Sample plugins and configurations *)
(* ===================================================================== *)

Module Samples.
Import Executor.

(** [BaseCommand] as it shows among the classes of every command
    module; the body of its [execute] raises [NotImplementedError]. The
    executor passes this class over when it looks for the command class
    and so never calls it; the binding of arguments to the two
    parameters it declares is left out. *)
Definition BaseCommand : pyclass :=
  mkClass "BaseCommand" true true None None
    (fun _ _ => Raises (mkExn (OtherException "NotImplementedError")
                          (Text "Execute method not implemented"))).

(** [commands/echo.py]. *)
Definition Echo : pyclass :=
  mkClass "Echo" true false (Some (VBool false)) None
    (star_method (fun _ _ => Returns (VInt 0))).

(** A fun command, like [commands/headsortails.py], whose [execute]
    returns the exit code 1. *)
Definition Prank : pyclass :=
  mkClass "Prank" true false (Some (VBool true)) None
    (star_method (fun _ _ => Returns (VInt 1))).

(** A command whose [execute] returns the exit code 2. *)
Definition Fails : pyclass :=
  mkClass "Fails" true false (Some (VBool false)) None
    (star_method (fun _ _ => Returns (VInt 2))).

(** A command whose [execute] raises. *)
Definition Crashes : pyclass :=
  mkClass "Crashes" true false None None
    (star_method (fun _ _ => Raises (mkExn (OtherException "ValueError") (Text "boom")))).

(** A command that is interrupted with Ctrl-C while its [execute] runs,
    as [commands/llm.py] can be while it waits for its answer: the
    interpreter raises [KeyboardInterrupt], whose text is empty. *)
Definition Interrupted : pyclass :=
  mkClass "Interrupted" true false None None
    (star_method (fun _ _ => Raises (mkExn KeyboardInterrupt (Text EmptyString)))).

(** A command whose [execute] calls [sys.exit(1)]. *)
Definition Exits : pyclass :=
  mkClass "Exits" true false None None
    (star_method (fun _ _ => Raises (mkExn SystemExit (Text "1")))).

(** The modules of a [commands] package; [commands.helper] defines no
    command class of its own. *)
Definition sample_modules : gmap string (list pyclass) :=
  <["commands.echo" := [BaseCommand; Echo]]>
  (<["commands.prank" := [BaseCommand; Prank]]>
  (<["commands.fails" := [BaseCommand; Fails]]>
  (<["commands.crashes" := [BaseCommand; Crashes]]>
  (<["commands.interrupted" := [BaseCommand; Interrupted]]>
  (<["commands.exits" := [BaseCommand; Exits]]>
  (<["commands.helper" := [BaseCommand]]> ∅)))))).

Definition fun_on : config :=
  mkConfig (Some (<["say" := "echo"]> ∅)) (Some (<["fun_commands" := VBool true]> ∅)).

Definition fun_off : config :=
  mkConfig (Some (<["say" := "echo"]> ∅)) (Some (<["fun_commands" := VBool false]> ∅)).

Definition world_on : world := mkWorld sample_modules fun_on.
Definition world_off : world := mkWorld sample_modules fun_off.

(** The chain the parser builds for a bare command name. *)
Definition invoke (name : string) : chain :=
  mkChain (Some "COMMAND") (Some name) (Some []) (Some ∅).

End Samples.

(* ===================================================================== *)
(** ** Further code: texts of lines, the interactive loop, [echo] *)
(* ===================================================================== *)

Module Lines.

(** Every character of [s] satisfies [p]. *)
Fixpoint all (p : ascii -> bool) (s : string) : bool :=
  match s with
  | EmptyString => true
  | String c s' => p c && all p s'
  end.

(** [sep.join(parts)]. *)
Fixpoint join (sep : string) (parts : list string) : string :=
  match parts with
  | [] => EmptyString
  | [part] => part
  | part :: parts' => part +:+ sep +:+ join sep parts'
  end.

(** [s.lstrip()]. *)
Definition lstrip (s : string) : string := (Str.span Chars.is_space s).2.

(** [s.rstrip()]. *)
Fixpoint rstrip (s : string) : string :=
  match s with
  | EmptyString => EmptyString
  | String c s' =>
      match rstrip s' with
      | EmptyString => if Chars.is_space c then EmptyString else String c EmptyString
      | r => String c r
      end
  end.

(** [s.strip()]. *)
Definition strip (s : string) : string := rstrip (lstrip s).

(** A bare word that cannot be taken for a flag: one character or more,
    all of the class of the COMMAND pattern, the first of them no dash. *)
Definition is_plain_word (w : string) : bool :=
  match w with
  | EmptyString => false
  | String c _ => negb (Ascii.eqb c "-") && all Chars.is_command_char w
  end.

(** The name of a flag: one word character or more. *)
Definition is_flag_name (n : string) : bool :=
  match n with
  | EmptyString => false
  | String _ _ => all Chars.is_word n
  end.

(** The body of a quoted string that needs no escape: no quote [q] and no
    backslash in it. *)
Definition is_plain_body (q : ascii) (body : string) : bool :=
  all (fun c => negb (Ascii.eqb c q) && negb (Ascii.eqb c "\")) body.

(** A token with text in it: not an EOF, Whitespace or Mismatch token. *)
Definition is_content (t : TokType) : bool :=
  match t with
  | COMMAND | STRING | FLAG | AND | OR | SEMI => true
  | _ => false
  end.

(** The result of a tokenizer run with the position of its error, if it
    has one, moved by [d]. *)
Definition shifted (d : nat) (r : Tokenizer.lex_result) : Tokenizer.lex_result :=
  (r.1, (fun e => Tokenizer.UnexpectedCharacter (Tokenizer.bad_char e)
                    (Tokenizer.bad_pos e + d)) <$> r.2).

End Lines.

(* --------------------------------------------------------------------- *)
(** *** The interactive loop ([core/cli.py]) *)
(* --------------------------------------------------------------------- *)

Module CLI.

(** The exception the [except Exception as e] clause of [CLI.run] gets
    hold of: a SyntaxError of the tokenizer or of the parser, what
    [execute_command] raises, or what is raised while the prompt is built
    and the line is read. *)
Inductive caught :=
| FromTokenizer (e : Tokenizer.LexError)
| FromParser (e : Parser.ParseError)
| FromExecutor (e : Executor.exn)
| FromPrompt (e : Executor.exn).

Inductive info :=
| UserInput (raw_input : string)
| Exiting.

(** What one turn of the loop prints and logs, with what the executor
    prints and logs in between. *)
Inductive event :=
| LogInfo (m : info)
| Goodbye
| PrintError (e : caught)
| Ran (ev : Executor.event).

(** The [CLI] object, as far as a turn of the loop reads and writes it. *)
Record CLI := mkCLI {
  executor : Executor.Executor;
  running : bool
}.

(** How a turn ends: the loop goes back to the test of [self.running],
    or an exception that neither [except] clause catches leaves
    [CLI.run]. *)
Inductive ending :=
| Continues
| Leaves (e : Executor.exn).


(** [_handle_special_commands]: the events, the object after the call and
    the value returned. *)
Definition handle_special_commands (self : CLI) (raw_input : string)
  : list event * CLI * bool :=
  let lowered := Str.lower raw_input in
  if decide (lowered = "exit" \/ lowered = "quit")
  then ([Goodbye; LogInfo Exiting], mkCLI (executor self) false, true)
  else ([], self, false).

(** The two [except] clauses of the loop, tried in their order on what
    is raised in the [try] block: [except Exception as e] prints the
    error; [except KeyboardInterrupt] calls
    [_handle_special_commands("exit")]; anything else is not caught. *)
Definition except_clauses (self : CLI) (origin : Executor.exn -> caught)
    (e : Executor.exn) : list event * CLI * ending :=
  if Executor.is_exception e then ([PrintError (origin e)], self, Continues)
  else
    match Executor.exn_cls e with
    | Executor.KeyboardInterrupt =>
        let '(evs, self', _) := handle_special_commands self "exit" in
        (evs, self', Continues)
    | _ => ([], self, Leaves e)
    end.

(** The [for cmd_struct in command_structs] loop: each chain goes to
    [execute_command], whose status is not looked at. *)
Fixpoint execute_all (w : Executor.world) (ex : Executor.Executor)
    (command_structs : list chain) : Executor.M unit :=
  match command_structs with
  | [] => Executor.ret tt
  | cmd_struct :: rest =>
      Executor.bind (Executor.execute_command w ex cmd_struct)
        (fun _ => execute_all w ex rest)
  end.

(** One turn of the [while self.running] loop of [CLI.run], from the point
    where [input(prompt)] has returned [line]: the rest of the [try]
    block with the two [except] clauses. The errors of tokenizer and
    parser are [SyntaxError]s and so go to the first clause. [None]
    stands for a bound of tokenizer or parser being hit, which does not
    happen. *)
Definition turn (w : Executor.world) (self : CLI) (line : string)
  : option (list event * CLI * ending) :=
  let raw_input := Lines.strip line in
  let logged := [LogInfo (UserInput raw_input)] in
  match handle_special_commands self raw_input with
  | (evs, self', true) => Some (logged ++ evs, self', Continues)
  | (_, _, false) =>
      match parse_line raw_input with
      | None => None
      | Some (LexicalError e) =>
          Some (logged ++ [PrintError (FromTokenizer e)], self, Continues)
      | Some (SyntaxError e) =>
          Some (logged ++ [PrintError (FromParser e)], self, Continues)
      | Some (Parsed command_structs) =>
          match execute_all w (executor self) command_structs with
          | (t, Executor.Ret _) => Some (logged ++ (Ran <$> t), self, Continues)
          | (t, Executor.Exc e) =>
              let '(evs, self', how) := except_clauses self FromExecutor e in
              Some (logged ++ (Ran <$> t) ++ evs, self', how)
          end
      end
  end.


End CLI.

(** Notions the properties of the loop are stated with. *)
Module CLISpec.

(** The line read asks to leave the shell. *)
Definition exit_or_quit (line : string) : Prop :=
  Str.lower (Lines.strip line) = "exit" \/ Str.lower (Lines.strip line) = "quit".

Global Instance exit_or_quit_dec line : Decision (exit_or_quit line).
Proof. unfold exit_or_quit. apply _. Defined.


End CLISpec.

(* --------------------------------------------------------------------- *)
(** *** The [echo] command ([commands/echo.py]) *)
(* --------------------------------------------------------------------- *)

Module EchoCommand.

(** What [Echo.execute] logs and prints. The tuple [args] is kept as it
    is where the code formats it into a text. *)
Inductive output :=
| LogExecuting (args : list string) (kwargs : gmap string kwvalue)
| PrintEchoing (args : list string)
| PrintLine (text : string).

(** The truth value of [kwargs.get("verbose", False)]. *)
Definition verbose (kwargs : gmap string kwvalue) : bool :=
  match kwargs !! "verbose" with
  | None => false
  | Some KwTrue => true
  | Some (KwStr EmptyString) => false
  | Some (KwStr _) => true
  end.

(** The body of [Echo.execute], run with the unpacked [args] and
    [kwargs]. *)
Definition execute (args : list string) (kwargs : gmap string kwvalue)
  : list output * Executor.pyvalue :=
  ([LogExecuting args kwargs;
    if verbose kwargs then PrintEchoing args else PrintLine (Lines.join " " args)],
   Executor.VInt 0).

(** The class [Echo] as the executor finds it. *)
Definition Echo : Executor.pyclass :=
  Executor.mkClass "Echo" true false (Some (Executor.VBool false)) None
    (Executor.star_method (fun args kwargs => Executor.Returns (execute args kwargs).2)).

End EchoCommand.

(* ===================================================================== *)
(** ** Facts about the string helpers *)
(* ===================================================================== *)

Module StrFacts.

Lemma app_cons a s r : String a s +:+ r = String a (s +:+ r).
Proof. reflexivity. Qed.

Lemma app_empty_l r : EmptyString +:+ r = r.
Proof. reflexivity. Qed.

Lemma app_empty_r s : s +:+ EmptyString = s.
Proof. induction s as [|a s IH]; [reflexivity|]. rewrite app_cons, IH. reflexivity. Qed.

Lemma app_assoc s t u : (s +:+ t) +:+ u = s +:+ (t +:+ u).
Proof.
  induction s as [|a s IH]; [reflexivity|].
  rewrite !app_cons, IH. reflexivity.
Qed.

Lemma length_app s t : String.length (s +:+ t) = String.length s + String.length t.
Proof.
  induction s as [|a s IH]; [reflexivity|].
  rewrite app_cons. simpl. rewrite IH. reflexivity.
Qed.

(** A run and the rest put together give the text back. *)
Lemma span_app p s run rest :
  Str.span p s = (run, rest) -> s = run +:+ rest.
Proof.
  revert run rest. induction s as [|c s IH]; intros run rest; simpl.
  - intros [= <- <-]. reflexivity.
  - destruct (p c).
    + destruct (Str.span p s) as [run' rest'] eqn:E.
      intros [= <- <-]. rewrite app_cons, <- (IH _ _ eq_refl). reflexivity.
    + intros [= <- <-]. reflexivity.
Qed.

(** The rest of a run does not start with a character of the class. *)
Lemma span_rest p s run c rest :
  Str.span p s = (run, String c rest) -> p c = false.
Proof.
  revert run. induction s as [|a s IH]; intros run; simpl.
  - intros [= _ ?]; discriminate.
  - destruct (p a) eqn:Ha.
    + destruct (Str.span p s) as [run' rest'] eqn:E.
      intros [= <- ->]. eapply IH. reflexivity.
    + intros [= <- -> ->]. exact Ha.
Qed.

(** A run stops at the first character outside the class, whatever
    follows it. *)
Lemma span_stop p s c t :
  p c = false ->
  (forall run rest, Str.span p s = (run, rest) ->
     Str.span p (s +:+ String c t) = (run, rest +:+ String c t)).
Proof.
  intros Hc. induction s as [|a s IH]; intros run rest; simpl.
  - intros [= <- <-]. rewrite app_empty_l. simpl. rewrite Hc. reflexivity.
  - destruct (p a).
    + destruct (Str.span p s) as [run' rest'] eqn:E.
      intros [= <- <-]. rewrite (IH _ _ eq_refl). reflexivity.
    + intros [= <- <-]. reflexivity.
Qed.

Lemma strip_prefix_app lit s rest :
  Str.strip_prefix lit s = Some rest -> s = lit +:+ rest.
Proof.
  revert s. induction lit as [|a lit IH]; intros s; simpl.
  - intros [= ->]. reflexivity.
  - destruct s as [|b s]; [discriminate|].
    destruct (Ascii.eqb a b) eqn:E; [|discriminate].
    apply Ascii.eqb_eq in E as ->. intros H.
    rewrite app_cons, <- (IH _ H). reflexivity.
Qed.

Lemma strip_prefix_extend lit s rest t :
  Str.strip_prefix lit s = Some rest ->
  Str.strip_prefix lit (s +:+ t) = Some (rest +:+ t).
Proof.
  revert s. induction lit as [|a lit IH]; intros s; simpl.
  - intros [= ->]. reflexivity.
  - destruct s as [|b s]; [discriminate|].
    rewrite ?app_cons. simpl. destruct (Ascii.eqb a b); [|discriminate].
    apply IH.
Qed.

(** A run that stops before the end of the text stops there whatever is
    appended to the text. *)
Lemma span_extend p s u run c rest :
  Str.span p s = (run, String c rest) ->
  Str.span p (s +:+ u) = (run, String c rest +:+ u).
Proof.
  revert run. induction s as [|a s IH]; intros run; simpl.
  - intros [= _ ?]; discriminate.
  - destruct (p a).
    + destruct (Str.span p s) as [run' rest'] eqn:E.
      intros [= <- ->]. rewrite (IH _ eq_refl). reflexivity.
    + intros [= <- -> ->]. reflexivity.
Qed.

(** A run that takes the whole text goes on into what is appended. *)
Lemma span_through p s u run rest :
  Str.span p s = (s, EmptyString) ->
  Str.span p u = (run, rest) ->
  Str.span p (s +:+ u) = (s +:+ run, rest).
Proof.
  intros Hs Hu. induction s as [|a s IH]; simpl in *.
  - exact Hu.
  - destruct (p a); [|discriminate].
    destruct (Str.span p s) as [run' rest'] eqn:E.
    injection Hs as -> ->. rewrite (IH eq_refl). reflexivity.
Qed.

Lemma strip_prefix_none lit : forall c s w t,
  Str.contains w lit = false ->
  Str.strip_prefix lit (String c s) = None ->
  Str.strip_prefix lit (String c s +:+ String w t) = None.
Proof.
  induction lit as [|a lit IH]; intros c s w t Hw; simpl; [discriminate|].
  simpl in Hw. apply orb_false_iff in Hw as [Haw Hw].
  destruct (Ascii.eqb a c); [|reflexivity].
  destruct s as [|c' s'].
  - destruct lit as [|a' lit']; [discriminate|]. intros _. simpl.
    simpl in Hw. apply orb_false_iff in Hw as [-> _]. reflexivity.
  - apply IH. exact Hw.
Qed.

End StrFacts.

(* ===================================================================== *)
(** ** Facts about the tokenizer *)
(* ===================================================================== *)

Module TokenizerFacts.
Import Tokenizer StrFacts.

Lemma re_plus_splits p s g r : re_plus p s = Some (g, r) -> splits s g r.
Proof.
  unfold re_plus. destruct (Str.span p s) as [run rest] eqn:E.
  destruct run as [|a run]; [discriminate|]. intros [= <- <-].
  split; [exact (span_app _ _ _ _ E) | discriminate].
Qed.

Lemma re_literal_splits lit s g r :
  lit <> EmptyString -> re_literal lit s = Some (g, r) -> splits s g r.
Proof.
  intros Hlit. unfold re_literal.
  destruct (Str.strip_prefix lit s) as [rest|] eqn:E; [|discriminate].
  intros [= <- <-]. split; [exact (strip_prefix_app _ _ _ E) | exact Hlit].
Qed.

Lemma re_flag_splits s g r : re_flag s = Some (g, r) -> splits s g r.
Proof.
  unfold re_flag. destruct s as [|c s1]; [discriminate|].
  destruct (Ascii.eqb c "-") eqn:Ec; [|discriminate].
  apply Ascii.eqb_eq in Ec as ->.
  destruct s1 as [|d s2].
  - discriminate.
  - destruct (Ascii.eqb d "-") eqn:Ed.
    + apply Ascii.eqb_eq in Ed as ->.
      destruct (re_plus Chars.is_word s2) as [[w rest]|] eqn:E; [|discriminate].
      intros [= <- <-]. apply re_plus_splits in E as [-> _].
      split; [reflexivity | discriminate].
    + destruct (re_plus Chars.is_word (String d s2)) as [[w rest]|] eqn:E; [|discriminate].
      intros [= <- <-]. apply re_plus_splits in E as [-> _].
      split; [reflexivity | discriminate].
Qed.

Lemma re_quoted_body_app q s g r :
  re_quoted_body q s = Some (g, r) -> s = g +:+ r.
Proof.
  remember (String.length s) as n eqn:Hn.
  revert s g r Hn. induction (lt_wf n) as [n _ IH]. intros s g r ->.
  destruct s as [|c s']; [discriminate|]. simpl.
  destruct (Ascii.eqb c q).
  - intros [= <- <-]. reflexivity.
  - destruct (Ascii.eqb c "\").
    + destruct s' as [|d s'']; [discriminate|].
      destruct (Chars.is_dot d); [|discriminate].
      destruct (re_quoted_body q s'') as [[g' r']|] eqn:E; [|discriminate].
      intros [= <- <-].
      rewrite (IH (String.length s'') ltac:(simpl; lia) s'' g' r' eq_refl E).
      reflexivity.
    + destruct (re_quoted_body q s') as [[g' r']|] eqn:E; [|discriminate].
      intros [= <- <-].
      rewrite (IH (String.length s') ltac:(simpl; lia) s' g' r' eq_refl E).
      reflexivity.
Qed.

Lemma re_quoted_splits q s g r : re_quoted q s = Some (g, r) -> splits s g r.
Proof.
  unfold re_quoted. destruct s as [|c s']; [discriminate|].
  destruct (Ascii.eqb c q); [|discriminate].
  destruct (re_quoted_body q s') as [[g' r']|] eqn:E; [|discriminate].
  intros [= <- <-]. rewrite (re_quoted_body_app _ _ _ _ E).
  split; [reflexivity | discriminate].
Qed.

Lemma re_dot_splits s g r : re_dot s = Some (g, r) -> splits s g r.
Proof.
  unfold re_dot. destruct s as [|c s']; [discriminate|].
  destruct (Chars.is_dot c); [|discriminate].
  intros [= <- <-]. split; [reflexivity | discriminate].
Qed.

Lemma master_match_splits s k g r :
  master_match s = Some (k, g, r) -> splits s g r.
Proof.
  unfold master_match, patterns, first_match.
  repeat match goal with
  | |- context [match ?p s with _ => _ end] =>
      let E := fresh "E" in
      destruct (p s) as [[? ?]|] eqn:E;
      [ intros [= <- <- <-];
        first [ exact (re_plus_splits _ _ _ _ E)
              | (eapply re_literal_splits; [| exact E]; discriminate)
              | exact (re_flag_splits _ _ _ E)
              | exact (re_quoted_splits _ _ _ _ E)
              | exact (re_dot_splits _ _ _ E) ]
      | ]
  end.
  discriminate.
Qed.

Lemma splits_length s g r :
  splits s g r -> String.length s = String.length g + String.length r /\ 0 < String.length g.
Proof.
  intros [-> Hg]. rewrite length_app. split; [reflexivity|].
  destruct g; [congruence | simpl; lia].
Qed.

(** The loop does not depend on its bound once the bound exceeds the
    length of the text left. *)
Lemma tokenize_loop_fuel fuel1 fuel2 pos s :
  String.length s < fuel1 -> String.length s < fuel2 ->
  tokenize_loop fuel1 pos s = tokenize_loop fuel2 pos s.
Proof.
  revert fuel2 pos s. induction fuel1 as [|fuel1 IH]; intros fuel2 pos s H1 H2.
  - lia.
  - destruct fuel2 as [|fuel2]; [lia|]. simpl. unfold round.
    destruct s as [|c s']; [reflexivity|].
    destruct (master_match (String c s')) as [[[k g] r]|] eqn:E; [|reflexivity].
    apply master_match_splits, splits_length in E as [El Eg].
    assert (String.length r < fuel1) by lia.
    assert (String.length r < fuel2) by lia.
    destruct k; try reflexivity; try (f_equal; apply IH; assumption); apply IH; assumption.
Qed.

Lemma master_match_empty : master_match EmptyString = None.
Proof. reflexivity. Qed.

Lemma tokenize_loop_S fuel pos s :
  tokenize_loop (S fuel) pos s = round (tokenize_loop fuel) pos s.
Proof. reflexivity. Qed.

(** The three ways a round of the loop goes, free of the bound. *)
Lemma tokenize_from_empty pos :
  tokenize_from pos EmptyString = Some ([mkToken EOF EmptyString], None).
Proof. reflexivity. Qed.

Lemma tokenize_from_skip pos s group rest :
  master_match s = Some (WHITESPACE, group, rest) ->
  tokenize_from pos s = tokenize_from (pos + String.length group) rest.
Proof.
  intros E. unfold tokenize_from at 1.
  destruct s as [|c s']; [discriminate|].
  rewrite tokenize_loop_S. unfold round. rewrite E.
  apply master_match_splits, splits_length in E as [El Eg].
  apply tokenize_loop_fuel; lia.
Qed.

Lemma tokenize_from_mismatch pos s group rest :
  master_match s = Some (MISMATCH, group, rest) ->
  tokenize_from pos s = Some ([], Some (UnexpectedCharacter group pos)).
Proof.
  intros E. unfold tokenize_from.
  destruct s as [|c s']; [discriminate|].
  rewrite tokenize_loop_S. unfold round. rewrite E. reflexivity.
Qed.

Lemma tokenize_from_yield pos s tok_type group rest :
  master_match s = Some (tok_type, group, rest) ->
  tok_type <> WHITESPACE -> tok_type <> MISMATCH ->
  tokenize_from pos s =
  yield (token_of tok_type group) <$> tokenize_from (pos + String.length group) rest.
Proof.
  intros E Hw Hm. unfold tokenize_from.
  destruct s as [|c s']; [discriminate|].
  rewrite tokenize_loop_S. unfold round. rewrite E.
  apply master_match_splits, splits_length in E as [El Eg].
  rewrite (tokenize_loop_fuel (String.length (String c s')) (S (String.length rest))) by lia.
  destruct tok_type; congruence.
Qed.

(** Some pattern matches wherever there is a character left: a line feed
    is white space and anything else is matched by the dot. *)
Lemma master_match_some c s :
  exists k g r, master_match (String c s) = Some (k, g, r).
Proof.
  destruct (master_match (String c s)) as [[[k g] r]|] eqn:E; [eauto|].
  exfalso. revert E. unfold master_match, patterns, first_match.
  repeat match goal with
  | |- context [match ?p (String c s) with _ => _ end] =>
      destruct (p (String c s)) as [[? ?]|] eqn:?; [discriminate|]
  end.
  intros _.
  match goal with H : re_dot _ = None |- _ => revert H end.
  match goal with H : re_plus Chars.is_space _ = None |- _ => revert H end.
  unfold re_dot, re_plus. simpl.
  destruct (Chars.is_space c) eqn:Hs.
  - destruct (Str.span Chars.is_space s); discriminate.
  - intros _. destruct (Chars.is_dot c) eqn:Hd; [discriminate|].
    revert Hs Hd. unfold Chars.is_space, Chars.is_dot, Chars.in_range.
    destruct (Chars.code c) as [|p]; [discriminate|].
    intros Hs Hd. apply negb_false_iff, N.eqb_eq in Hd. rewrite Hd in Hs.
    discriminate.
Qed.

(** The tokenizer always comes to an end: it yields its tokens and then
    either the EOF token or an error. *)
Lemma tokenize_from_total s : forall pos, exists r, tokenize_from pos s = Some r.
Proof.
  remember (String.length s) as n eqn:Hn. revert s Hn.
  induction (lt_wf n) as [n _ IH]. intros s -> pos.
  destruct s as [|c s']; [eexists; reflexivity|].
  destruct (master_match_some c s') as (k & g & r & E).
  pose proof (splits_length _ _ _ (master_match_splits _ _ _ _ E)) as [El Eg].
  destruct (IH (String.length r) ltac:(lia) r eq_refl (pos + String.length g)) as [res Hres].
  destruct (decide (k = WHITESPACE)) as [->|Hw].
  { rewrite (tokenize_from_skip _ _ _ _ E). eauto. }
  destruct (decide (k = MISMATCH)) as [->|Hm].
  { rewrite (tokenize_from_mismatch _ _ _ _ E). eauto. }
  rewrite (tokenize_from_yield _ _ _ _ _ E Hw Hm), Hres. eexists; reflexivity.
Qed.

Lemma tokenize_total text : exists r, tokenize text = Some r.
Proof. apply tokenize_from_total. Qed.

(** *** What the loop has yielded when it comes to a position *)

Lemma master_match_kind s k g r :
  master_match s = Some (k, g, r) -> k <> EOF.
Proof.
  unfold master_match, patterns, first_match.
  repeat match goal with
  | |- context [match ?p s with _ => _ end] =>
      destruct (p s) as [[? ?]|]; [intros [= <- <- <-]; discriminate|]
  end.
  discriminate.
Qed.

(** The group of the catch-all pattern is the one character at hand. *)
Lemma master_match_mismatch s g r :
  master_match s = Some (MISMATCH, g, r) ->
  exists c, s = String c r /\ g = String c EmptyString.
Proof.
  unfold master_match, patterns, first_match.
  repeat match goal with
  | |- context [match ?p s with _ => _ end] =>
      destruct (p s) as [[? ?]|] eqn:?; [try discriminate|]
  end; [|discriminate].
  intros [= <- <-].
  match goal with H : re_dot s = Some _ |- _ => revert H end.
  unfold re_dot. destruct s as [|c s']; [discriminate|].
  destruct (Chars.is_dot c); [|discriminate]. intros [= <- <-]. eauto.
Qed.

Lemma get_app pre c r :
  String.get (String.length pre) (pre +:+ String c r) = Some c.
Proof. induction pre as [|a pre IH]; [reflexivity | exact IH]. Qed.

Lemma scans_prefix text pos s toks :
  scans text pos s toks ->
  exists pre, text = pre +:+ s /\ String.length pre = pos.
Proof.
  induction 1 as [|pos s toks g r _ (pre & -> & <-) E
                  |pos s toks k g r _ (pre & -> & <-) E _ _].
  - exists EmptyString. split; reflexivity.
  - apply master_match_splits in E as [-> _]. exists (pre +:+ g).
    rewrite app_assoc, length_app. split; reflexivity.
  - apply master_match_splits in E as [-> _]. exists (pre +:+ g).
    rewrite app_assoc, length_app. split; reflexivity.
Qed.

Lemma after_nil r : after [] r = r.
Proof. destruct r; reflexivity. Qed.

Lemma after_yield toks t r : after toks (yield t r) = after (toks ++ [t]) r.
Proof. destruct r as [ts e]. unfold after, yield. simpl. rewrite <- List.app_assoc. reflexivity. Qed.

(** The run over the whole text is what has been yielded on the way to a
    position, followed by the run from that position. *)
Lemma scans_tokenize text pos s toks :
  scans text pos s toks ->
  tokenize text = after toks <$> tokenize_from pos s.
Proof.
  induction 1 as [|pos s toks g r _ IH E|pos s toks k g r _ IH E Hw Hm].
  - unfold tokenize. destruct (tokenize_from 0 text) as [r|]; [|reflexivity].
    simpl. rewrite after_nil. reflexivity.
  - rewrite IH, (tokenize_from_skip _ _ _ _ E). reflexivity.
  - rewrite IH, (tokenize_from_yield _ _ _ _ _ E Hw Hm).
    destruct (tokenize_from _ r) as [res|]; [|reflexivity].
    simpl. rewrite after_yield. reflexivity.
Qed.

Lemma token_of_type k g : tok_type (token_of k g) = k.
Proof. destruct k; reflexivity. Qed.

Lemma scans_no_eof text pos s toks :
  scans text pos s toks -> Forall (fun t => tok_type t <> EOF) toks.
Proof.
  induction 1 as [| |pos s toks k g r _ IH E _ _]; [constructor | assumption |].
  apply Forall_app. split; [assumption|]. constructor; [|constructor].
  rewrite token_of_type. eapply master_match_kind, E.
Qed.

(** *** The literal of a COMMAND token is never empty *)

Lemma tokenize_from_command_nonempty s : forall pos toks err,
  tokenize_from pos s = Some (toks, err) ->
  Forall command_literal_nonempty toks.
Proof.
  remember (String.length s) as n eqn:Hn. revert s Hn.
  induction (lt_wf n) as [n _ IH]. intros s -> pos toks err.
  destruct s as [|c s'].
  { intros [= <- <-]. constructor; [|constructor]. intros [=]. }
  destruct (master_match_some c s') as (k & g & r & E).
  pose proof (master_match_splits _ _ _ _ E) as Hsp.
  pose proof (splits_length _ _ _ Hsp) as [El Eg].
  destruct (decide (k = WHITESPACE)) as [->|Hw].
  { rewrite (tokenize_from_skip _ _ _ _ E). eapply IH; [|reflexivity]. lia. }
  destruct (decide (k = MISMATCH)) as [->|Hm].
  { rewrite (tokenize_from_mismatch _ _ _ _ E). intros [= <- <-]. constructor. }
  rewrite (tokenize_from_yield _ _ _ _ _ E Hw Hm).
  destruct (tokenize_from (pos + String.length g) r) as [[ts e]|] eqn:Er; [|discriminate].
  intros [= <- <-]. constructor.
  - intros Hk. rewrite token_of_type in Hk. subst k. simpl. apply Hsp.
  - eapply IH; [| reflexivity | exact Er]. lia.
Qed.

(** *** Appending text that starts with white space

    A match found in a text is found again, with the same group, when
    text that starts with a white-space character is appended: no token
    pattern can run into white space, and the patterns tried before the
    one that matched still fail. *)

Lemma space_is_no_token_char w :
  Chars.is_space w = true ->
  Chars.is_word w = false /\ Chars.is_command_char w = false /\
  Ascii.eqb w "-" = false /\ Ascii.eqb w "034" = false /\ Ascii.eqb w "'" = false /\
  Str.contains w "&&" = false /\ Str.contains w "||" = false /\
  Str.contains w ";" = false.
Proof.
  destruct w as [[] [] [] [] [] [] [] []]; vm_compute; intros H;
    try discriminate H; repeat split.
Qed.

Lemma re_plus_extend p s w t :
  p w = false ->
  re_plus p (s +:+ String w t) = extended (String w t) <$> re_plus p s.
Proof.
  intros Hw. unfold re_plus.
  destruct (Str.span p s) as [run rest] eqn:E.
  rewrite (span_stop p s w t Hw _ _ E).
  destruct run; reflexivity.
Qed.

Lemma re_plus_none p c s u :
  re_plus p (String c s) = None -> re_plus p (String c s +:+ u) = None.
Proof.
  unfold re_plus. simpl. destruct (p c); [|reflexivity].
  destruct (Str.span p s); discriminate.
Qed.

Lemma re_plus_rest p s g c r u :
  re_plus p s = Some (g, String c r) ->
  re_plus p (s +:+ u) = Some (g, String c r +:+ u).
Proof.
  unfold re_plus. destruct (Str.span p s) as [run rest] eqn:E.
  destruct run as [|a run]; [discriminate|]. intros [= <- ->].
  rewrite (span_extend _ _ u _ _ _ E). reflexivity.
Qed.

Lemma re_literal_extend lit c s w t :
  Str.contains w lit = false ->
  re_literal lit (String c s +:+ String w t) =
  extended (String w t) <$> re_literal lit (String c s).
Proof.
  intros Hw. unfold re_literal.
  destruct (Str.strip_prefix lit (String c s)) as [rest|] eqn:E.
  - rewrite (strip_prefix_extend _ _ _ (String w t) E). reflexivity.
  - rewrite (strip_prefix_none _ _ _ _ _ Hw E). reflexivity.
Qed.

Lemma re_flag_extend c s w t :
  Chars.is_word w = false -> Ascii.eqb w "-" = false ->
  re_flag (String c s +:+ String w t) = extended (String w t) <$> re_flag (String c s).
Proof.
  intros Hw Hd. unfold re_flag. rewrite app_cons.
  destruct (Ascii.eqb c "-"); [|reflexivity].
  destruct s as [|d s2].
  - rewrite app_empty_l, Hd.
    rewrite <- (app_empty_l (String w t)) at 1. rewrite re_plus_extend by exact Hw.
    reflexivity.
  - rewrite app_cons. destruct (Ascii.eqb d "-").
    + rewrite re_plus_extend by exact Hw.
      destruct (re_plus Chars.is_word s2) as [[? ?]|]; reflexivity.
    + rewrite <- app_cons, re_plus_extend by exact Hw.
      destruct (re_plus Chars.is_word (String d s2)) as [[? ?]|]; reflexivity.
Qed.

Lemma re_quoted_body_extend q u s : forall g r,
  re_quoted_body q s = Some (g, r) ->
  re_quoted_body q (s +:+ u) = Some (g, r +:+ u).
Proof.
  remember (String.length s) as n eqn:Hn. revert s Hn.
  induction (lt_wf n) as [n _ IH]. intros s -> g r.
  destruct s as [|c s']; [discriminate|]. rewrite app_cons. simpl.
  destruct (Ascii.eqb c q).
  - intros [= <- <-]. reflexivity.
  - destruct (Ascii.eqb c "\").
    + destruct s' as [|d s'']; [discriminate|]. rewrite app_cons.
      destruct (Chars.is_dot d); [|discriminate].
      destruct (re_quoted_body q s'') as [[g' r']|] eqn:E; [|discriminate].
      intros [= <- <-].
      rewrite (IH (String.length s'') ltac:(simpl; lia) s'' eq_refl g' r' E).
      reflexivity.
    + destruct (re_quoted_body q s') as [[g' r']|] eqn:E; [|discriminate].
      intros [= <- <-].
      rewrite (IH (String.length s') ltac:(simpl; lia) s' eq_refl g' r' E).
      reflexivity.
Qed.

Lemma re_quoted_extend q u s g r :
  re_quoted q s = Some (g, r) -> re_quoted q (s +:+ u) = Some (g, r +:+ u).
Proof.
  unfold re_quoted. destruct s as [|c s']; [discriminate|]. rewrite app_cons.
  destruct (Ascii.eqb c q); [|discriminate].
  destruct (re_quoted_body q s') as [[g' r']|] eqn:E; [|discriminate].
  intros [= <- <-]. rewrite (re_quoted_body_extend _ u _ _ _ E). reflexivity.
Qed.

Lemma re_quoted_other q c s u :
  Ascii.eqb c q = false -> re_quoted q (String c s +:+ u) = None.
Proof. intros H. unfold re_quoted. rewrite app_cons, H. reflexivity. Qed.

Lemma master_match_extend c s k g r w t :
  master_match (String c s) = Some (k, g, r) ->
  k <> MISMATCH -> (k = WHITESPACE -> r <> EmptyString) ->
  Chars.is_space w = true ->
  master_match (String c s +:+ String w t) = Some (k, g, r +:+ String w t).
Proof.
  intros H Hm Hws Hw.
  destruct (space_is_no_token_char w Hw)
    as (Hword & Hcmd & Hdash & Hdq & Hsq & Hand & Hor & Hsemi).
  unfold master_match, patterns in *. cbn [first_match] in *.
  (* white space *)
  destruct (re_plus Chars.is_space (String c s)) as [[g1 r1]|] eqn:E1.
  { injection H as <- <- <-. destruct r1 as [|c' r'].
    - exfalso. exact (Hws eq_refl eq_refl).
    - rewrite (re_plus_rest _ _ _ _ _ _ E1). reflexivity. }
  rewrite (re_plus_none _ _ _ _ E1).
  (* the three separators *)
  rewrite (re_literal_extend "&&" c s w t Hand).
  destruct (re_literal "&&" (String c s)) as [[g1 r1]|].
  { injection H as <- <- <-. reflexivity. }
  rewrite (re_literal_extend "||" c s w t Hor).
  destruct (re_literal "||" (String c s)) as [[g1 r1]|].
  { injection H as <- <- <-. reflexivity. }
  rewrite (re_literal_extend ";" c s w t Hsemi).
  destruct (re_literal ";" (String c s)) as [[g1 r1]|].
  { injection H as <- <- <-. reflexivity. }
  (* flag *)
  rewrite (re_flag_extend c s w t Hword Hdash).
  destruct (re_flag (String c s)) as [[g1 r1]|].
  { injection H as <- <- <-. reflexivity. }
  cbn [fmap option_fmap option_map].
  (* quoted strings: an opening quote without its string leaves only
     the catch-all pattern *)
  destruct (re_quoted "034" (String c s)) as [[g1 r1]|] eqn:E6.
  { injection H as <- <- <-. rewrite (re_quoted_extend _ _ _ _ _ E6). reflexivity. }
  destruct (Ascii.eqb c "034") eqn:Ec6.
  { apply Ascii.eqb_eq in Ec6. subst c. exfalso. cbn in H.
    injection H as <- _ _. apply Hm. reflexivity. }
  rewrite (re_quoted_other _ _ _ _ Ec6).
  destruct (re_quoted "'" (String c s)) as [[g1 r1]|] eqn:E7.
  { injection H as <- <- <-. rewrite (re_quoted_extend _ _ _ _ _ E7). reflexivity. }
  destruct (Ascii.eqb c "'") eqn:Ec7.
  { apply Ascii.eqb_eq in Ec7. subst c. exfalso. cbn in H.
    injection H as <- _ _. apply Hm. reflexivity. }
  rewrite (re_quoted_other _ _ _ _ Ec7).
  (* bare word *)
  rewrite (re_plus_extend _ (String c s) w t Hcmd).
  destruct (re_plus Chars.is_command_char (String c s)) as [[g1 r1]|].
  { injection H as <- <- <-. reflexivity. }
  destruct (re_dot (String c s)) as [[g1 r1]|].
  - injection H as <- _ _. exfalso. apply Hm. reflexivity.
  - discriminate.
Qed.

Lemma master_match_whitespace s g r :
  master_match s = Some (WHITESPACE, g, r) <->
  Str.span Chars.is_space s = (g, r) /\ g <> EmptyString.
Proof.
  unfold master_match, patterns. cbn [first_match].
  unfold re_plus at 1. destruct (Str.span Chars.is_space s) as [run rest].
  destruct run as [|a run].
  - split.
    + repeat match goal with
      | |- context [match ?p s with _ => _ end] =>
          destruct (p s) as [[? ?]|]; [discriminate|]
      end. discriminate.
    + intros [[= <- <-] H]. congruence.
  - split.
    + intros [= <- <-]. split; [reflexivity | discriminate].
    + intros [[= <- <-] _]. reflexivity.
Qed.

(** Leading white space is skipped, however much of it there is. *)
Lemma tokenize_from_spaces g s pos :
  Str.span Chars.is_space g = (g, EmptyString) ->
  tokenize_from pos (g +:+ s) = tokenize_from (pos + String.length g) s.
Proof.
  intros Hg. destruct g as [|a g'].
  { rewrite app_empty_l. simpl. rewrite Nat.add_0_r. reflexivity. }
  destruct (Str.span Chars.is_space s) as [g2 r2] eqn:Es.
  pose proof (span_through _ _ _ _ _ Hg Es) as Hgs.
  assert (Hm : master_match (String a g' +:+ s) = Some (WHITESPACE, String a g' +:+ g2, r2)).
  { apply master_match_whitespace. split; [exact Hgs | discriminate]. }
  rewrite (tokenize_from_skip _ _ _ _ Hm), length_app.
  destruct g2 as [|b g2'].
  - apply span_app in Es. rewrite app_empty_l in Es. subst r2.
    simpl. rewrite Nat.add_0_r. reflexivity.
  - assert (Hs : master_match s = Some (WHITESPACE, String b g2', r2)).
    { apply master_match_whitespace. split; [exact Es | discriminate]. }
    rewrite (tokenize_from_skip _ _ _ _ Hs), Nat.add_assoc. reflexivity.
Qed.

(** A run that ends without an error ends with the EOF token. *)
Lemma tokenize_from_ends s : forall pos toks,
  tokenize_from pos s = Some (toks, None) ->
  exists ts, toks = ts ++ [mkToken EOF EmptyString].
Proof.
  remember (String.length s) as n eqn:Hn. revert s Hn.
  induction (lt_wf n) as [n _ IH]. intros s -> pos toks.
  destruct s as [|c s'].
  { intros [= <-]. exists []. reflexivity. }
  destruct (master_match_some c s') as (k & g & r & E).
  pose proof (splits_length _ _ _ (master_match_splits _ _ _ _ E)) as [El Eg].
  destruct (decide (k = WHITESPACE)) as [->|Hw].
  { rewrite (tokenize_from_skip _ _ _ _ E). eapply IH; [|reflexivity]. lia. }
  destruct (decide (k = MISMATCH)) as [->|Hm].
  { rewrite (tokenize_from_mismatch _ _ _ _ E). discriminate. }
  rewrite (tokenize_from_yield _ _ _ _ _ E Hw Hm).
  destruct (tokenize_from (pos + String.length g) r) as [[ts e]|] eqn:Er; [|discriminate].
  intros [= <- ->].
  destruct (IH (String.length r) ltac:(lia) r eq_refl _ _ Er) as [ts' ->].
  exists (token_of k g :: ts'). reflexivity.
Qed.

(** Where the text starts only matters to the position an error names. *)
Lemma tokenize_from_shift s : forall pos pos' toks,
  tokenize_from pos s = Some (toks, None) ->
  tokenize_from pos' s = Some (toks, None).
Proof.
  remember (String.length s) as n eqn:Hn. revert s Hn.
  induction (lt_wf n) as [n _ IH]. intros s -> pos pos' toks.
  destruct s as [|c s']; [intros H; exact H|].
  destruct (master_match_some c s') as (k & g & r & E).
  pose proof (splits_length _ _ _ (master_match_splits _ _ _ _ E)) as [El Eg].
  destruct (decide (k = WHITESPACE)) as [->|Hw].
  { rewrite !(tokenize_from_skip _ _ _ _ E). eapply IH; [|reflexivity]. lia. }
  destruct (decide (k = MISMATCH)) as [->|Hm].
  { rewrite (tokenize_from_mismatch _ _ _ _ E). discriminate. }
  rewrite !(tokenize_from_yield _ _ _ _ _ E Hw Hm).
  destruct (tokenize_from (pos + String.length g) r) as [[ts e]|] eqn:Er; [|discriminate].
  intros [= <- ->].
  rewrite (IH (String.length r) ltac:(lia) r eq_refl _ (pos' + String.length g) _ Er).
  reflexivity.
Qed.

(** The tokens of a text that is tokenized without an error are yielded
    again, in place of its EOF token, when text that starts with white
    space is appended. *)
Lemma tokenize_from_app A : forall pos ts w t,
  tokenize_from pos A = Some (ts ++ [mkToken EOF EmptyString], None) ->
  Chars.is_space w = true ->
  tokenize_from pos (A +:+ String w t) =
  after ts <$> tokenize_from (pos + String.length A) (String w t).
Proof.
  remember (String.length A) as n eqn:Hn. revert A Hn.
  induction (lt_wf n) as [n _ IH]. intros A -> pos ts w t H Hw.
  destruct A as [|c A'].
  { assert (ts = []) as ->.
    { destruct ts as [|t0 [|t1 ts']]; [reflexivity | discriminate H | discriminate H]. }
    rewrite app_empty_l. simpl. rewrite Nat.add_0_r.
    destruct (tokenize_from pos (String w t)); [|reflexivity].
    simpl. rewrite after_nil. reflexivity. }
  destruct (master_match_some c A') as (k & g & r & E).
  pose proof (master_match_splits _ _ _ _ E) as Hsp.
  pose proof (splits_length _ _ _ Hsp) as [El Eg].
  destruct (decide (k = MISMATCH)) as [->|Hm].
  { rewrite (tokenize_from_mismatch _ _ _ _ E) in H. discriminate. }
  destruct (decide (k = WHITESPACE)) as [->|Hk].
  - rewrite (tokenize_from_skip _ _ _ _ E) in H.
    destruct r as [|c' r'].
    + assert (ts = []) as ->.
      { destruct ts as [|t0 [|t1 ts']]; [reflexivity | discriminate H | discriminate H]. }
      destruct Hsp as [HA _]. rewrite app_empty_r in HA.
      apply master_match_whitespace in E as [E _]. rewrite <- HA in E.
      rewrite (tokenize_from_spaces _ _ _ E).
      destruct (tokenize_from _ (String w t)); [|reflexivity].
      simpl. rewrite after_nil. reflexivity.
    + rewrite (tokenize_from_skip _ _ _ _
                 (master_match_extend _ _ _ _ _ _ t E Hm ltac:(discriminate) Hw)).
      rewrite (IH (String.length (String c' r')) ltac:(lia) _ eq_refl _ _ _ _ H Hw).
      rewrite El, Nat.add_assoc. reflexivity.
  - rewrite (tokenize_from_yield _ _ _ _ _ E Hk Hm) in H.
    destruct (tokenize_from (pos + String.length g) r) as [[ts' e]|] eqn:Er; [|discriminate].
    injection H as H ->.
    destruct (tokenize_from_ends _ _ _ Er) as [ts'' ->].
    change (token_of k g :: ts'' ++ [mkToken EOF EmptyString])
      with ((token_of k g :: ts'') ++ [mkToken EOF EmptyString]) in H.
    apply app_inj_tail in H as [<- _].
    rewrite (tokenize_from_yield _ _ _ _ _
               (master_match_extend _ _ _ _ _ _ t E Hm ltac:(congruence) Hw) Hk Hm).
    rewrite (IH (String.length r) ltac:(lia) _ eq_refl _ _ _ _ Er Hw).
    rewrite El, Nat.add_assoc.
    destruct (tokenize_from _ (String w t)) as [[ts1 e1]|]; reflexivity.
Qed.

(** Two texts with a separator between them, set off by blanks. *)
Lemma tokenize_joined A B sep k tsA tsB :
  (forall u, master_match (sep +:+ String " " u) = Some (k, sep, String " " u)) ->
  k <> WHITESPACE -> k <> MISMATCH ->
  tokenize A = Some (tsA ++ [mkToken EOF EmptyString], None) ->
  tokenize B = Some (tsB, None) ->
  tokenize (A +:+ String " " (sep +:+ String " " B)) =
  Some (tsA ++ token_of k sep :: tsB, None).
Proof.
  intros Hsep Hw Hm HA HB. unfold tokenize in *.
  rewrite (tokenize_from_app A 0 tsA " " _ HA eq_refl).
  change (String " " (sep +:+ String " " B)) with (" " +:+ (sep +:+ String " " B)).
  rewrite (tokenize_from_spaces " " _ _ eq_refl).
  rewrite (tokenize_from_yield _ _ _ _ _ (Hsep B) Hw Hm).
  change (String " " B) with (" " +:+ B).
  rewrite (tokenize_from_spaces " " _ _ eq_refl).
  rewrite (tokenize_from_shift _ _ _ _ HB). reflexivity.
Qed.

End TokenizerFacts.

(* ===================================================================== *)
(** ** Facts about the parser *)
(* ===================================================================== *)

Module ParserFacts.
Import Parser.

(** The argument loop only consumes: the state it leaves is a suffix of
    the state it starts from. *)
Lemma parse_args_suffix st : forall args kwargs args' kwargs' st',
  parse_args st args kwargs = (args', kwargs', st') -> st' `suffix_of` st.
Proof.
  remember (length st) as n eqn:Hn. revert st Hn.
  induction (lt_wf n) as [n _ IH]. intros st -> args kwargs args' kwargs' st'.
  assert (Hrec : forall st0 a k, length st0 < length st ->
            parse_args st0 a k = (args', kwargs', st') -> st' `suffix_of` st0).
  { intros st0 a k Hlt. eapply IH; [exact Hlt | reflexivity]. }
  destruct st as [|cur st1]; simpl.
  - intros [= <- <- <-]. reflexivity.
  - destruct (ends_command (tok_type cur)); [intros [= <- <- <-]; reflexivity|].
    destruct (tok_type cur);
      try (intros [= <- <- <-]; reflexivity).
    + (* COMMAND *)
      destruct (Str.contains "=" (tok_value cur)).
      * destruct (Str.split_once "=" (tok_value cur)) as [k v].
        intros H. apply suffix_cons_r. eapply Hrec; [simpl; lia | exact H].
      * intros H. apply suffix_cons_r. eapply Hrec; [simpl; lia | exact H].
    + (* STRING *)
      destruct (Str.contains "=" (tok_value cur)).
      * destruct (Str.split_once "=" (tok_value cur)) as [k v].
        intros H. apply suffix_cons_r. eapply Hrec; [simpl; lia | exact H].
      * intros H. apply suffix_cons_r. eapply Hrec; [simpl; lia | exact H].
    + (* FLAG *)
      destruct (Str.contains "=" (Str.lstrip "-" (tok_value cur))).
      * destruct (Str.split_once "=" (Str.lstrip "-" (tok_value cur))) as [k v].
        intros H. apply suffix_cons_r. eapply Hrec; [simpl; lia | exact H].
      * destruct st1 as [|nxt st2].
        -- intros H. apply suffix_cons_r. eapply Hrec; [simpl; lia | exact H].
        -- destruct (is_value (tok_type nxt)).
           ++ intros H. do 2 apply suffix_cons_r. eapply Hrec; [simpl; lia | exact H].
           ++ intros H. apply suffix_cons_r. eapply Hrec; [simpl; lia | exact H].
Qed.

(** A chain is parsed from a COMMAND token at the head of the state: the
    chain is tagged "COMMAND", its name is the literal of that token, and
    the token is consumed. *)
Lemma parse_chain_inr st ch st' :
  parse_chain st = inr (ch, st') ->
  exists cur st1,
    st = cur :: st1 /\ tok_type cur = COMMAND /\
    ch_type ch = Some "COMMAND" /\ ch_cmd ch = Some (tok_value cur) /\
    st' `suffix_of` st1.
Proof.
  unfold parse_chain, parse_command. destruct st as [|cur st1]; [discriminate|]. simpl.
  destruct (tok_type cur) eqn:Ek; try discriminate.
  destruct (parse_args st1 [] ∅) as [[args kwargs] st2] eqn:E.
  intros [= <- <-]. exists cur, st1. repeat split; try assumption.
  eapply parse_args_suffix, E.
Qed.

Lemma next_token_suffix st : next_token st `suffix_of` st.
Proof. destruct st; [reflexivity | apply suffix_cons_r; reflexivity]. Qed.

Lemma after_chain_suffix st' : after_chain st' `suffix_of` st'.
Proof.
  unfold after_chain. destruct (is_separator _); [apply next_token_suffix | reflexivity].
Qed.

Lemma round_shrinks st ch st' :
  parse_chain st = inr (ch, st') -> length (after_chain st') < length st.
Proof.
  intros (cur & st1 & -> & _ & _ & _ & Hsuf)%parse_chain_inr.
  pose proof (suffix_length _ _ (after_chain_suffix st')).
  pose proof (suffix_length _ _ Hsuf). simpl. lia.
Qed.

Lemma parse_loop_S fuel st chains :
  parse_loop (S fuel) st chains = round (parse_loop fuel) st chains.
Proof. reflexivity. Qed.

Lemma parse_loop_fuel fuel1 fuel2 st chains :
  length st < fuel1 -> length st < fuel2 ->
  parse_loop fuel1 st chains = parse_loop fuel2 st chains.
Proof.
  revert fuel2 st chains. induction fuel1 as [|fuel1 IH]; intros fuel2 st chains H1 H2.
  - lia.
  - destruct fuel2 as [|fuel2]; [lia|]. rewrite !parse_loop_S. unfold round.
    destruct (decide _); [reflexivity|].
    destruct (parse_chain st) as [e|[ch st']] eqn:E; [reflexivity|].
    apply round_shrinks in E. apply IH; lia.
Qed.

(** The three ways a round of the loop goes, free of the bound. *)
Lemma parse_from_eof st chains :
  tok_type (current st) = EOF -> parse_from st chains = Some (inr chains).
Proof.
  intros H. unfold parse_from. rewrite parse_loop_S. unfold round.
  destruct (decide _); [reflexivity | contradiction].
Qed.

Lemma parse_from_error st chains e :
  tok_type (current st) <> EOF -> parse_chain st = inl e ->
  parse_from st chains = Some (inl e).
Proof.
  intros H E. unfold parse_from. rewrite parse_loop_S. unfold round.
  destruct (decide _); [contradiction|]. rewrite E. reflexivity.
Qed.

Lemma parse_from_chain st chains ch st' :
  tok_type (current st) <> EOF -> parse_chain st = inr (ch, st') ->
  parse_from st chains = parse_from (after_chain st') (chains ++ [ch]).
Proof.
  intros H E. unfold parse_from at 1. rewrite parse_loop_S. unfold round.
  destruct (decide _); [contradiction|]. rewrite E.
  apply round_shrinks in E. apply parse_loop_fuel; lia.
Qed.

(** The parser always comes to an end, with the chains or an error. *)
Lemma parse_from_total st : forall chains, exists r, parse_from st chains = Some r.
Proof.
  remember (length st) as n eqn:Hn. revert st Hn.
  induction (lt_wf n) as [n _ IH]. intros st -> chains.
  destruct (decide (tok_type (current st) = EOF)) as [He|He].
  { rewrite parse_from_eof by assumption. eauto. }
  destruct (parse_chain st) as [e|[ch st']] eqn:E.
  { rewrite (parse_from_error _ _ _ He E). eauto. }
  rewrite (parse_from_chain _ _ _ _ He E).
  eapply IH; [eapply round_shrinks, E | reflexivity].
Qed.

Lemma parse_total tokens : exists r, parse tokens = Some r.
Proof. apply parse_from_total. Qed.

(** *** A command followed by a token that ends it *)

(** The argument loop stops at a separator or EOF token and binds the
    arguments before it as it binds them when nothing follows. *)
Lemma parse_args_stop ts : forall sep rest args kwargs,
  Forall (fun t => is_argument (tok_type t) = true) ts ->
  ends_command (tok_type sep) = true ->
  parse_args (ts ++ sep :: rest) args kwargs =
  (let '(a, k, _) := parse_args ts args kwargs in (a, k, sep :: rest)).
Proof.
  remember (length ts) as n eqn:Hn. revert ts Hn.
  induction (lt_wf n) as [n _ IH]. intros ts -> sep rest args kwargs Hts Hsep.
  assert (Hrec : forall ts0 a k, length ts0 < length ts ->
            Forall (fun t => is_argument (tok_type t) = true) ts0 ->
            parse_args (ts0 ++ sep :: rest) a k =
            (let '(a', k', _) := parse_args ts0 a k in (a', k', sep :: rest))).
  { intros ts0 a k Hlt H0. eapply IH; [exact Hlt | reflexivity | exact H0 | exact Hsep]. }
  destruct ts as [|cur ts1].
  { simpl. rewrite Hsep. reflexivity. }
  apply Forall_cons in Hts as [Hcur Hts1].
  change ((cur :: ts1) ++ sep :: rest) with (cur :: (ts1 ++ sep :: rest)).
  cbn [parse_args].
  destruct (tok_type cur) eqn:Ek; try discriminate Hcur; cbn [ends_command].
  - (* COMMAND *)
    destruct (Str.contains "=" (tok_value cur)).
    + destruct (Str.split_once "=" (tok_value cur)) as [k v].
      apply Hrec; [simpl; lia | exact Hts1].
    + apply Hrec; [simpl; lia | exact Hts1].
  - (* STRING *)
    destruct (Str.contains "=" (tok_value cur)).
    + destruct (Str.split_once "=" (tok_value cur)) as [k v].
      apply Hrec; [simpl; lia | exact Hts1].
    + apply Hrec; [simpl; lia | exact Hts1].
  - (* FLAG *)
    destruct (Str.contains "=" (Str.lstrip "-" (tok_value cur))).
    + destruct (Str.split_once "=" (Str.lstrip "-" (tok_value cur))) as [k v].
      apply Hrec; [simpl; lia | exact Hts1].
    + destruct ts1 as [|nxt ts2].
      * cbn [app]. assert (is_value (tok_type sep) = false) as ->.
        { destruct (tok_type sep); try discriminate Hsep; reflexivity. }
        apply (Hrec []); [simpl; lia | constructor].
      * change ((nxt :: ts2) ++ sep :: rest) with (nxt :: (ts2 ++ sep :: rest)).
        cbn iota. destruct (is_value (tok_type nxt)).
        -- apply Forall_cons in Hts1 as [_ Hts2].
           apply Hrec; [simpl; lia | exact Hts2].
        -- apply (Hrec (nxt :: ts2)); [simpl; lia | exact Hts1].
Qed.

Lemma parse_chain_command cmd arguments sep rest :
  tok_type cmd = COMMAND ->
  Forall (fun t => is_argument (tok_type t) = true) arguments ->
  ends_command (tok_type sep) = true ->
  parse_chain (cmd :: arguments ++ sep :: rest) =
  inr (chain_of cmd arguments, sep :: rest).
Proof.
  intros Hcmd Hargs Hsep. unfold parse_chain, parse_command, chain_of.
  cbn [current next_token].
  rewrite Hcmd, (parse_args_stop _ _ _ _ _ Hargs Hsep).
  destruct (parse_args arguments [] ∅) as [[a k] st]. reflexivity.
Qed.

(** A single command. *)
Lemma parse_one cmd arguments :
  tok_type cmd = COMMAND ->
  Forall (fun t => is_argument (tok_type t) = true) arguments ->
  parse (cmd :: arguments ++ [mkToken EOF EmptyString]) =
  Some (inr [chain_of cmd arguments]).
Proof.
  intros Hcmd Hargs. unfold parse, init.
  rewrite (parse_from_chain _ _ (chain_of cmd arguments) [mkToken EOF EmptyString]).
  - apply parse_from_eof. reflexivity.
  - cbn [current]. rewrite Hcmd. discriminate.
  - apply parse_chain_command; [assumption | assumption | reflexivity].
Qed.

(** Two commands with a separator token between them. *)
Lemma parse_two cmdA argsA sep cmdB argsB :
  tok_type cmdA = COMMAND ->
  Forall (fun t => is_argument (tok_type t) = true) argsA ->
  is_separator (tok_type sep) = true ->
  tok_type cmdB = COMMAND ->
  Forall (fun t => is_argument (tok_type t) = true) argsB ->
  parse (cmdA :: argsA ++ sep :: cmdB :: argsB ++ [mkToken EOF EmptyString]) =
  Some (inr [chain_of cmdA argsA; chain_of cmdB argsB]).
Proof.
  intros HcmdA HargsA Hsep HcmdB HargsB. unfold parse, init.
  rewrite (parse_from_chain _ _ (chain_of cmdA argsA)
             (sep :: cmdB :: argsB ++ [mkToken EOF EmptyString])).
  - unfold after_chain. cbn [current next_token]. rewrite Hsep.
    rewrite (parse_from_chain _ _ (chain_of cmdB argsB) [mkToken EOF EmptyString]).
    + apply parse_from_eof. reflexivity.
    + cbn [current]. rewrite HcmdB. discriminate.
    + apply parse_chain_command; [assumption | assumption | reflexivity].
  - cbn [current]. rewrite HcmdA. discriminate.
  - apply parse_chain_command; [assumption | assumption |].
    destruct (tok_type sep); try discriminate Hsep; reflexivity.
Qed.

End ParserFacts.
(* ===================================================================== *)
(** ** Facts about the executor *)
(* ===================================================================== *)

Module ExecutorFacts.
Import Executor ExecutorSpec.

Ltac run_monad :=
  unfold mbind, M_bind, mret, M_ret, bind, try_except, print, log, emit, ret, raise;
  cbn [fst snd app].

(** The first [try] block, for a name whose module is found. *)
Lemma plugin_of_Some w self cmd_dict c :
  plugin_of w self cmd_dict = Some c ->
  exists name members,
    ch_cmd cmd_dict = Some name /\
    modules w !! (commands_module self +:+ "." +:+ Str.lower (resolve_alias self name))
      = Some members /\
    find_command_class members = Some c.
Proof.
  unfold plugin_of. destruct (ch_cmd cmd_dict) as [name|]; [|discriminate].
  cbn. destruct (modules w !! _) as [members|] eqn:E; [|discriminate].
  cbn. intros H. eauto.
Qed.

(** A plugin that is found and not gated is invoked once, and the outcome
    of the invocation decides the status and the diagnostic. What the
    invocation raises is turned into [False] when it is an instance of
    [Exception], and leaves [execute_command] when it is not. *)
Lemma execute_command_invokes w self cmd_dict c :
  plugin_of w self cmd_dict = Some c ->
  gated w c = false ->
  execute_command w self cmd_dict =
  (invocation_events c cmd_dict ++
     match invocation c cmd_dict with
     | Returns v =>
         if ne_zero v then
           [Log "executor" ERROR (FailedWithExitCode (resolved_name self cmd_dict) v);
            Print (FailedWithExitCode (resolved_name self cmd_dict) v)]
         else []
     | Raises e =>
         if is_exception e then
           [Log "executor" ERROR (ErrorExecuting (resolved_name self cmd_dict) (exn_str e));
            Print (ErrorRunning (resolved_name self cmd_dict) (exn_str e))]
         else []
     end,
   match invocation c cmd_dict with
   | Returns v => Ret (negb (ne_zero v))
   | Raises e => if is_exception e then Ret false else Exc e
   end).
Proof.
  intros (name & members & Hname & Hmod & Hcls)%plugin_of_Some Hgate.
  unfold gated, is_fun in Hgate.
  unfold execute_command, resolved_name, invocation, invocation_events, lower,
    import_module, instantiate, call_execute.
  rewrite Hname. cbn [fmap option_fmap option_map]. run_monad.
  rewrite Hmod. run_monad. rewrite Hcls, Hgate. run_monad.
  destruct (cls_init c) as [e|].
  - destruct (is_exception e); [reflexivity | rewrite app_nil_r; reflexivity].
  - destruct (cls_execute c _ _) as [v|e].
    + destruct (ne_zero v); reflexivity.
    + destruct (is_exception e); [reflexivity | rewrite app_nil_r; reflexivity].
Qed.

(** A gated plugin is not invoked. *)
Lemma execute_command_gated w self cmd_dict c :
  plugin_of w self cmd_dict = Some c ->
  gated w c = true ->
  execute_command w self cmd_dict =
  ([Print FunCommandsDisabled; Log "executor" WARNING FunCommandAttempted], Ret true).
Proof.
  intros (name & members & Hname & Hmod & Hcls)%plugin_of_Some Hgate.
  unfold gated, is_fun in Hgate.
  unfold execute_command, lower, import_module.
  rewrite Hname. cbn [fmap option_fmap option_map]. run_monad.
  rewrite Hmod. run_monad. rewrite Hcls, Hgate. reflexivity.
Qed.

(** A name without a module raises the command-not-found error. *)
Lemma execute_command_no_module w self cmd_dict name :
  ch_cmd cmd_dict = Some name ->
  modules w !! (commands_module self +:+ "." +:+ Str.lower (resolve_alias self name)) = None ->
  (execute_command w self cmd_dict).2 =
  Exc (mkExn ModuleNotFoundError (CommandNotFound (Some (resolve_alias self name)))).
Proof.
  intros Hname Hmod. unfold execute_command, lower, import_module.
  rewrite Hname. cbn [fmap option_fmap option_map]. run_monad.
  rewrite Hmod. reflexivity.
Qed.

(** A module without a command class does not raise it: the call of
    [None] fails in the second [try] block and is reported as a failed
    run. *)
Lemma execute_command_no_class w self cmd_dict name members :
  ch_cmd cmd_dict = Some name ->
  modules w !! (commands_module self +:+ "." +:+ Str.lower (resolve_alias self name))
    = Some members ->
  find_command_class members = None ->
  execute_command w self cmd_dict =
  ([Log "executor" ERROR (ErrorExecuting (Some (resolve_alias self name)) NoneNotCallable);
    Print (ErrorRunning (Some (resolve_alias self name)) NoneNotCallable)],
   Ret false).
Proof.
  intros Hname Hmod Hcls. unfold execute_command, lower, import_module, instantiate.
  rewrite Hname. cbn [fmap option_fmap option_map]. run_monad.
  rewrite Hmod. run_monad. rewrite Hcls. reflexivity.
Qed.

(** *** The loop of [run] *)

Lemma run_loop_command w self ch chains start t b :
  is_command_chain ch ->
  execute_command w self ch = (t, Ret b) ->
  run_loop w self (ch :: chains) start =
  (t ++ (run_loop w self chains b).1, (run_loop w self chains b).2).
Proof.
  intros Hc He. cbn [run_loop]. unfold is_command_chain in Hc.
  destruct (decide _); [|contradiction].
  run_monad. rewrite He. destruct (run_loop w self chains b). reflexivity.
Qed.

Lemma run_loop_raises w self ch chains start t e :
  is_command_chain ch ->
  execute_command w self ch = (t, Exc e) ->
  run_loop w self (ch :: chains) start = (t, Exc e).
Proof.
  intros Hc He. cbn [run_loop]. unfold is_command_chain in Hc.
  destruct (decide _); [|contradiction].
  run_monad. rewrite He. reflexivity.
Qed.

Lemma run_loop_skip w self ch chains start :
  ~ is_command_chain ch ->
  run_loop w self (ch :: chains) start =
  (Print (UnsupportedChainType (default "COMMAND" (ch_type ch)))
     :: (run_loop w self chains start).1,
   (run_loop w self chains start).2).
Proof.
  intros Hc. cbn [run_loop]. unfold is_command_chain in Hc.
  destruct (decide _); [contradiction|].
  run_monad. destruct (run_loop w self chains start). reflexivity.
Qed.

Lemma chain_events_command w self ch :
  is_command_chain ch -> chain_events w self ch = (execute_command w self ch).1.
Proof. intros Hc. unfold chain_events. destruct (decide _); [reflexivity | contradiction]. Qed.

Lemma chain_events_skip w self ch :
  ~ is_command_chain ch ->
  chain_events w self ch = [Print (UnsupportedChainType (default "COMMAND" (ch_type ch)))].
Proof. intros Hc. unfold chain_events. destruct (decide _); [contradiction | reflexivity]. Qed.

Lemma status_after_command w self ch chains start b :
  is_command_chain ch -> status_of w self ch = Some b ->
  status_after w self start (ch :: chains) = status_after w self b chains.
Proof.
  intros Hc Hb. unfold status_after. rewrite filter_cons_True by exact Hc.
  rewrite last_cons. destruct (last (filter is_command_chain chains)); [reflexivity | exact Hb].
Qed.

Lemma status_after_skip w self ch chains start :
  ~ is_command_chain ch ->
  status_after w self start (ch :: chains) = status_after w self start chains.
Proof.
  intros Hc. unfold status_after. rewrite filter_cons_False by exact Hc. reflexivity.
Qed.

(** As long as no call raises, every chain is dealt with in order and
    the status is the one of the last chain executed. *)
Lemma run_loop_all w self chains : forall start,
  none_raises w self chains ->
  exists b,
    status_after w self start chains = Some b /\
    run_loop w self chains start = (concat (map (chain_events w self) chains), Ret b).
Proof.
  induction chains as [|ch chains IH]; intros start Hnr.
  - exists start. split; reflexivity.
  - apply Forall_cons in Hnr as [Hch Hnr].
    destruct (decide (is_command_chain ch)) as [Hc|Hc].
    + destruct (Hch Hc) as [b0 Hb0].
      destruct (execute_command w self ch) as [t r] eqn:He.
      unfold status_of in Hb0. rewrite He in Hb0. cbn in Hb0.
      destruct r as [b1|e]; [|discriminate]. injection Hb0 as ->.
      destruct (IH b0 Hnr) as (b & Hst & Hrun).
      exists b. split.
      * rewrite (status_after_command _ _ _ _ _ b0 Hc); [exact Hst|].
        unfold status_of. rewrite He. reflexivity.
      * rewrite (run_loop_command _ _ _ _ _ _ _ Hc He), Hrun. cbn [map concat fst snd].
        rewrite (chain_events_command _ _ _ Hc), He. reflexivity.
    + destruct (IH start Hnr) as (b & Hst & Hrun).
      exists b. split.
      * rewrite status_after_skip by exact Hc. exact Hst.
      * rewrite (run_loop_skip _ _ _ _ _ Hc), Hrun. cbn [map concat fst snd].
        rewrite (chain_events_skip _ _ _ Hc). reflexivity.
Qed.

(** The first call that raises ends the run: the error leaves [run] and
    the chains after it are not dealt with. *)
Lemma run_loop_stops w self before ch rest e : forall start,
  none_raises w self before ->
  is_command_chain ch ->
  (execute_command w self ch).2 = Exc e ->
  run_loop w self (before ++ ch :: rest) start =
  (concat (map (chain_events w self) (before ++ [ch])), Exc e).
Proof.
  induction before as [|c0 before IH]; intros start Hnr Hc He.
  - destruct (execute_command w self ch) as [t r] eqn:E. cbn in He. subst r.
    cbn [app]. rewrite (run_loop_raises _ _ _ _ _ _ _ Hc E).
    cbn [map concat]. rewrite (chain_events_command _ _ _ Hc), E.
    cbn [fst]. rewrite app_nil_r. reflexivity.
  - apply Forall_cons in Hnr as [Hc0 Hnr]. cbn [app map concat].
    destruct (decide (is_command_chain c0)) as [Hcc|Hcc].
    + destruct (Hc0 Hcc) as [b0 Hb0].
      destruct (execute_command w self c0) as [t r] eqn:E0.
      unfold status_of in Hb0. rewrite E0 in Hb0. cbn in Hb0.
      destruct r as [b1|e1]; [|discriminate].
      rewrite (run_loop_command _ _ _ _ _ _ _ Hcc E0), (IH b1 Hnr Hc He).
      rewrite (chain_events_command _ _ _ Hcc), E0. reflexivity.
    + rewrite (run_loop_skip _ _ _ _ _ Hcc), (IH start Hnr Hc He).
      rewrite (chain_events_skip _ _ _ Hcc). reflexivity.
Qed.

End ExecutorFacts.

(* ===================================================================== *)
(** ** The properties of the pipeline *)
(* ===================================================================== *)

Import Executor ExecutorSpec Samples.

(** *** Tokenizer and parser on given lines *)

(** X7: A line always comes out of tokenizer and parser as chains or as an
    error: neither loop runs into its bound. *)
Lemma parse_line_total line : exists r, parse_line line = Some r.
Proof.
  unfold parse_line.
  destruct (TokenizerFacts.tokenize_total line) as [[toks [e|]] ->]; [eauto|].
  destruct (ParserFacts.parse_total toks) as [[e|chains] ->]; eauto.
Qed.

(** C1: the line [cmd --opt=value pos1] does not get through the
    tokenizer. The flag pattern stops before the [=], no pattern but the
    catch-all matches the [=], and the line ends in the lexical error for
    the character [=] at position 9; no chain is built. *)
Theorem opt_equals_value_is_a_lexical_error :
  Tokenizer.tokenize "cmd --opt=value pos1" =
    Some ([mkToken COMMAND "cmd"; mkToken FLAG "--opt"],
          Some (Tokenizer.UnexpectedCharacter "=" 9)) /\
  parse_line "cmd --opt=value pos1" =
    Some (LexicalError (Tokenizer.UnexpectedCharacter "=" 9)).
Proof. split; vm_compute; reflexivity. Qed.

(** The parser does split a flag token at [=]: given the token the
    tokenizer cannot produce, it builds the chain of C1. *)
Lemma parser_splits_flag_at_equals :
  Parser.parse [mkToken COMMAND "cmd"; mkToken FLAG "--opt=value";
                mkToken COMMAND "pos1"; mkToken EOF EmptyString] =
  Some (inr [mkChain (Some "COMMAND") (Some "cmd") (Some ["pos1"])
               (Some (<["opt" := KwStr "value"]> ∅))]).
Proof. vm_compute. reflexivity. Qed.

(** The same arguments written so that the tokenizer accepts them. *)
Lemma quoted_key_value_is_parsed :
  parse_line "cmd 'opt=value' pos1" =
  Some (Parsed [mkChain (Some "COMMAND") (Some "cmd") (Some ["pos1"])
                  (Some (<["opt" := KwStr "value"]> ∅))]).
Proof. vm_compute. reflexivity. Qed.

(** C2, as the claim has it, fails: the Flag token of [echo hello --flag]
    does not have the literal [flag]. *)
Lemma flag_literal_is_not_stripped :
  Tokenizer.tokenize "echo hello --flag" <>
  Some ([mkToken COMMAND "echo"; mkToken COMMAND "hello";
         mkToken FLAG "flag"; mkToken EOF EmptyString], None).
Proof. vm_compute. discriminate. Qed.

(** C2, amended: tokenizing [echo hello --flag] yields exactly the four
    tokens Command "echo", Command "hello", Flag "--flag" and EndOfInput,
    none of them a Whitespace token. The tokenizer keeps the dashes of the
    flag; the parser strips them when it binds the named argument
    [flag]. *)
Theorem tokenize_echo_hello_flag :
  Tokenizer.tokenize "echo hello --flag" =
    Some ([mkToken COMMAND "echo"; mkToken COMMAND "hello";
           mkToken FLAG "--flag"; mkToken EOF EmptyString], None) /\
  parse_line "echo hello --flag" =
    Some (Parsed [mkChain (Some "COMMAND") (Some "echo") (Some ["hello"])
                    (Some (<["flag" := KwTrue]> ∅))]).
Proof. split; vm_compute; reflexivity. Qed.

(** *** Lexical errors *)

(** C8: when the loop of the tokenizer comes to a position of the text
    where no pattern but the catch-all matches, tokenization raises the
    lexical error that names the character at that position and the
    zero-based position itself. It stops there: what has been yielded is
    what was yielded before that position, and no EndOfInput token is
    among it. *)
Theorem mismatch_stops_tokenizer text pos s toks group rest :
  Tokenizer.scans text pos s toks ->
  Tokenizer.master_match s = Some (MISMATCH, group, rest) ->
  Tokenizer.tokenize text = Some (toks, Some (Tokenizer.UnexpectedCharacter group pos)) /\
  (exists c, group = String c EmptyString /\ String.get pos text = Some c) /\
  Forall (fun t => tok_type t <> EOF) toks.
Proof.
  intros Hscan Hmis. split; [|split].
  - rewrite (TokenizerFacts.scans_tokenize _ _ _ _ Hscan).
    rewrite (TokenizerFacts.tokenize_from_mismatch _ _ _ _ Hmis).
    cbn. unfold Tokenizer.after. cbn. rewrite app_nil_r. reflexivity.
  - destruct (TokenizerFacts.master_match_mismatch _ _ _ Hmis) as (c & -> & ->).
    destruct (TokenizerFacts.scans_prefix _ _ _ _ Hscan) as (pre & -> & <-).
    exists c. split; [reflexivity | apply TokenizerFacts.get_app].
  - exact (TokenizerFacts.scans_no_eof _ _ _ _ Hscan).
Qed.

Lemma mismatch_stops_tokenizer_witness :
  Tokenizer.scans "echo @" 5 "@" [mkToken COMMAND "echo"] /\
  Tokenizer.master_match "@" = Some (MISMATCH, "@", EmptyString) /\
  Tokenizer.tokenize "echo @" =
    Some ([mkToken COMMAND "echo"], Some (Tokenizer.UnexpectedCharacter "@" 5)).
Proof.
  assert (Hscan : Tokenizer.scans "echo @" 5 "@" [mkToken COMMAND "echo"]).
  { apply (Tokenizer.scans_skip "echo @" 4 " @" [mkToken COMMAND "echo"] " " "@");
      [|reflexivity].
    apply (Tokenizer.scans_yield "echo @" 0 "echo @" [] COMMAND "echo" " @");
      [apply Tokenizer.scans_start | reflexivity | discriminate | discriminate]. }
  split; [exact Hscan|]. split; [reflexivity|].
  exact (proj1 (mismatch_stops_tokenizer "echo @" 5 "@" [mkToken COMMAND "echo"]
                  "@" EmptyString Hscan eq_refl)).
Defined.

(** There is no other way to a lexical error: an error names a position
    the loop has come to and at which only the catch-all pattern matches. *)
Lemma lexical_error_is_a_mismatch text s : forall pos done toks group p,
  Tokenizer.scans text pos s done ->
  Tokenizer.tokenize_from pos s =
    Some (toks, Some (Tokenizer.UnexpectedCharacter group p)) ->
  exists s' rest,
    Tokenizer.scans text p s' (done ++ toks) /\
    Tokenizer.master_match s' = Some (MISMATCH, group, rest).
Proof.
  remember (String.length s) as n eqn:Hn. revert s Hn.
  induction (lt_wf n) as [n _ IH]. intros s -> pos done toks group p Hscan.
  destruct s as [|c s']; [discriminate|].
  destruct (TokenizerFacts.master_match_some c s') as (k & g & r & E).
  pose proof (TokenizerFacts.splits_length _ _ _
                (TokenizerFacts.master_match_splits _ _ _ _ E)) as [El Eg].
  destruct (decide (k = WHITESPACE)) as [->|Hw].
  { rewrite (TokenizerFacts.tokenize_from_skip _ _ _ _ E). intros H.
    eapply IH; [| reflexivity | | exact H]; [lia|].
    eapply Tokenizer.scans_skip; eassumption. }
  destruct (decide (k = MISMATCH)) as [->|Hm].
  { rewrite (TokenizerFacts.tokenize_from_mismatch _ _ _ _ E).
    intros [= <- <- <-]. rewrite app_nil_r. eauto. }
  rewrite (TokenizerFacts.tokenize_from_yield _ _ _ _ _ E Hw Hm).
  destruct (Tokenizer.tokenize_from (pos + String.length g) r) as [[ts e]|] eqn:Er;
    [|discriminate].
  intros [= <- ->].
  destruct (IH (String.length r) ltac:(lia) r eq_refl (pos + String.length g)
              (done ++ [Tokenizer.token_of k g]) ts group p) as (s1 & rest & Hs1 & Hm1).
  - eapply Tokenizer.scans_yield; eassumption.
  - exact Er.
  - exists s1, rest. rewrite <- List.app_assoc in Hs1. split; assumption.
Qed.

(** A character of a quoted string is matched by the string pattern: the
    loop does not come to its position, and there is no error. *)
Lemma quoted_character_is_no_error :
  Tokenizer.tokenize "'@'" =
  Some ([mkToken STRING "@"; mkToken EOF EmptyString], None).
Proof. vm_compute. reflexivity. Qed.

(** *** Chains have names *)

(** The tokenizer keeps what C9 relies on. *)
Lemma tokenize_command_nonempty text toks err :
  Tokenizer.tokenize text = Some (toks, err) ->
  Forall command_literal_nonempty toks.
Proof. apply TokenizerFacts.tokenize_from_command_nonempty. Qed.

Lemma parse_from_named st : forall chains result,
  Forall command_literal_nonempty st ->
  Forall named_command chains ->
  Parser.parse_from st chains = Some (inr result) ->
  Forall named_command result.
Proof.
  remember (length st) as n eqn:Hn. revert st Hn.
  induction (lt_wf n) as [n _ IH]. intros st -> chains result Hst Hch.
  destruct (decide (tok_type (Parser.current st) = EOF)) as [He|He].
  { rewrite ParserFacts.parse_from_eof by assumption. intros [= <-]. exact Hch. }
  destruct (Parser.parse_chain st) as [e|[ch st']] eqn:E.
  { rewrite (ParserFacts.parse_from_error _ _ _ He E). discriminate. }
  rewrite (ParserFacts.parse_from_chain _ _ _ _ He E).
  pose proof (ParserFacts.round_shrinks _ _ _ E) as Hlt.
  destruct (ParserFacts.parse_chain_inr _ _ _ E)
    as (cur & st1 & -> & Hk & Hty & Hcmd & Hsuf).
  apply Forall_cons in Hst as [Hcur Hst1].
  eapply IH; [exact Hlt | reflexivity | |].
  - destruct (ParserFacts.after_chain_suffix st') as [p1 Hp1].
    destruct Hsuf as [p2 Hp2]. rewrite Hp2, Hp1 in Hst1.
    apply Forall_app in Hst1 as [_ Hst1]. apply Forall_app in Hst1 as [_ Hst1].
    exact Hst1.
  - apply Forall_app. split; [exact Hch|]. constructor; [|constructor].
    split; [exact Hty|]. exists (tok_value cur). split; [exact Hcmd | exact (Hcur Hk)].
Qed.

(** C9: for every token sequence in which the literal of every Command
    token has at least one character (as it has in every sequence the
    tokenizer yields), if [parse] succeeds then every chain of the result
    is tagged "COMMAND" and has a non-empty command name. *)
Theorem parsed_chains_are_named_commands tokens chains :
  Forall command_literal_nonempty tokens ->
  Parser.parse tokens = Some (inr chains) ->
  Forall named_command chains.
Proof.
  intros Htok Hparse. eapply parse_from_named; [exact Htok | constructor | exact Hparse].
Qed.

Lemma parsed_chains_are_named_commands_witness :
  Forall command_literal_nonempty
    [mkToken COMMAND "echo"; mkToken STRING "hi"; mkToken SEMI ";";
     mkToken COMMAND "ls"; mkToken EOF EmptyString] /\
  Forall named_command
    [mkChain (Some "COMMAND") (Some "echo") (Some ["hi"]) (Some ∅);
     mkChain (Some "COMMAND") (Some "ls") (Some []) (Some ∅)].
Proof.
  assert (Htok : Forall command_literal_nonempty
    [mkToken COMMAND "echo"; mkToken STRING "hi"; mkToken SEMI ";";
     mkToken COMMAND "ls"; mkToken EOF EmptyString]).
  { repeat constructor; intros H; discriminate. }
  split; [exact Htok|].
  exact (parsed_chains_are_named_commands _ _ Htok eq_refl).
Defined.

(** Through the whole pipeline: every chain parsed from a line has a
    name. *)
Corollary parse_line_chains_are_named line chains :
  parse_line line = Some (Parsed chains) -> Forall named_command chains.
Proof.
  unfold parse_line.
  destruct (Tokenizer.tokenize line) as [[toks [e|]]|] eqn:Et; try discriminate.
  destruct (Parser.parse toks) as [[e|chs]|] eqn:Ep; try discriminate.
  intros [= <-]. eapply parse_from_named; [| constructor | exact Ep].
  eapply tokenize_command_nonempty, Et.
Qed.

(** *** Separators *)

(** C7: for well-formed command texts [A] and [B], the lines [A && B],
    [A ; B] and [A || B] all parse to the same two chains: the chain [A]
    parses to alone, then the chain [B] parses to alone. The chains carry
    no trace of the separator, and which separator it was makes no
    difference. *)
Theorem separators_are_interchangeable A B cmdA argsA cmdB argsB :
  well_formed_command A cmdA argsA ->
  well_formed_command B cmdB argsB ->
  parse_line A = Some (Parsed [Parser.chain_of cmdA argsA]) /\
  parse_line B = Some (Parsed [Parser.chain_of cmdB argsB]) /\
  parse_line (A +:+ " && " +:+ B) =
    Some (Parsed [Parser.chain_of cmdA argsA; Parser.chain_of cmdB argsB]) /\
  parse_line (A +:+ " ; " +:+ B) =
    Some (Parsed [Parser.chain_of cmdA argsA; Parser.chain_of cmdB argsB]) /\
  parse_line (A +:+ " || " +:+ B) =
    Some (Parsed [Parser.chain_of cmdA argsA; Parser.chain_of cmdB argsB]).
Proof.
  intros (HA & HcA & HargsA) (HB & HcB & HargsB).
  assert (Hjoin : forall sep k,
    (forall u, Tokenizer.master_match (sep +:+ String " " u) = Some (k, sep, String " " u)) ->
    Parser.is_separator k = true ->
    parse_line (A +:+ String " " (sep +:+ String " " B)) =
    Some (Parsed [Parser.chain_of cmdA argsA; Parser.chain_of cmdB argsB])).
  { intros sep k Hsep Hk. unfold parse_line.
    rewrite (TokenizerFacts.tokenize_joined A B sep k (cmdA :: argsA)
               (cmdB :: argsB ++ [mkToken EOF EmptyString]) Hsep
               ltac:(destruct k; discriminate) ltac:(destruct k; discriminate) HA HB).
    change ((cmdA :: argsA) ++ Tokenizer.token_of k sep
              :: cmdB :: argsB ++ [mkToken EOF EmptyString])
      with (cmdA :: argsA ++ Tokenizer.token_of k sep
              :: cmdB :: argsB ++ [mkToken EOF EmptyString]).
    rewrite ParserFacts.parse_two; try assumption; [reflexivity|].
    rewrite TokenizerFacts.token_of_type. exact Hk. }
  split; [|split; [|split; [|split]]].
  - unfold parse_line. rewrite HA, ParserFacts.parse_one by assumption. reflexivity.
  - unfold parse_line. rewrite HB, ParserFacts.parse_one by assumption. reflexivity.
  - apply (Hjoin "&&" AND); [intros u; reflexivity | reflexivity].
  - apply (Hjoin ";" SEMI); [intros u; reflexivity | reflexivity].
  - apply (Hjoin "||" OR); [intros u; reflexivity | reflexivity].
Qed.

Lemma separators_are_interchangeable_witness :
  well_formed_command "echo hi" (mkToken COMMAND "echo") [mkToken COMMAND "hi"] /\
  well_formed_command "ls -l" (mkToken COMMAND "ls") [mkToken FLAG "-l"] /\
  parse_line "echo hi && ls -l" =
    Some (Parsed [Parser.chain_of (mkToken COMMAND "echo") [mkToken COMMAND "hi"];
                  Parser.chain_of (mkToken COMMAND "ls") [mkToken FLAG "-l"]]) /\
  parse_line "echo hi ; ls -l" =
    Some (Parsed [Parser.chain_of (mkToken COMMAND "echo") [mkToken COMMAND "hi"];
                  Parser.chain_of (mkToken COMMAND "ls") [mkToken FLAG "-l"]]) /\
  parse_line "echo hi || ls -l" =
    Some (Parsed [Parser.chain_of (mkToken COMMAND "echo") [mkToken COMMAND "hi"];
                  Parser.chain_of (mkToken COMMAND "ls") [mkToken FLAG "-l"]]).
Proof.
  assert (HA : well_formed_command "echo hi" (mkToken COMMAND "echo") [mkToken COMMAND "hi"]).
  { split; [reflexivity|]. split; [reflexivity|]. repeat constructor. }
  assert (HB : well_formed_command "ls -l" (mkToken COMMAND "ls") [mkToken FLAG "-l"]).
  { split; [reflexivity|]. split; [reflexivity|]. repeat constructor. }
  split; [exact HA|]. split; [exact HB|].
  exact (proj2 (proj2 (separators_are_interchangeable _ _ _ _ _ _ HA HB))).
Defined.

(** *** Commands that are not found *)

(** A name without a module: the command-not-found error leaves
    [execute_command]. *)
Lemma unknown_module_raises :
  execute_command world_on (init fun_on) (invoke "nosuch") =
  ([Print (NoModuleNamed "commands.nosuch");
    Log "executor" ERROR (ErrorLoading (Some "nosuch") (NoModuleNamed "commands.nosuch"))],
   Exc (mkExn ModuleNotFoundError (CommandNotFound (Some "nosuch")))).
Proof. vm_compute. reflexivity. Qed.

(** C3 fails on the code: for the name [helper], whose module exists but
    holds no command class, no plugin is found, and yet [execute_command]
    raises nothing: it reports a failed run and returns [False]. *)
Theorem module_without_command_class_returns_false :
  plugin_of world_on (init fun_on) (invoke "helper") = None /\
  execute_command world_on (init fun_on) (invoke "helper") =
  ([Log "executor" ERROR (ErrorExecuting (Some "helper") NoneNotCallable);
    Print (ErrorRunning (Some "helper") NoneNotCallable)],
   Ret false).
Proof. split; vm_compute; reflexivity. Qed.

(** *** Exit codes and exceptions of a plugin *)


(** What [execute_command] does there: the instance is created, [execute]
    is called, nothing is printed or logged, and the interrupt is what
    the call ends with. *)
Lemma execute_command_interrupted :
  execute_command world_on (init fun_on) (invoke "interrupted") =
  ([Instantiate "Interrupted"; Execute "Interrupted" [] ∅],
   Exc (mkExn KeyboardInterrupt (Text EmptyString))).
Proof. vm_compute. reflexivity. Qed.



(** *** Fun commands *)

(** C6: for a plugin whose metadata marks it as a fun command, when the
    [fun_commands] flag is false, [execute_command] returns [True], prints
    the notice and logs the warning, and does not call the plugin's
    [execute]. *)
Theorem disabled_fun_command_is_skipped w self cmd_dict c :
  plugin_of w self cmd_dict = Some c ->
  is_fun c = true ->
  fun_commands (settings w) = VBool false ->
  execute_command w self cmd_dict =
    ([Print FunCommandsDisabled; Log "executor" WARNING FunCommandAttempted], Ret true) /\
  executions (execute_command w self cmd_dict).1 = 0.
Proof.
  intros Hfound Hfun Hflag.
  assert (Hgate : gated w c = true).
  { unfold gated. rewrite Hfun, Hflag. reflexivity. }
  rewrite (ExecutorFacts.execute_command_gated _ _ _ _ Hfound Hgate).
  split; reflexivity.
Qed.

Lemma disabled_fun_command_is_skipped_witness :
  plugin_of world_off (init fun_off) (invoke "prank") = Some Prank /\
  is_fun Prank = true /\
  fun_commands (settings world_off) = VBool false /\
  execute_command world_off (init fun_off) (invoke "prank") =
    ([Print FunCommandsDisabled; Log "executor" WARNING FunCommandAttempted], Ret true).
Proof.
  assert (Hfound : plugin_of world_off (init fun_off) (invoke "prank") = Some Prank)
    by (vm_compute; reflexivity).
  assert (Hflag : fun_commands (settings world_off) = VBool false)
    by (vm_compute; reflexivity).
  split; [exact Hfound|]. split; [reflexivity|]. split; [exact Hflag|].
  exact (proj1 (disabled_fun_command_is_skipped _ _ _ _ Hfound eq_refl Hflag)).
Defined.

(** *** Values other than zero *)

(** The values [result != 0] is false for: the integer 0 and what is
    equal to it, the boolean [False] and a floating-point zero. *)
Lemma ne_zero_false v :
  ne_zero v = false <->
  v = VInt 0 \/ v = VBool false \/ exists sign, v = VFloat (S754_zero sign).
Proof.
  split.
  - destruct v as [|[]|n|[sign|sign| |sign m e]|s]; cbn; try discriminate; eauto.
    intros H. apply negb_false_iff, Z.eqb_eq in H. subst. eauto.
  - intros [->|[->|[sign ->]]]; reflexivity.
Qed.

(** C10, as the claim has it, fails: a gated fun plugin makes
    [execute_command] return [True] although its [execute] is never
    called and would return the exit code 1. *)
Lemma gated_plugin_returns_true_without_running :
  ~ (forall w self cmd_dict c,
       plugin_of w self cmd_dict = Some c ->
       (execute_command w self cmd_dict).2 = Ret true ->
       executions (execute_command w self cmd_dict).1 = 1 /\
       exists v, invocation c cmd_dict = Returns v /\ ne_zero v = false).
Proof.
  intros H.
  destruct (H world_off (init fun_off) (invoke "prank") Prank) as [Hex _].
  - vm_compute. reflexivity.
  - vm_compute. reflexivity.
  - vm_compute in Hex. discriminate Hex.
Qed.

(** C10, amended: when the plugin is found and not feature-gated,
    [execute_command] returns [True] only when the plugin's [execute] has
    been called, has returned, and the value it returned is equal to 0;
    for every other value it returns, [None] and values that are not
    integers among them, [execute_command] returns [False] and prints the
    failure message with that value. *)
Theorem ungated_true_only_on_zero w self cmd_dict c :
  plugin_of w self cmd_dict = Some c ->
  gated w c = false ->
  ((execute_command w self cmd_dict).2 = Ret true ->
     executions (execute_command w self cmd_dict).1 = 1 /\
     exists v, invocation c cmd_dict = Returns v /\ ne_zero v = false) /\
  (forall v, invocation c cmd_dict = Returns v -> ne_zero v = true ->
     (execute_command w self cmd_dict).2 = Ret false /\
     printed (execute_command w self cmd_dict).1 =
       [FailedWithExitCode (resolved_name self cmd_dict) v]) /\
  ne_zero VNone = true /\ (forall s, ne_zero (VStr s) = true).
Proof.
  intros Hfound Hgate.
  rewrite (ExecutorFacts.execute_command_invokes _ _ _ _ Hfound Hgate).
  unfold invocation, invocation_events.
  split; [|split; [|split; [reflexivity | intros s; reflexivity]]].
  - destruct (cls_init c) as [e|]; [destruct (is_exception e); discriminate|].
    destruct (cls_execute c _ _) as [v|e]; [|destruct (is_exception e); discriminate].
    cbn [fst snd]. destruct (ne_zero v) eqn:Hv; [discriminate|].
    intros _. split; [reflexivity | eauto].
  - intros v Hv Hne. destruct (cls_init c) as [e|]; [discriminate|].
    rewrite Hv, Hne. split; reflexivity.
Qed.

Lemma ungated_true_only_on_zero_witness :
  plugin_of world_on (init fun_on) (invoke "prank") = Some Prank /\
  gated world_on Prank = false /\
  (execute_command world_on (init fun_on) (invoke "prank")).2 = Ret false.
Proof.
  assert (Hfound : plugin_of world_on (init fun_on) (invoke "prank") = Some Prank)
    by (vm_compute; reflexivity).
  assert (Hgate : gated world_on Prank = false) by (vm_compute; reflexivity).
  split; [exact Hfound|]. split; [exact Hgate|].
  exact (proj1 (proj1 (proj2 (ungated_true_only_on_zero _ _ _ _ Hfound Hgate))
                  (VInt 1) eq_refl eq_refl)).
Defined.

(** *** Running a sequence of chains *)

(** C5, as the claim has it, fails: when the command of a chain is not
    found, [run] returns no status and the chains after it are not
    executed. *)
Lemma run_stops_at_unknown_command :
  ~ (forall w self chains,
       exists b,
         last_status w self chains = Some b /\
         run w self chains = (concat (map (chain_events w self) chains), Ret b)).
Proof.
  intros H.
  destruct (H world_on (init fun_on) [invoke "nosuch"; invoke "echo"]) as (b & _ & Hrun).
  vm_compute in Hrun. discriminate Hrun.
Qed.

(** What [run] does there: the error of the first chain leaves it, and
    [echo] is never executed. *)
Lemma run_unknown_then_echo :
  run world_on (init fun_on) [invoke "nosuch"; invoke "echo"] =
  ([Print (NoModuleNamed "commands.nosuch");
    Log "executor" ERROR (ErrorLoading (Some "nosuch") (NoModuleNamed "commands.nosuch"))],
   Exc (mkExn ModuleNotFoundError (CommandNotFound (Some "nosuch")))).
Proof. vm_compute. reflexivity. Qed.

(** C5, amended: for every chain sequence on which no call of
    [execute_command] raises, [run] executes every "COMMAND"-tagged chain
    in the order of the sequence, whatever status the chains before it had,
    skips every other chain with a diagnostic and without a change of the
    status, and returns the status of the last chain executed; on the empty
    sequence it returns [True]. *)
Theorem run_executes_every_chain w self chains :
  none_raises w self chains ->
  (exists b,
     last_status w self chains = Some b /\
     run w self chains = (concat (map (chain_events w self) chains), Ret b)) /\
  run w self [] = ([], Ret true).
Proof.
  intros Hnr. split; [|reflexivity].
  exact (ExecutorFacts.run_loop_all w self chains true Hnr).
Qed.

Lemma run_executes_every_chain_witness :
  none_raises world_off (init fun_off)
    [invoke "fails"; mkChain (Some "PIPE") (Some "echo") None None; invoke "echo"] /\
  run world_off (init fun_off)
    [invoke "fails"; mkChain (Some "PIPE") (Some "echo") None None; invoke "echo"] =
  ([Instantiate "Fails"; Execute "Fails" [] ∅;
    Log "executor" ERROR (FailedWithExitCode (Some "fails") (VInt 2));
    Print (FailedWithExitCode (Some "fails") (VInt 2));
    Print (UnsupportedChainType "PIPE");
    Instantiate "Echo"; Execute "Echo" [] ∅],
   Ret true).
Proof.
  assert (Hnr : none_raises world_off (init fun_off)
    [invoke "fails"; mkChain (Some "PIPE") (Some "echo") None None; invoke "echo"]).
  { repeat constructor; intros _; vm_compute; eauto. }
  split; [exact Hnr|].
  destruct (proj1 (run_executes_every_chain _ _ _ Hnr)) as (b & Hb & Hrun).
  rewrite Hrun. vm_compute in Hb. injection Hb as <-. vm_compute. reflexivity.
Defined.

(** X22: When a call raises, [run] ends with it: if the chains before a
    command chain all return and [execute_command] raises on that chain,
    [run] raises the same exception, its events are those of the chains
    up to and including that one, and the chains after it are not looked
    at. *)
Lemma run_stops_at_first_error w self before ch rest e :
  none_raises w self before ->
  is_command_chain ch ->
  (execute_command w self ch).2 = Exc e ->
  run w self (before ++ ch :: rest) =
  (concat (map (chain_events w self) (before ++ [ch])), Exc e).
Proof. apply ExecutorFacts.run_loop_stops. Qed.


(* ===================================================================== *)
(** ** Further properties of the tokenizer *)
(* ===================================================================== *)

Module LinesFacts.
Import Tokenizer StrFacts TokenizerFacts.

Lemma span_all p s : Lines.all p s = true -> Str.span p s = (s, EmptyString).
Proof.
  induction s as [|c s IH]; [reflexivity|]. simpl.
  intros [Hc Hs]%andb_true_iff. rewrite Hc, (IH Hs). reflexivity.
Qed.

Lemma span_run_all p s run rest : Str.span p s = (run, rest) -> Lines.all p run = true.
Proof.
  revert run rest. induction s as [|c s IH]; intros run rest; simpl.
  - intros [= <- <-]. reflexivity.
  - destruct (p c) eqn:Hc.
    + destruct (Str.span p s) as [run' rest'] eqn:E. intros [= <- <-].
      simpl. rewrite Hc. exact (IH _ _ eq_refl).
    + intros [= <- <-]. reflexivity.
Qed.

Lemma all_app p s t : Lines.all p (s +:+ t) = Lines.all p s && Lines.all p t.
Proof.
  induction s as [|c s IH]; [reflexivity|].
  rewrite app_cons. simpl. rewrite IH, andb_assoc. reflexivity.
Qed.

Lemma all_impl (p q : ascii -> bool) s :
  (forall c, p c = true -> q c = true) -> Lines.all p s = true -> Lines.all q s = true.
Proof.
  intros Hpq. induction s as [|c s IH]; [reflexivity|]. simpl.
  intros [Hc Hs]%andb_true_iff. rewrite (Hpq _ Hc), (IH Hs). reflexivity.
Qed.

Lemma all_not_contains p c s :
  p c = false -> Lines.all p s = true -> Str.contains c s = false.
Proof.
  intros Hc. induction s as [|a s IH]; [reflexivity|]. simpl.
  intros [Ha Hs]%andb_true_iff. rewrite (IH Hs), orb_false_r.
  destruct (Ascii.eqb_spec a c) as [->|]; [congruence | reflexivity].
Qed.

(** Which pattern it was that matched. *)
Lemma master_match_inv s k g r :
  master_match s = Some (k, g, r) ->
  match k with
  | WHITESPACE => re_plus Chars.is_space s = Some (g, r)
  | AND => re_literal "&&" s = Some (g, r)
  | OR => re_literal "||" s = Some (g, r)
  | SEMI => re_literal ";" s = Some (g, r)
  | FLAG => re_flag s = Some (g, r)
  | STRING => re_quoted "034" s = Some (g, r) \/ re_quoted "'" s = Some (g, r)
  | COMMAND => re_plus Chars.is_command_char s = Some (g, r)
  | MISMATCH => re_dot s = Some (g, r)
  | EOF => False
  end.
Proof.
  unfold master_match, patterns. cbn [first_match].
  repeat match goal with
  | |- context [match ?p s with _ => _ end] =>
      let E := fresh "E" in
      destruct (p s) as [[? ?]|] eqn:E; [intros [= <- <- <-]; auto|]
  end.
  discriminate.
Qed.

Lemma master_match_content s k g r :
  master_match s = Some (k, g, r) ->
  k <> WHITESPACE -> k <> MISMATCH -> Lines.is_content k = true.
Proof.
  intros H Hw Hm. apply master_match_inv in H.
  destruct k; try reflexivity; try contradiction; congruence.
Qed.

Lemma re_plus_all p s g r : re_plus p s = Some (g, r) -> Lines.all p g = true.
Proof.
  unfold re_plus. destruct (Str.span p s) as [run rest] eqn:E.
  destruct run; [discriminate|]. intros [= <- <-]. exact (span_run_all _ _ _ _ E).
Qed.

Lemma re_flag_chars s g r :
  re_flag s = Some (g, r) ->
  Lines.all (fun c => Chars.is_word c || Ascii.eqb c "-") g = true.
Proof.
  unfold re_flag. destruct s as [|c s1]; [discriminate|].
  destruct (Ascii.eqb c "-"); [|discriminate].
  assert (Hw : forall s2 w rest, re_plus Chars.is_word s2 = Some (w, rest) ->
            Lines.all (fun c => Chars.is_word c || Ascii.eqb c "-") w = true).
  { intros s2 w rest H. apply re_plus_all in H.
    eapply all_impl; [|exact H]. intros a ->. reflexivity. }
  destruct s1 as [|d s2].
  - discriminate.
  - destruct (Ascii.eqb d "-").
    + destruct (re_plus Chars.is_word s2) as [[w rest]|] eqn:E; [|discriminate].
      intros [= <- <-]. rewrite all_app, (Hw _ _ _ E). reflexivity.
    + destruct (re_plus Chars.is_word (String d s2)) as [[w rest]|] eqn:E; [|discriminate].
      intros [= <- <-]. rewrite all_app, (Hw _ _ _ E). reflexivity.
Qed.

End LinesFacts.

Lemma tokenize_from_content s : forall pos toks err,
  Tokenizer.tokenize_from pos s = Some (toks, err) ->
  exists ts,
    Forall (fun t => Lines.is_content (tok_type t) = true) ts /\
    toks = ts ++ match err with
                 | None => [mkToken EOF EmptyString]
                 | Some _ => []
                 end.
Proof.
  remember (String.length s) as n eqn:Hn. revert s Hn.
  induction (lt_wf n) as [n _ IH]. intros s -> pos toks err.
  destruct s as [|c s'].
  { intros [= <- <-]. exists []. split; [constructor | reflexivity]. }
  destruct (TokenizerFacts.master_match_some c s') as (k & g & r & E).
  pose proof (TokenizerFacts.splits_length _ _ _
                (TokenizerFacts.master_match_splits _ _ _ _ E)) as [El Eg].
  destruct (decide (k = WHITESPACE)) as [->|Hw].
  { rewrite (TokenizerFacts.tokenize_from_skip _ _ _ _ E).
    eapply IH; [|reflexivity]. lia. }
  destruct (decide (k = MISMATCH)) as [->|Hm].
  { rewrite (TokenizerFacts.tokenize_from_mismatch _ _ _ _ E).
    intros [= <- <-]. exists []. split; [constructor | reflexivity]. }
  rewrite (TokenizerFacts.tokenize_from_yield _ _ _ _ _ E Hw Hm).
  destruct (Tokenizer.tokenize_from (pos + String.length g) r) as [[ts e]|] eqn:Er;
    [|discriminate].
  intros [= <- <-].
  destruct (IH (String.length r) ltac:(lia) r eq_refl _ _ _ Er) as (ts' & Hts' & ->).
  exists (Tokenizer.token_of k g :: ts'). split; [|reflexivity].
  constructor; [|exact Hts'].
  rewrite TokenizerFacts.token_of_type. exact (LinesFacts.master_match_content _ _ _ _ E Hw Hm).
Qed.

(** X1: Whatever the text, the tokens the tokenizer yields are Command,
    String, Flag, And, Or and Semicolon tokens only, followed by exactly
    one EndOfInput token when the run ends without an error and by nothing
    when it ends with one. No Whitespace and no Mismatch token is ever
    yielded, and no EndOfInput token before the end. *)
Theorem tokens_are_content_then_eof text toks err :
  Tokenizer.tokenize text = Some (toks, err) ->
  exists ts,
    Forall (fun t => Lines.is_content (tok_type t) = true) ts /\
    toks = ts ++ match err with
                 | None => [mkToken EOF EmptyString]
                 | Some _ => []
                 end.
Proof. apply tokenize_from_content. Qed.

Lemma tokens_are_content_then_eof_witness :
  Tokenizer.tokenize "ls -l ; echo 'a b'" =
    Some ([mkToken COMMAND "ls"; mkToken FLAG "-l"; mkToken SEMI ";";
           mkToken COMMAND "echo"; mkToken STRING "a b"; mkToken EOF EmptyString], None) /\
  exists ts,
    Forall (fun t => Lines.is_content (tok_type t) = true) ts /\
    [mkToken COMMAND "ls"; mkToken FLAG "-l"; mkToken SEMI ";";
     mkToken COMMAND "echo"; mkToken STRING "a b"; mkToken EOF EmptyString] =
    ts ++ [mkToken EOF EmptyString].
Proof.
  split; [reflexivity|].
  exact (tokens_are_content_then_eof "ls -l ; echo 'a b'" _ None eq_refl).
Defined.

Lemma tokenize_from_no_equals s : forall pos toks err,
  Tokenizer.tokenize_from pos s = Some (toks, err) ->
  Forall (fun t => tok_type t = FLAG \/ tok_type t = COMMAND ->
                   Str.contains "=" (tok_value t) = false) toks.
Proof.
  remember (String.length s) as n eqn:Hn. revert s Hn.
  induction (lt_wf n) as [n _ IH]. intros s -> pos toks err.
  destruct s as [|c s'].
  { intros [= <- <-]. constructor; [|constructor]. intros [H|H]; discriminate H. }
  destruct (TokenizerFacts.master_match_some c s') as (k & g & r & E).
  pose proof (TokenizerFacts.splits_length _ _ _
                (TokenizerFacts.master_match_splits _ _ _ _ E)) as [El Eg].
  destruct (decide (k = WHITESPACE)) as [->|Hw].
  { rewrite (TokenizerFacts.tokenize_from_skip _ _ _ _ E).
    eapply IH; [|reflexivity]. lia. }
  destruct (decide (k = MISMATCH)) as [->|Hm].
  { rewrite (TokenizerFacts.tokenize_from_mismatch _ _ _ _ E).
    intros [= <- <-]. constructor. }
  rewrite (TokenizerFacts.tokenize_from_yield _ _ _ _ _ E Hw Hm).
  destruct (Tokenizer.tokenize_from (pos + String.length g) r) as [[ts e]|] eqn:Er;
    [|discriminate].
  intros [= <- <-]. constructor; [|eapply IH; [|reflexivity|exact Er]; lia].
  rewrite TokenizerFacts.token_of_type. pose proof (LinesFacts.master_match_inv _ _ _ _ E) as Hp.
  intros [->| ->]; cbn [Tokenizer.token_of tok_value].
  - eapply LinesFacts.all_not_contains; [|exact (LinesFacts.re_flag_chars _ _ _ Hp)].
    reflexivity.
  - eapply LinesFacts.all_not_contains; [|exact (LinesFacts.re_plus_all _ _ _ _ Hp)].
    reflexivity.
Qed.

(** X2: No Flag token and no Command token the tokenizer yields has an [=] in
    its literal: the branch of the parser that splits a flag at [=] is
    never taken on a line, and a named argument written [key=value] can
    only come from a quoted string. *)
Theorem flags_and_words_hold_no_equals text toks err :
  Tokenizer.tokenize text = Some (toks, err) ->
  Forall (fun t => tok_type t = FLAG \/ tok_type t = COMMAND ->
                   Str.contains "=" (tok_value t) = false) toks.
Proof. apply tokenize_from_no_equals. Qed.

Lemma flags_and_words_hold_no_equals_witness :
  Tokenizer.tokenize "run --mode 'k=v'" =
    Some ([mkToken COMMAND "run"; mkToken FLAG "--mode"; mkToken STRING "k=v";
           mkToken EOF EmptyString], None) /\
  Forall (fun t => tok_type t = FLAG \/ tok_type t = COMMAND ->
                   Str.contains "=" (tok_value t) = false)
    [mkToken COMMAND "run"; mkToken FLAG "--mode"; mkToken STRING "k=v";
     mkToken EOF EmptyString].
Proof.
  split; [reflexivity|].
  exact (flags_and_words_hold_no_equals "run --mode 'k=v'" _ None eq_refl).
Defined.

(** X3: Every lexical error comes about in the one way: the error names a
    position the loop has come to, the tokens yielded are the ones yielded
    on the way there, only the catch-all pattern matches at that position,
    and the character named is the character of the text at it. *)
Theorem lexical_error_names_a_mismatch text toks group p :
  Tokenizer.tokenize text = Some (toks, Some (Tokenizer.UnexpectedCharacter group p)) ->
  exists s rest c,
    Tokenizer.scans text p s toks /\
    Tokenizer.master_match s = Some (MISMATCH, group, rest) /\
    group = String c EmptyString /\
    String.get p text = Some c.
Proof.
  intros H.
  destruct (lexical_error_is_a_mismatch text text 0 [] toks group p
              (Tokenizer.scans_start text) H) as (s & rest & Hscan & Hm).
  cbn [app] in Hscan.
  destruct (TokenizerFacts.master_match_mismatch _ _ _ Hm) as (c & -> & ->).
  destruct (TokenizerFacts.scans_prefix _ _ _ _ Hscan) as (pre & -> & <-).
  exists (String c rest), rest, c. repeat split; try assumption.
  apply TokenizerFacts.get_app.
Qed.

Lemma lexical_error_names_a_mismatch_witness :
  Tokenizer.tokenize "ls | wc" =
    Some ([mkToken COMMAND "ls"], Some (Tokenizer.UnexpectedCharacter "|" 3)) /\
  exists s rest c,
    Tokenizer.scans "ls | wc" 3 s [mkToken COMMAND "ls"] /\
    Tokenizer.master_match s = Some (MISMATCH, "|", rest) /\
    "|" = String c EmptyString /\
    String.get 3 "ls | wc" = Some c.
Proof.
  split; [reflexivity|].
  exact (lexical_error_names_a_mismatch "ls | wc" _ "|" 3 eq_refl).
Defined.

Lemma shifted_yield d t r :
  Lines.shifted d (Tokenizer.yield t r) = Tokenizer.yield t (Lines.shifted d r).
Proof. destruct r as [ts [e|]]; reflexivity. Qed.

(** Starting the loop [d] positions further on moves the position of the
    error, and nothing else. *)
Lemma tokenize_from_shifted d s : forall pos,
  Tokenizer.tokenize_from (pos + d) s = Lines.shifted d <$> Tokenizer.tokenize_from pos s.
Proof.
  remember (String.length s) as n eqn:Hn. revert s Hn.
  induction (lt_wf n) as [n _ IH]. intros s -> pos.
  destruct s as [|c s']; [reflexivity|].
  destruct (TokenizerFacts.master_match_some c s') as (k & g & r & E).
  pose proof (TokenizerFacts.splits_length _ _ _
                (TokenizerFacts.master_match_splits _ _ _ _ E)) as [El Eg].
  assert (Hpos : pos + d + String.length g = pos + String.length g + d) by lia.
  destruct (decide (k = WHITESPACE)) as [->|Hw].
  { rewrite !(TokenizerFacts.tokenize_from_skip _ _ _ _ E), Hpos.
    eapply IH; [|reflexivity]. lia. }
  destruct (decide (k = MISMATCH)) as [->|Hm].
  { rewrite !(TokenizerFacts.tokenize_from_mismatch _ _ _ _ E). reflexivity. }
  rewrite !(TokenizerFacts.tokenize_from_yield _ _ _ _ _ E Hw Hm), Hpos.
  rewrite (IH (String.length r) ltac:(lia) r eq_refl).
  destruct (Tokenizer.tokenize_from (pos + String.length g) r) as [res|]; [|reflexivity].
  cbn. rewrite shifted_yield. reflexivity.
Qed.

Lemma tokenize_leading_space g s :
  Lines.all Chars.is_space g = true ->
  Tokenizer.tokenize (g +:+ s) = Lines.shifted (String.length g) <$> Tokenizer.tokenize s.
Proof.
  intros Hg. unfold Tokenizer.tokenize.
  rewrite (TokenizerFacts.tokenize_from_spaces g s 0 (LinesFacts.span_all _ _ Hg)).
  apply (tokenize_from_shifted (String.length g) s 0).
Qed.

(** X4: White space in front of a text changes nothing but the position a
    lexical error names, which moves by the length of the white space. *)
Theorem leading_space_shifts_error_only g s :
  Lines.all Chars.is_space g = true ->
  Tokenizer.tokenize (g +:+ s) = Lines.shifted (String.length g) <$> Tokenizer.tokenize s.
Proof. apply tokenize_leading_space. Qed.

Lemma leading_space_shifts_error_only_witness :
  Lines.all Chars.is_space "   " = true /\
  Tokenizer.tokenize "   a @" =
    Some ([mkToken COMMAND "a"], Some (Tokenizer.UnexpectedCharacter "@" 5)).
Proof.
  split; [reflexivity|].
  exact (leading_space_shifts_error_only "   " "a @" eq_refl).
Defined.

(** X5: White space around a text that is tokenized without an error does not
    change its tokens. *)
Theorem surrounding_space_is_ignored g1 g2 s toks :
  Lines.all Chars.is_space g1 = true ->
  Lines.all Chars.is_space g2 = true ->
  Tokenizer.tokenize s = Some (toks, None) ->
  Tokenizer.tokenize (g1 +:+ s +:+ g2) = Some (toks, None).
Proof.
  intros H1 H2 Hs.
  rewrite (tokenize_leading_space g1 (s +:+ g2) H1).
  assert (Tokenizer.tokenize (s +:+ g2) = Some (toks, None)) as ->; [|reflexivity].
  destruct g2 as [|w t]; [rewrite StrFacts.app_empty_r; exact Hs|].
  simpl in H2. apply andb_true_iff in H2 as [Hw Ht].
  unfold Tokenizer.tokenize in *.
  destruct (TokenizerFacts.tokenize_from_ends _ _ _ Hs) as [ts ->].
  rewrite (TokenizerFacts.tokenize_from_app s 0 ts w t Hs Hw).
  assert (Hall : Lines.all Chars.is_space (String w t) = true)
    by (simpl; rewrite Hw, Ht; reflexivity).
  rewrite <- (StrFacts.app_empty_r (String w t)).
  rewrite (TokenizerFacts.tokenize_from_spaces _ EmptyString _ (LinesFacts.span_all _ _ Hall)).
  reflexivity.
Qed.

Lemma surrounding_space_is_ignored_witness :
  Lines.all Chars.is_space "  " = true /\
  Lines.all Chars.is_space " " = true /\
  Tokenizer.tokenize "ls -l" =
    Some ([mkToken COMMAND "ls"; mkToken FLAG "-l"; mkToken EOF EmptyString], None) /\
  Tokenizer.tokenize "  ls -l " =
    Some ([mkToken COMMAND "ls"; mkToken FLAG "-l"; mkToken EOF EmptyString], None).
Proof.
  split; [reflexivity|]. split; [reflexivity|]. split; [reflexivity|].
  exact (surrounding_space_is_ignored "  " " " "ls -l" _ eq_refl eq_refl eq_refl).
Defined.

(* ===================================================================== *)
(** ** Lines of words, flags and quoted strings *)
(* ===================================================================== *)

Module WordFacts.
Import Tokenizer StrFacts TokenizerFacts.

Lemma command_char_is_no_other c :
  Chars.is_command_char c = true ->
  Chars.is_space c = false /\ Ascii.eqb "&" c = false /\ Ascii.eqb "|" c = false /\
  Ascii.eqb ";" c = false /\ Ascii.eqb c "034" = false /\ Ascii.eqb c "'" = false /\
  Ascii.eqb c "=" = false.
Proof.
  destruct c as [[] [] [] [] [] [] [] []]; vm_compute; intros H;
    try discriminate H; repeat split.
Qed.

Lemma word_char_is_no_dash c :
  Chars.is_word c = true ->
  Ascii.eqb c "-" = false /\ Ascii.eqb c "=" = false.
Proof.
  destruct c as [[] [] [] [] [] [] [] []]; vm_compute; intros H;
    try discriminate H; repeat split.
Qed.

Lemma re_plus_whole p c s :
  Lines.all p (String c s) = true ->
  re_plus p (String c s) = Some (String c s, EmptyString).
Proof. intros H. unfold re_plus. rewrite (LinesFacts.span_all _ _ H). reflexivity. Qed.

(** A plain word is matched whole by the COMMAND pattern. *)
Lemma master_match_plain_word w :
  Lines.is_plain_word w = true -> master_match w = Some (COMMAND, w, EmptyString).
Proof.
  destruct w as [|c w']; [discriminate|]. unfold Lines.is_plain_word.
  intros [Hd Hall]%andb_true_iff. apply negb_true_iff in Hd.
  pose proof Hall as Hc. simpl in Hc. apply andb_true_iff in Hc as [Hc _].
  destruct (command_char_is_no_other c Hc) as (Hs & Ha & Ho & Hsm & Hdq & Hsq & _).
  unfold master_match, patterns. cbn [first_match].
  unfold re_plus at 1. cbn [Str.span]. rewrite Hs.
  unfold re_literal. cbn [Str.strip_prefix]. rewrite Ha, Ho, Hsm.
  unfold re_flag. rewrite Hd.
  unfold re_quoted. rewrite Hdq, Hsq.
  rewrite (re_plus_whole _ _ _ Hall). reflexivity.
Qed.

Lemma plain_word_no_equals w :
  Lines.is_plain_word w = true -> Str.contains "=" w = false.
Proof.
  destruct w as [|c w']; [discriminate|]. unfold Lines.is_plain_word.
  intros [_ Hall]%andb_true_iff.
  eapply LinesFacts.all_not_contains; [|exact Hall]. reflexivity.
Qed.

(** A flag name after two dashes is matched whole by the FLAG pattern. *)
Lemma master_match_flag n :
  Lines.is_flag_name n = true ->
  master_match ("--" +:+ n) = Some (FLAG, "--" +:+ n, EmptyString).
Proof.
  destruct n as [|c n']; [discriminate|]. unfold Lines.is_flag_name. intros Hall.
  unfold master_match, patterns. cbn [first_match].
  change ("--" +:+ String c n') with (String "-" (String "-" (String c n'))).
  unfold re_plus at 1. cbn [Str.span].
  change (Chars.is_space "-") with false. cbn iota.
  unfold re_literal. cbn [Str.strip_prefix].
  change (Ascii.eqb "&" "-") with false. change (Ascii.eqb "|" "-") with false.
  change (Ascii.eqb ";" "-") with false. cbn iota.
  unfold re_flag. change (Ascii.eqb "-" "-") with true. cbn iota.
  rewrite (re_plus_whole _ _ _ Hall). reflexivity.
Qed.

Lemma flag_name_stripped n :
  Lines.is_flag_name n = true ->
  Str.lstrip "-" ("--" +:+ n) = n /\ Str.contains "=" n = false.
Proof.
  destruct n as [|c n']; [discriminate|]. unfold Lines.is_flag_name. intros Hall.
  pose proof Hall as Hc. simpl in Hc. apply andb_true_iff in Hc as [Hc _].
  destruct (word_char_is_no_dash c Hc) as [Hd _].
  split.
  - change ("--" +:+ String c n') with (String "-" (String "-" (String c n'))).
    cbn [Str.lstrip]. change (Ascii.eqb "-" "-") with true. cbn iota.
    rewrite Hd. reflexivity.
  - eapply LinesFacts.all_not_contains; [|exact Hall]. reflexivity.
Qed.

(** A body without quote and backslash, with its closing quote. *)
Lemma re_quoted_body_plain q body rest :
  Lines.is_plain_body q body = true ->
  re_quoted_body q (body +:+ String q rest) = Some (body +:+ String q EmptyString, rest).
Proof.
  unfold Lines.is_plain_body. induction body as [|c body IH].
  - intros _. rewrite !app_empty_l. cbn. rewrite Ascii.eqb_refl. reflexivity.
  - cbn [Lines.all]. intros [[Hq Hb]%andb_true_iff Hall]%andb_true_iff.
    apply negb_true_iff in Hq, Hb. rewrite !app_cons. cbn [re_quoted_body].
    rewrite Hq, Hb, (IH Hall). reflexivity.
Qed.

Lemma drop_last_snoc s c : Str.drop_last (s +:+ String c EmptyString) = s.
Proof.
  induction s as [|a s IH]; [reflexivity|].
  rewrite app_cons. cbn [Str.drop_last]. rewrite IH.
  destruct s; reflexivity.
Qed.

(** Texts that are matched whole, one after the other with a blank
    between them, are tokenized into their tokens. *)
Lemma tokenize_from_join (items : list (TokType * string)) : forall pos,
  Forall (fun it => master_match it.2 = Some (it.1, it.2, EmptyString) /\
                    Lines.is_content it.1 = true) items ->
  tokenize_from pos (Lines.join " " (snd <$> items)) =
  Some (((fun it => token_of it.1 it.2) <$> items) ++ [mkToken EOF EmptyString], None).
Proof.
  induction items as [|[k item] items IH]; intros pos Hall; [reflexivity|].
  apply Forall_cons in Hall as [[Hm Hk] Hall]. cbn [fst snd] in Hm, Hk.
  assert (Hw : k <> WHITESPACE) by (intros ->; discriminate).
  assert (Hmm : k <> MISMATCH) by (intros ->; discriminate).
  destruct item as [|c item']; [discriminate|].
  destruct items as [|it2 items'].
  - cbn [fmap list_fmap Lines.join snd app].
    rewrite (tokenize_from_yield _ _ _ _ _ Hm Hw Hmm). reflexivity.
  - change (Lines.join " " (snd <$> (k, String c item') :: it2 :: items'))
      with (String c item' +:+ String " " (Lines.join " " (snd <$> it2 :: items'))).
    pose proof (master_match_extend c item' k (String c item') EmptyString " "
                  (Lines.join " " (snd <$> it2 :: items')) Hm Hmm
                  ltac:(intros; contradiction) eq_refl) as Hext.
    rewrite app_empty_l in Hext.
    rewrite (tokenize_from_yield _ _ _ _ _ Hext Hw Hmm).
    change (String " " (Lines.join " " (snd <$> it2 :: items')))
      with (" " +:+ Lines.join " " (snd <$> it2 :: items')).
    rewrite (tokenize_from_spaces " " _ _ eq_refl), (IH _ Hall). reflexivity.
Qed.

End WordFacts.

(** Word and string tokens without [=] are positional arguments, in their
    order. *)
Lemma parse_args_values ts : forall args kwargs,
  Forall (fun t => Parser.is_value (tok_type t) = true /\
                   Str.contains "=" (tok_value t) = false) ts ->
  Parser.parse_args ts args kwargs = (args ++ (tok_value <$> ts), kwargs, []).
Proof.
  induction ts as [|t ts IH]; intros args kwargs Hts.
  - cbn. rewrite app_nil_r. reflexivity.
  - apply Forall_cons in Hts as [[Hv He] Hts]. cbn [Parser.parse_args].
    destruct (tok_type t); try discriminate Hv; cbn [Parser.ends_command];
      rewrite He, (IH _ _ Hts); cbn [fmap list_fmap];
      rewrite <- List.app_assoc; reflexivity.
Qed.

Lemma plain_words_are_values ws :
  Forall (fun w => Lines.is_plain_word w = true) ws ->
  Forall (fun t => Parser.is_value (tok_type t) = true /\
                   Str.contains "=" (tok_value t) = false) (mkToken COMMAND <$> ws) /\
  Forall (fun t => Parser.is_argument (tok_type t) = true) (mkToken COMMAND <$> ws) /\
  Forall (fun it => Tokenizer.master_match it.2 = Some (it.1, it.2, EmptyString) /\
                    Lines.is_content it.1 = true) ((fun w => (COMMAND, w)) <$> ws).
Proof.
  induction 1 as [|w ws Hw _ (IH1 & IH2 & IH3)]; [repeat split; constructor|].
  repeat split; constructor; try assumption.
  - split; [reflexivity | exact (WordFacts.plain_word_no_equals _ Hw)].
  - reflexivity.
  - split; [exact (WordFacts.master_match_plain_word _ Hw) | reflexivity].
Qed.

Lemma tokenize_plain_words ws pos :
  Forall (fun w => Lines.is_plain_word w = true) ws ->
  Tokenizer.tokenize_from pos (Lines.join " " ws) =
  Some ((mkToken COMMAND <$> ws) ++ [mkToken EOF EmptyString], None).
Proof.
  intros Hws. destruct (plain_words_are_values ws Hws) as (_ & _ & Hlex).
  pose proof (WordFacts.tokenize_from_join _ pos Hlex) as H.
  rewrite <- !list_fmap_compose in H.
  change (snd ∘ (fun w : string => (COMMAND, w))) with (@id string) in H.
  change ((fun it : TokType * string => Tokenizer.token_of it.1 it.2)
            ∘ (fun w : string => (COMMAND, w))) with (mkToken COMMAND) in H.
  rewrite list_fmap_id in H. exact H.
Qed.

Lemma parse_line_plain_words cmd ws :
  Lines.is_plain_word cmd = true ->
  Forall (fun w => Lines.is_plain_word w = true) ws ->
  parse_line (Lines.join " " (cmd :: ws)) =
  Some (Parsed [mkChain (Some "COMMAND") (Some cmd) (Some ws) (Some ∅)]).
Proof.
  intros Hcmd Hws.
  destruct (plain_words_are_values ws Hws) as (Hval & Harg & _).
  unfold parse_line, Tokenizer.tokenize.
  rewrite (tokenize_plain_words (cmd :: ws) 0) by (constructor; assumption).
  cbn [fmap list_fmap app].
  rewrite (ParserFacts.parse_one (mkToken COMMAND cmd) (mkToken COMMAND <$> ws) eq_refl Harg).
  unfold Parser.chain_of. rewrite (parse_args_values _ _ _ Hval). cbn [app tok_value].
  rewrite <- list_fmap_compose.
  change (tok_value ∘ mkToken COMMAND) with (@id string).
  rewrite list_fmap_id. reflexivity.
Qed.

(** X8: A line of plain words, one blank between them, parses to one chain:
    the first word is the command name, the words after it are the
    positional arguments in their order, and there are no named
    arguments. *)
Theorem plain_words_parse cmd ws :
  Lines.is_plain_word cmd = true ->
  Forall (fun w => Lines.is_plain_word w = true) ws ->
  parse_line (Lines.join " " (cmd :: ws)) =
  Some (Parsed [mkChain (Some "COMMAND") (Some cmd) (Some ws) (Some ∅)]).
Proof. apply parse_line_plain_words. Qed.

Lemma plain_words_parse_witness :
  Lines.is_plain_word "git" = true /\
  Forall (fun w => Lines.is_plain_word w = true) ["commit"; "a-b"; "x_1"] /\
  parse_line "git commit a-b x_1" =
  Some (Parsed [mkChain (Some "COMMAND") (Some "git") (Some ["commit"; "a-b"; "x_1"]) (Some ∅)]).
Proof.
  assert (Hws : Forall (fun w => Lines.is_plain_word w = true) ["commit"; "a-b"; "x_1"])
    by (repeat constructor).
  split; [reflexivity|]. split; [exact Hws|].
  exact (plain_words_parse "git" ["commit"; "a-b"; "x_1"] eq_refl Hws).
Defined.

Lemma master_match_quoted q body :
  q = "034"%char \/ q = "'"%char ->
  Lines.is_plain_body q body = true ->
  Tokenizer.master_match (String q (body +:+ String q EmptyString)) =
  Some (STRING, String q (body +:+ String q EmptyString), EmptyString).
Proof.
  intros Hq Hbody.
  pose proof (WordFacts.re_quoted_body_plain q body EmptyString Hbody) as Hb.
  unfold Tokenizer.master_match, Tokenizer.patterns. cbn [Tokenizer.first_match].
  destruct Hq as [-> | ->].
  - unfold Tokenizer.re_plus at 1. cbn [Str.span].
    change (Chars.is_space "034") with false. cbn iota.
    unfold Tokenizer.re_literal. cbn [Str.strip_prefix].
    change (Ascii.eqb "&" "034") with false. change (Ascii.eqb "|" "034") with false.
    change (Ascii.eqb ";" "034") with false. cbn iota.
    unfold Tokenizer.re_flag. change (Ascii.eqb "034" "-") with false. cbn iota.
    unfold Tokenizer.re_quoted at 1. change (Ascii.eqb "034" "034") with true. cbn iota.
    rewrite Hb. reflexivity.
  - unfold Tokenizer.re_plus at 1. cbn [Str.span].
    change (Chars.is_space "'") with false. cbn iota.
    unfold Tokenizer.re_literal. cbn [Str.strip_prefix].
    change (Ascii.eqb "&" "'") with false. change (Ascii.eqb "|" "'") with false.
    change (Ascii.eqb ";" "'") with false. cbn iota.
    unfold Tokenizer.re_flag. change (Ascii.eqb "'" "-") with false. cbn iota.
    unfold Tokenizer.re_quoted. change (Ascii.eqb "'" "034") with false.
    change (Ascii.eqb "'" "'") with true. cbn iota.
    rewrite Hb. reflexivity.
Qed.

Lemma token_of_quoted q body :
  Tokenizer.token_of STRING (String q (body +:+ String q EmptyString)) = mkToken STRING body.
Proof.
  unfold Tokenizer.token_of, Str.slice_1_m1. rewrite WordFacts.drop_last_snoc. reflexivity.
Qed.

(** X6: A text between two quotes of the same kind, with no such quote and no
    backslash in it, is one String token whose literal is that text:
    blanks, separators and characters no pattern knows are kept as they
    are. *)
Theorem quoted_text_round_trip q body :
  q = "034"%char \/ q = "'"%char ->
  Lines.is_plain_body q body = true ->
  Tokenizer.tokenize (String q (body +:+ String q EmptyString)) =
  Some ([mkToken STRING body; mkToken EOF EmptyString], None).
Proof.
  intros Hq Hbody. unfold Tokenizer.tokenize.
  rewrite (TokenizerFacts.tokenize_from_yield _ _ _ _ _ (master_match_quoted q body Hq Hbody))
    by discriminate.
  rewrite token_of_quoted. reflexivity.
Qed.

Lemma quoted_text_round_trip_witness :
  ("'"%char = "034"%char \/ "'"%char = "'"%char) /\
  Lines.is_plain_body "'" "a && b | c=d @ e" = true /\
  Tokenizer.tokenize "'a && b | c=d @ e'" =
  Some ([mkToken STRING "a && b | c=d @ e"; mkToken EOF EmptyString], None).
Proof.
  split; [right; reflexivity|]. split; [reflexivity|].
  exact (quoted_text_round_trip "'" "a && b | c=d @ e" (or_intror eq_refl) eq_refl).
Defined.

(** A command with a list of argument texts that are each matched whole,
    through tokenizer and parser. *)
Lemma parse_line_items cmd (items : list (TokType * string)) :
  Lines.is_plain_word cmd = true ->
  Forall (fun it => Tokenizer.master_match it.2 = Some (it.1, it.2, EmptyString) /\
                    Parser.is_argument it.1 = true) items ->
  parse_line (Lines.join " " (cmd :: (snd <$> items))) =
  Some (Parsed [Parser.chain_of (mkToken COMMAND cmd)
                  ((fun it => Tokenizer.token_of it.1 it.2) <$> items)]).
Proof.
  intros Hcmd Hitems. unfold parse_line, Tokenizer.tokenize.
  change (cmd :: (snd <$> items)) with (snd <$> ((COMMAND, cmd) :: items)).
  rewrite WordFacts.tokenize_from_join.
  2:{ constructor.
      - split; [exact (WordFacts.master_match_plain_word _ Hcmd) | reflexivity].
      - eapply Forall_impl; [exact Hitems|]. intros [k it] [Hm Hk]. split; [exact Hm|].
        cbn [fst] in *. destruct k; try discriminate Hk; reflexivity. }
  cbn [fmap list_fmap fst snd Tokenizer.token_of app].
  rewrite (ParserFacts.parse_one (mkToken COMMAND cmd)); [reflexivity | reflexivity |].
  apply Forall_fmap. eapply Forall_impl; [exact Hitems|].
  intros [k it] [_ Hk]. cbn. rewrite TokenizerFacts.token_of_type. exact Hk.
Qed.

(** X9: A quoted text without [=] is one positional argument, whatever blanks
    and other characters it holds. *)
Theorem quoted_argument_is_positional cmd q body :
  Lines.is_plain_word cmd = true ->
  q = "034"%char \/ q = "'"%char ->
  Lines.is_plain_body q body = true ->
  Str.contains "=" body = false ->
  parse_line (cmd +:+ " " +:+ String q (body +:+ String q EmptyString)) =
  Some (Parsed [mkChain (Some "COMMAND") (Some cmd) (Some [body]) (Some ∅)]).
Proof.
  intros Hcmd Hq Hbody Heq.
  pose proof (parse_line_items cmd
                [(STRING, String q (body +:+ String q EmptyString))] Hcmd) as H.
  cbn [fmap list_fmap fst snd Lines.join] in H. rewrite H.
  - rewrite token_of_quoted. unfold Parser.chain_of. cbn [Parser.parse_args tok_type
      tok_value Parser.ends_command]. rewrite Heq. reflexivity.
  - constructor; [|constructor].
    split; [exact (master_match_quoted q body Hq Hbody) | reflexivity].
Qed.

Lemma quoted_argument_is_positional_witness :
  Lines.is_plain_word "echo" = true /\
  Lines.is_plain_body "034" "it's 5 o'clock; go!" = true /\
  Str.contains "=" "it's 5 o'clock; go!" = false /\
  parse_line ("echo " +:+ String "034" ("it's 5 o'clock; go!" +:+ String "034" EmptyString)) =
  Some (Parsed [mkChain (Some "COMMAND") (Some "echo") (Some ["it's 5 o'clock; go!"]) (Some ∅)]).
Proof.
  split; [reflexivity|]. split; [reflexivity|]. split; [reflexivity|].
  exact (quoted_argument_is_positional "echo" "034" "it's 5 o'clock; go!"
           eq_refl (or_introl eq_refl) eq_refl eq_refl).
Defined.

Lemma contains_middle c k v : Str.contains c (k +:+ String c v) = true.
Proof.
  induction k as [|a k IH].
  - change (Str.contains c (EmptyString +:+ String c v))
      with (Ascii.eqb c c || Str.contains c v).
    rewrite Ascii.eqb_refl. reflexivity.
  - change (Str.contains c (String a k +:+ String c v))
      with (Ascii.eqb a c || Str.contains c (k +:+ String c v)).
    rewrite IH. apply orb_true_r.
Qed.

Lemma split_once_middle c k v :
  Str.contains c k = false -> Str.split_once c (k +:+ String c v) = (k, v).
Proof.
  induction k as [|a k IH].
  - intros _.
    change (Str.split_once c (EmptyString +:+ String c v))
      with (if Ascii.eqb c c then (EmptyString, v)
            else let '(k, v0) := Str.split_once c v in (String c k, v0)).
    rewrite Ascii.eqb_refl. reflexivity.
  - change (Str.contains c (String a k)) with (Ascii.eqb a c || Str.contains c k).
    intros [Ha Hk]%orb_false_iff.
    change (Str.split_once c (String a k +:+ String c v))
      with (if Ascii.eqb a c then (EmptyString, k +:+ String c v)
            else let '(k0, v0) := Str.split_once c (k +:+ String c v) in (String a k0, v0)).
    rewrite Ha, (IH Hk). reflexivity.
Qed.

(** X10: A quoted text [key=value] is a named argument: the key is what stands
    before the first [=], the value what stands after it, and nothing
    becomes a positional argument. This is the way a value is given with
    [=] on a line. *)
Theorem quoted_key_value_is_named cmd q k v :
  Lines.is_plain_word cmd = true ->
  q = "034"%char \/ q = "'"%char ->
  Lines.is_plain_body q k = true ->
  Lines.is_plain_body q v = true ->
  Str.contains "=" k = false ->
  parse_line (cmd +:+ " " +:+ String q ((k +:+ String "=" v) +:+ String q EmptyString)) =
  Some (Parsed [mkChain (Some "COMMAND") (Some cmd) (Some []) (Some (<[k := KwStr v]> ∅))]).
Proof.
  intros Hcmd Hq Hk Hv Heq.
  assert (Hbody : Lines.is_plain_body q (k +:+ String "=" v) = true).
  { unfold Lines.is_plain_body in *. rewrite LinesFacts.all_app, Hk. cbn [Lines.all].
    rewrite Hv. destruct Hq as [-> | ->]; reflexivity. }
  pose proof (parse_line_items cmd
                [(STRING, String q ((k +:+ String "=" v) +:+ String q EmptyString))] Hcmd) as H.
  cbn [fmap list_fmap fst snd Lines.join] in H. rewrite H.
  - rewrite token_of_quoted. unfold Parser.chain_of. cbn [Parser.parse_args tok_type
      tok_value Parser.ends_command].
    rewrite contains_middle, (split_once_middle _ _ _ Heq). reflexivity.
  - constructor; [|constructor].
    split; [exact (master_match_quoted q _ Hq Hbody) | reflexivity].
Qed.

Lemma quoted_key_value_is_named_witness :
  Lines.is_plain_word "cmd" = true /\
  Lines.is_plain_body "'" "opt" = true /\
  Lines.is_plain_body "'" "a value" = true /\
  Str.contains "=" "opt" = false /\
  parse_line "cmd 'opt=a value'" =
  Some (Parsed [mkChain (Some "COMMAND") (Some "cmd") (Some [])
                  (Some (<["opt" := KwStr "a value"]> ∅))]).
Proof.
  split; [reflexivity|]. split; [reflexivity|]. split; [reflexivity|].
  split; [reflexivity|].
  exact (quoted_key_value_is_named "cmd" "'" "opt" "a value"
           eq_refl (or_intror eq_refl) eq_refl eq_refl eq_refl).
Defined.

Lemma parse_line_flag_and_word cmd n v :
  Lines.is_plain_word cmd = true ->
  Lines.is_flag_name n = true ->
  Lines.is_plain_word v = true ->
  parse_line (cmd +:+ " " +:+ ("--" +:+ n) +:+ " " +:+ v) =
    Some (Parsed [mkChain (Some "COMMAND") (Some cmd) (Some [])
                    (Some (<[n := KwStr v]> ∅))]) /\
  parse_line (cmd +:+ " " +:+ v +:+ " " +:+ ("--" +:+ n)) =
    Some (Parsed [mkChain (Some "COMMAND") (Some cmd) (Some [v])
                    (Some (<[n := KwTrue]> ∅))]).
Proof.
  intros Hcmd Hn Hv.
  destruct (WordFacts.flag_name_stripped n Hn) as [Hstrip Hneq].
  pose proof (WordFacts.plain_word_no_equals v Hv) as Hveq.
  assert (Hflag : Tokenizer.master_match ("--" +:+ n) = Some (FLAG, "--" +:+ n, EmptyString)
                  /\ Parser.is_argument FLAG = true)
    by (split; [exact (WordFacts.master_match_flag n Hn) | reflexivity]).
  assert (Hword : Tokenizer.master_match v = Some (COMMAND, v, EmptyString)
                  /\ Parser.is_argument COMMAND = true)
    by (split; [exact (WordFacts.master_match_plain_word v Hv) | reflexivity]).
  split.
  - pose proof (parse_line_items cmd [(FLAG, "--" +:+ n); (COMMAND, v)] Hcmd) as H.
    cbn [fmap list_fmap fst snd Lines.join] in H. rewrite H.
    + unfold Parser.chain_of. cbn [Parser.parse_args tok_type tok_value
        Tokenizer.token_of Parser.ends_command Parser.is_value].
      rewrite Hstrip, Hneq. reflexivity.
    + repeat constructor; cbn [fst snd]; first [apply Hflag | apply Hword].
  - pose proof (parse_line_items cmd [(COMMAND, v); (FLAG, "--" +:+ n)] Hcmd) as H.
    cbn [fmap list_fmap fst snd Lines.join] in H. rewrite H.
    + unfold Parser.chain_of. cbn [Parser.parse_args tok_type tok_value
        Tokenizer.token_of Parser.ends_command Parser.is_value].
      rewrite Hveq, Hstrip, Hneq. reflexivity.
    + repeat constructor; cbn [fst snd]; first [apply Hflag | apply Hword].
Qed.

(** X11: Where a bare flag stands decides what it means. Before a word it
    takes the word as its value, which is then no positional argument;
    at the end of the command its value is [True]. The key is the flag
    without its dashes. *)
Theorem flag_takes_next_word cmd n v :
  Lines.is_plain_word cmd = true ->
  Lines.is_flag_name n = true ->
  Lines.is_plain_word v = true ->
  parse_line (cmd +:+ " " +:+ ("--" +:+ n) +:+ " " +:+ v) =
    Some (Parsed [mkChain (Some "COMMAND") (Some cmd) (Some [])
                    (Some (<[n := KwStr v]> ∅))]) /\
  parse_line (cmd +:+ " " +:+ v +:+ " " +:+ ("--" +:+ n)) =
    Some (Parsed [mkChain (Some "COMMAND") (Some cmd) (Some [v])
                    (Some (<[n := KwTrue]> ∅))]).
Proof. apply parse_line_flag_and_word. Qed.

Lemma flag_takes_next_word_witness :
  Lines.is_plain_word "echo" = true /\
  Lines.is_flag_name "verbose" = true /\
  Lines.is_plain_word "hello" = true /\
  parse_line "echo --verbose hello" =
    Some (Parsed [mkChain (Some "COMMAND") (Some "echo") (Some [])
                    (Some (<["verbose" := KwStr "hello"]> ∅))]) /\
  parse_line "echo hello --verbose" =
    Some (Parsed [mkChain (Some "COMMAND") (Some "echo") (Some ["hello"])
                    (Some (<["verbose" := KwTrue]> ∅))]).
Proof.
  split; [reflexivity|]. split; [reflexivity|]. split; [reflexivity|].
  exact (flag_takes_next_word "echo" "verbose" "hello" eq_refl eq_refl eq_refl).
Defined.

(* ===================================================================== *)
(** ** Further properties of the parser *)
(* ===================================================================== *)

(** The argument loop does not look past an EOF token. *)
Lemma parse_args_before_eof ts : forall eof rest args kwargs,
  tok_type eof = EOF ->
  Parser.parse_args (ts ++ eof :: rest) args kwargs =
  (let '(a, k, st) := Parser.parse_args ts args kwargs in (a, k, st ++ eof :: rest)).
Proof.
  remember (length ts) as n eqn:Hn. revert ts Hn.
  induction (lt_wf n) as [n _ IH]. intros ts -> eof rest args kwargs Heof.
  assert (Hrec : forall ts0 a k, length ts0 < length ts ->
            Parser.parse_args (ts0 ++ eof :: rest) a k =
            (let '(a', k', st) := Parser.parse_args ts0 a k in (a', k', st ++ eof :: rest))).
  { intros ts0 a k Hlt. eapply IH; [exact Hlt | reflexivity | exact Heof]. }
  destruct ts as [|cur ts1].
  { cbn. rewrite Heof. reflexivity. }
  change ((cur :: ts1) ++ eof :: rest) with (cur :: (ts1 ++ eof :: rest)).
  cbn [Parser.parse_args].
  destruct (Parser.ends_command (tok_type cur)); [reflexivity|].
  destruct (tok_type cur); try reflexivity.
  - destruct (Str.contains "=" (tok_value cur)).
    + destruct (Str.split_once "=" (tok_value cur)) as [k v]. apply Hrec. simpl; lia.
    + apply Hrec. simpl; lia.
  - destruct (Str.contains "=" (tok_value cur)).
    + destruct (Str.split_once "=" (tok_value cur)) as [k v]. apply Hrec. simpl; lia.
    + apply Hrec. simpl; lia.
  - destruct (Str.contains "=" (Str.lstrip "-" (tok_value cur))).
    + destruct (Str.split_once "=" (Str.lstrip "-" (tok_value cur))) as [k v].
      apply Hrec. simpl; lia.
    + destruct ts1 as [|nxt ts2].
      * cbn [app]. rewrite Heof. cbn [Parser.is_value].
        apply (Hrec []). simpl; lia.
      * change ((nxt :: ts2) ++ eof :: rest) with (nxt :: (ts2 ++ eof :: rest)).
        cbn iota. destruct (Parser.is_value (tok_type nxt)).
        -- apply Hrec. simpl; lia.
        -- apply (Hrec (nxt :: ts2)). simpl; lia.
Qed.

Lemma after_chain_before_eof st eof rest :
  tok_type eof = EOF ->
  Parser.after_chain (st ++ eof :: rest) = Parser.after_chain st ++ eof :: rest.
Proof.
  intros Heof. unfold Parser.after_chain. destruct st as [|t st']; cbn.
  - rewrite Heof. reflexivity.
  - destruct (Parser.is_separator (tok_type t)); reflexivity.
Qed.

Lemma parse_from_before_eof st : forall eof rest chains,
  tok_type eof = EOF ->
  Parser.parse_from (st ++ eof :: rest) chains = Parser.parse_from st chains.
Proof.
  remember (length st) as n eqn:Hn. revert st Hn.
  induction (lt_wf n) as [n _ IH]. intros st -> eof rest chains Heof.
  destruct st as [|t st1].
  { cbn [app]. rewrite !ParserFacts.parse_from_eof; [reflexivity | reflexivity | exact Heof]. }
  change ((t :: st1) ++ eof :: rest) with (t :: (st1 ++ eof :: rest)).
  destruct (decide (tok_type t = EOF)) as [He|He].
  { rewrite !ParserFacts.parse_from_eof; [reflexivity | exact He | exact He]. }
  assert (Hchain : Parser.parse_chain (t :: (st1 ++ eof :: rest)) =
                   match Parser.parse_chain (t :: st1) with
                   | inl e => inl e
                   | inr (ch, st') => inr (ch, st' ++ eof :: rest)
                   end).
  { unfold Parser.parse_chain, Parser.parse_command. cbn [Parser.current Parser.next_token].
    destruct (tok_type t); try reflexivity.
    rewrite (parse_args_before_eof st1 eof rest [] ∅ Heof).
    destruct (Parser.parse_args st1 [] ∅) as [[a k] st']. reflexivity. }
  destruct (Parser.parse_chain (t :: st1)) as [e|[ch st']] eqn:E.
  - rewrite (ParserFacts.parse_from_error (t :: (st1 ++ eof :: rest)) _ e He Hchain).
    rewrite (ParserFacts.parse_from_error (t :: st1) _ e He E). reflexivity.
  - rewrite (ParserFacts.parse_from_chain (t :: (st1 ++ eof :: rest)) _ _ _ He Hchain).
    rewrite (ParserFacts.parse_from_chain (t :: st1) _ _ _ He E).
    rewrite (after_chain_before_eof _ _ _ Heof).
    eapply IH; [exact (ParserFacts.round_shrinks _ _ _ E) | reflexivity | exact Heof].
Qed.

(** X13: The parser stops at the first EOF token: what follows it in the token
    sequence is never looked at, and a sequence without an EOF token is
    parsed as if it ended with one. *)
Theorem tokens_after_eof_are_ignored tokens eof rest :
  tok_type eof = EOF ->
  Parser.parse (tokens ++ eof :: rest) = Parser.parse tokens.
Proof. intros Heof. apply parse_from_before_eof. exact Heof. Qed.

Lemma tokens_after_eof_are_ignored_witness :
  tok_type (mkToken EOF EmptyString) = EOF /\
  Parser.parse [mkToken COMMAND "echo"; mkToken STRING "Hello, World!";
                mkToken FLAG "--verbose"; mkToken EOF EmptyString;
                mkToken AND "&&"; mkToken COMMAND "ls"; mkToken FLAG "-l";
                mkToken AND "CJ"] =
  Parser.parse [mkToken COMMAND "echo"; mkToken STRING "Hello, World!";
                mkToken FLAG "--verbose"].
Proof.
  split; [reflexivity|].
  exact (tokens_after_eof_are_ignored
           [mkToken COMMAND "echo"; mkToken STRING "Hello, World!"; mkToken FLAG "--verbose"]
           (mkToken EOF EmptyString)
           [mkToken AND "&&"; mkToken COMMAND "ls"; mkToken FLAG "-l"; mkToken AND "CJ"]
           eq_refl).
Defined.

Lemma parse_args_no_equals st : forall args kwargs args' kwargs' st',
  Forall (fun a => Str.contains "=" a = false) args ->
  Parser.parse_args st args kwargs = (args', kwargs', st') ->
  Forall (fun a => Str.contains "=" a = false) args'.
Proof.
  remember (length st) as n eqn:Hn. revert st Hn.
  induction (lt_wf n) as [n _ IH]. intros st -> args kwargs args' kwargs' st' Hargs.
  assert (Hrec : forall st0 a k, length st0 < length st ->
            Forall (fun a => Str.contains "=" a = false) a ->
            Parser.parse_args st0 a k = (args', kwargs', st') ->
            Forall (fun a => Str.contains "=" a = false) args').
  { intros st0 a k Hlt Ha. eapply IH; [exact Hlt | reflexivity | exact Ha]. }
  destruct st as [|cur st1]; cbn [Parser.parse_args].
  { intros [= <- <- <-]. exact Hargs. }
  destruct (Parser.ends_command (tok_type cur)); [intros [= <- <- <-]; exact Hargs|].
  destruct (tok_type cur); try (intros [= <- <- <-]; exact Hargs).
  - destruct (Str.contains "=" (tok_value cur)) eqn:Hc.
    + destruct (Str.split_once "=" (tok_value cur)) as [k v].
      apply Hrec; [simpl; lia | exact Hargs].
    + apply Hrec; [simpl; lia|]. apply Forall_app. split; [exact Hargs|].
      constructor; [exact Hc | constructor].
  - destruct (Str.contains "=" (tok_value cur)) eqn:Hc.
    + destruct (Str.split_once "=" (tok_value cur)) as [k v].
      apply Hrec; [simpl; lia | exact Hargs].
    + apply Hrec; [simpl; lia|]. apply Forall_app. split; [exact Hargs|].
      constructor; [exact Hc | constructor].
  - destruct (Str.contains "=" (Str.lstrip "-" (tok_value cur))).
    + destruct (Str.split_once "=" (Str.lstrip "-" (tok_value cur))) as [k v].
      apply Hrec; [simpl; lia | exact Hargs].
    + destruct st1 as [|nxt st2].
      * apply Hrec; [simpl; lia | exact Hargs].
      * destruct (Parser.is_value (tok_type nxt)).
        -- apply Hrec; [simpl; lia | exact Hargs].
        -- apply Hrec; [simpl; lia | exact Hargs].
Qed.

Lemma parse_from_no_equals st : forall chains result,
  Forall (fun ch => exists args, ch_args ch = Some args /\
                    Forall (fun a => Str.contains "=" a = false) args) chains ->
  Parser.parse_from st chains = Some (inr result) ->
  Forall (fun ch => exists args, ch_args ch = Some args /\
                    Forall (fun a => Str.contains "=" a = false) args) result.
Proof.
  remember (length st) as n eqn:Hn. revert st Hn.
  induction (lt_wf n) as [n _ IH]. intros st -> chains result Hch.
  destruct (decide (tok_type (Parser.current st) = EOF)) as [He|He].
  { rewrite ParserFacts.parse_from_eof by assumption. intros [= <-]. exact Hch. }
  destruct (Parser.parse_chain st) as [e|[ch st']] eqn:E.
  { rewrite (ParserFacts.parse_from_error _ _ _ He E). discriminate. }
  rewrite (ParserFacts.parse_from_chain _ _ _ _ He E).
  eapply IH; [exact (ParserFacts.round_shrinks _ _ _ E) | reflexivity |].
  apply Forall_app. split; [exact Hch|]. constructor; [|constructor].
  revert E. unfold Parser.parse_chain, Parser.parse_command.
  destruct (tok_type (Parser.current st)); try discriminate.
  destruct (Parser.parse_args (Parser.next_token st) [] ∅) as [[a k] st2] eqn:Ea.
  intros [= <- <-]. exists a. split; [reflexivity|].
  eapply parse_args_no_equals; [|exact Ea]. constructor.
Qed.

(** X14: No positional argument of a parsed chain has an [=] in it: a word or
    string with an [=] always becomes a named argument, for every token
    sequence. *)
Theorem positional_arguments_hold_no_equals tokens chains :
  Parser.parse tokens = Some (inr chains) ->
  Forall (fun ch => exists args, ch_args ch = Some args /\
                    Forall (fun a => Str.contains "=" a = false) args) chains.
Proof. apply parse_from_no_equals. constructor. Qed.

Lemma positional_arguments_hold_no_equals_witness :
  Parser.parse [mkToken COMMAND "run"; mkToken STRING "a=1"; mkToken COMMAND "b";
                mkToken STRING "c=2=3"; mkToken EOF EmptyString] =
    Some (inr [mkChain (Some "COMMAND") (Some "run") (Some ["b"])
                 (Some (<["a" := KwStr "1"]> (<["c" := KwStr "2=3"]> ∅)))]) /\
  Forall (fun ch => exists args, ch_args ch = Some args /\
                    Forall (fun a => Str.contains "=" a = false) args)
    [mkChain (Some "COMMAND") (Some "run") (Some ["b"])
       (Some (<["a" := KwStr "1"]> (<["c" := KwStr "2=3"]> ∅)))].
Proof.
  assert (H : Parser.parse [mkToken COMMAND "run"; mkToken STRING "a=1"; mkToken COMMAND "b";
                mkToken STRING "c=2=3"; mkToken EOF EmptyString] =
    Some (inr [mkChain (Some "COMMAND") (Some "run") (Some ["b"])
                 (Some (<["a" := KwStr "1"]> (<["c" := KwStr "2=3"]> ∅)))]))
    by (vm_compute; reflexivity).
  split; [exact H|].
  exact (positional_arguments_hold_no_equals _ _ H).
Defined.

Lemma parse_from_error_kind st : forall chains k,
  Parser.parse_from st chains = Some (inl (Parser.ExpectedCommand k)) ->
  k <> COMMAND /\ k <> EOF /\ exists t, t ∈ st /\ tok_type t = k.
Proof.
  remember (length st) as n eqn:Hn. revert st Hn.
  induction (lt_wf n) as [n _ IH]. intros st -> chains k.
  destruct (decide (tok_type (Parser.current st) = EOF)) as [He|He].
  { rewrite ParserFacts.parse_from_eof by assumption. discriminate. }
  destruct (Parser.parse_chain st) as [e|[ch st']] eqn:E.
  - rewrite (ParserFacts.parse_from_error _ _ _ He E). intros [= ->].
    revert E. unfold Parser.parse_chain, Parser.parse_command.
    destruct st as [|t st1]; [contradiction He; reflexivity|]. cbn [Parser.current] in *.
    destruct (tok_type t) eqn:Ek;
      try (intros [= <-]; repeat split; try discriminate; try exact He;
           exists t; split; [apply list_elem_of_here | exact Ek]).
    destruct (Parser.parse_args _ _ _) as [[a k'] st2]. discriminate.
  - rewrite (ParserFacts.parse_from_chain _ _ _ _ He E). intros H.
    destruct (IH _ (ParserFacts.round_shrinks _ _ _ E) _ eq_refl _ _ H)
      as (Hc & Heof & t & Ht & Hk).
    repeat split; try assumption. exists t. split; [|exact Hk].
    destruct (ParserFacts.parse_chain_inr _ _ _ E) as (cur & st1 & -> & _ & _ & _ & Hsuf).
    apply list_elem_of_further.
    destruct Hsuf as [p1 ->]. destruct (ParserFacts.after_chain_suffix st') as [p2 Hp2].
    rewrite Hp2. apply elem_of_app. right. apply elem_of_app. right. exact Ht.
Qed.

(** X15: The one syntax error of the parser names the kind of a token of the
    sequence that stands where a command has to begin; that kind is never
    Command and never EndOfInput. *)
Theorem syntax_error_names_a_misplaced_token tokens k :
  Parser.parse tokens = Some (inl (Parser.ExpectedCommand k)) ->
  k <> COMMAND /\ k <> EOF /\ exists t, t ∈ tokens /\ tok_type t = k.
Proof. apply parse_from_error_kind. Qed.

Lemma syntax_error_names_a_misplaced_token_witness :
  Parser.parse [mkToken COMMAND "ls"; mkToken SEMI ";"; mkToken FLAG "-l";
                mkToken EOF EmptyString] =
    Some (inl (Parser.ExpectedCommand FLAG)) /\
  FLAG <> COMMAND /\ FLAG <> EOF /\
  exists t, t ∈ [mkToken COMMAND "ls"; mkToken SEMI ";"; mkToken FLAG "-l";
                 mkToken EOF EmptyString] /\ tok_type t = FLAG.
Proof.
  split; [reflexivity|].
  exact (syntax_error_names_a_misplaced_token
           [mkToken COMMAND "ls"; mkToken SEMI ";"; mkToken FLAG "-l";
            mkToken EOF EmptyString] FLAG eq_refl).
Defined.

(** X16: Separators at the edges. A separator after the last command is
    accepted and changes nothing; a separator right after a separator, or
    at the start of the sequence, is the syntax error that names it. *)
Theorem separators_at_the_edges cmd arguments sep sep2 rest :
  tok_type cmd = COMMAND ->
  Forall (fun t => Parser.is_argument (tok_type t) = true) arguments ->
  Parser.is_separator (tok_type sep) = true ->
  Parser.is_separator (tok_type sep2) = true ->
  Parser.parse (cmd :: arguments ++ [sep; mkToken EOF EmptyString]) =
    Some (inr [Parser.chain_of cmd arguments]) /\
  Parser.parse (cmd :: arguments ++ sep :: sep2 :: rest) =
    Some (inl (Parser.ExpectedCommand (tok_type sep2))) /\
  Parser.parse (sep :: rest) = Some (inl (Parser.ExpectedCommand (tok_type sep))).
Proof.
  intros Hcmd Hargs Hsep Hsep2.
  assert (Hend : Parser.ends_command (tok_type sep) = true)
    by (destruct (tok_type sep); try discriminate Hsep; reflexivity).
  assert (Hfail : forall s r chains, Parser.is_separator (tok_type s) = true ->
            Parser.parse_from (s :: r) chains =
            Some (inl (Parser.ExpectedCommand (tok_type s)))).
  { intros s r chains Hs. apply ParserFacts.parse_from_error.
    - cbn. destruct (tok_type s); try discriminate Hs; discriminate.
    - unfold Parser.parse_chain, Parser.parse_command. cbn [Parser.current].
      destruct (tok_type s); try discriminate Hs; reflexivity. }
  assert (Hne : tok_type (Parser.current (cmd :: arguments ++ sep :: rest)) <> EOF)
    by (cbn; rewrite Hcmd; discriminate).
  split; [|split].
  - unfold Parser.parse, Parser.init.
    rewrite (ParserFacts.parse_from_chain (cmd :: arguments ++ [sep; mkToken EOF EmptyString])
               _ (Parser.chain_of cmd arguments) [sep; mkToken EOF EmptyString]).
    + unfold Parser.after_chain. cbn [Parser.current Parser.next_token]. rewrite Hsep.
      apply ParserFacts.parse_from_eof. reflexivity.
    + cbn. rewrite Hcmd. discriminate.
    + apply ParserFacts.parse_chain_command; assumption.
  - unfold Parser.parse, Parser.init.
    rewrite (ParserFacts.parse_from_chain (cmd :: arguments ++ sep :: sep2 :: rest)
               _ (Parser.chain_of cmd arguments) (sep :: sep2 :: rest)).
    + unfold Parser.after_chain. cbn [Parser.current Parser.next_token]. rewrite Hsep.
      apply Hfail. exact Hsep2.
    + cbn. rewrite Hcmd. discriminate.
    + apply ParserFacts.parse_chain_command; assumption.
  - apply Hfail. exact Hsep.
Qed.

Lemma separators_at_the_edges_witness :
  Forall (fun t => Parser.is_argument (tok_type t) = true) [mkToken FLAG "-l"] /\
  Parser.parse [mkToken COMMAND "ls"; mkToken FLAG "-l"; mkToken SEMI ";";
                mkToken EOF EmptyString] =
    Some (inr [Parser.chain_of (mkToken COMMAND "ls") [mkToken FLAG "-l"]]) /\
  Parser.parse [mkToken COMMAND "ls"; mkToken FLAG "-l"; mkToken SEMI ";";
                mkToken AND "&&"; mkToken COMMAND "pwd"; mkToken EOF EmptyString] =
    Some (inl (Parser.ExpectedCommand AND)) /\
  Parser.parse [mkToken SEMI ";"; mkToken COMMAND "pwd"; mkToken EOF EmptyString] =
    Some (inl (Parser.ExpectedCommand SEMI)).
Proof.
  assert (Hargs : Forall (fun t => Parser.is_argument (tok_type t) = true) [mkToken FLAG "-l"])
    by (repeat constructor).
  split; [exact Hargs|].
  exact (separators_at_the_edges (mkToken COMMAND "ls") [mkToken FLAG "-l"]
           (mkToken SEMI ";") (mkToken AND "&&")
           [mkToken COMMAND "pwd"; mkToken EOF EmptyString]
           eq_refl Hargs eq_refl eq_refl).
Defined.

(** X12: A line that is empty or holds white space only parses to no chain at
    all, without an error. *)
Theorem blank_line_has_no_chains line :
  Lines.all Chars.is_space line = true ->
  parse_line line = Some (Parsed []).
Proof.
  intros Hline. unfold parse_line, Tokenizer.tokenize.
  rewrite <- (StrFacts.app_empty_r line).
  rewrite (TokenizerFacts.tokenize_from_spaces line EmptyString 0
             (LinesFacts.span_all _ _ Hline)).
  reflexivity.
Qed.

Lemma blank_line_has_no_chains_witness :
  Lines.all Chars.is_space "   " = true /\ parse_line "   " = Some (Parsed []).
Proof.
  split; [reflexivity|].
  exact (blank_line_has_no_chains "   " eq_refl).
Defined.

(* ===================================================================== *)
(** ** Further properties of the executor *)
(* ===================================================================== *)

(** The module of an invocation: [None] when the dictionary has no "cmd"
    key or no module of the resolved, lower-cased name can be imported.
    With a module, an exception leaves [execute_command] only from the
    invocation of a plugin, and only when it is no instance of
    [Exception]. *)
Lemma execute_command_cases w self cmd_dict :
  (ch_cmd cmd_dict = None /\
   execute_command w self cmd_dict =
     ([Print NoneHasNoLower; Log "executor" ERROR (ErrorLoading None NoneHasNoLower)],
      Exc (mkExn ModuleNotFoundError (CommandNotFound None)))) \/
  (exists name,
     ch_cmd cmd_dict = Some name /\
     modules w !! (commands_module self +:+ "." +:+ Str.lower (resolve_alias self name)) = None /\
     execute_command w self cmd_dict =
       ([Print (NoModuleNamed (commands_module self +:+ "." +:+ Str.lower (resolve_alias self name)));
         Log "executor" ERROR
           (ErrorLoading (Some (resolve_alias self name))
              (NoModuleNamed (commands_module self +:+ "." +:+ Str.lower (resolve_alias self name))))],
        Exc (mkExn ModuleNotFoundError (CommandNotFound (Some (resolve_alias self name)))))) \/
  (exists name members,
     ch_cmd cmd_dict = Some name /\
     modules w !! (commands_module self +:+ "." +:+ Str.lower (resolve_alias self name))
       = Some members /\
     executions (execute_command w self cmd_dict).1 <= 1 /\
     forall e, (execute_command w self cmd_dict).2 = Exc e <->
       exists c, find_command_class members = Some c /\ gated w c = false /\
                 invocation c cmd_dict = Raises e /\ is_exception e = false).
Proof.
  destruct (ch_cmd cmd_dict) as [name|] eqn:Hname.
  - destruct (modules w !! (commands_module self +:+ "." +:+ Str.lower (resolve_alias self name)))
      as [members|] eqn:Hmod.
    + right. right. exists name, members. split; [reflexivity|]. split; [exact Hmod|].
      destruct (find_command_class members) as [c|] eqn:Hcls.
      * assert (Hfound : plugin_of w self cmd_dict = Some c).
        { unfold plugin_of. rewrite Hname. cbn. rewrite Hmod. cbn. exact Hcls. }
        destruct (gated w c) eqn:Hg.
        -- rewrite (ExecutorFacts.execute_command_gated _ _ _ _ Hfound Hg).
           split; [cbn; lia|]. intros e. split; [discriminate|].
           intros (c' & [= <-] & Hg' & _). congruence.
        -- rewrite (ExecutorFacts.execute_command_invokes _ _ _ _ Hfound Hg).
           cbn [fst snd]. split.
           ++ unfold invocation, invocation_events.
              destruct (cls_init c) as [e0|]; [destruct (is_exception e0); cbn; lia|].
              destruct (cls_execute c _ _) as [v|e0];
                [destruct (ne_zero v) | destruct (is_exception e0)]; cbn; lia.
           ++ intros e. split.
              ** destruct (invocation c cmd_dict) as [v|e0] eqn:Hinv; [discriminate|].
                 destruct (is_exception e0) eqn:Hexc; [discriminate|].
                 intros [= <-]. exists c. auto.
              ** intros (c' & [= <-] & _ & -> & ->). reflexivity.
      * rewrite (ExecutorFacts.execute_command_no_class _ _ _ _ _ Hname Hmod Hcls).
        split; [cbn; lia|]. intros e. split; [discriminate|].
        intros (c' & Hc' & _). discriminate Hc'.
    + right. left. exists name. split; [reflexivity|]. split; [exact Hmod|].
      unfold execute_command, lower, import_module.
      rewrite Hname. cbn [fmap option_fmap option_map]. ExecutorFacts.run_monad.
      rewrite Hmod. reflexivity.
  - left. split; [reflexivity|].
    unfold execute_command, lower. rewrite Hname. reflexivity.
Qed.

(** X17: What leaves [execute_command]. When no module is found for the
    invocation (the dictionary has no "cmd" key, or no module of the
    resolved, lower-cased name can be imported), it raises the
    command-not-found error with the resolved name, and no plugin has
    been touched. When the module is found, it raises exactly when the
    module holds a plugin that is not held back and whose invocation
    raises something that is no instance of [Exception]
    ([KeyboardInterrupt], [SystemExit]); what leaves is then that
    exception itself. *)
Theorem what_leaves_execute_command w self cmd_dict :
  ((ch_cmd cmd_dict ≫= fun name =>
      modules w !! (commands_module self +:+ "." +:+ Str.lower (resolve_alias self name)))
     = None ->
   (execute_command w self cmd_dict).2 =
     Exc (mkExn ModuleNotFoundError (CommandNotFound (resolved_name self cmd_dict))) /\
   executions (execute_command w self cmd_dict).1 = 0) /\
  (forall members,
     (ch_cmd cmd_dict ≫= fun name =>
        modules w !! (commands_module self +:+ "." +:+ Str.lower (resolve_alias self name)))
       = Some members ->
     forall e, (execute_command w self cmd_dict).2 = Exc e <->
       exists c, find_command_class members = Some c /\ gated w c = false /\
                 invocation c cmd_dict = Raises e /\ is_exception e = false).
Proof.
  unfold resolved_name.
  destruct (execute_command_cases w self cmd_dict)
    as [[Hname ->] | [(name & Hname & Hmod & ->) | (name & members & Hname & Hmod & _ & H)]];
    rewrite Hname; cbn [mbind option_bind fmap option_fmap option_map snd fst].
  - split; [intros _; split; reflexivity | discriminate].
  - rewrite Hmod. split; [intros _; split; reflexivity | discriminate].
  - rewrite Hmod. split; [discriminate|]. intros members' [= <-]. exact H.
Qed.

(** X18: Whatever the invocation, the world and the configuration, one call of
    [execute_command] calls a plugin's [execute] at most once. *)
Theorem execute_is_called_at_most_once w self cmd_dict :
  executions (execute_command w self cmd_dict).1 <= 1.
Proof.
  destruct (execute_command_cases w self cmd_dict)
    as [[_ ->] | [(name & _ & _ & ->) | (name & members & _ & _ & H & _)]];
    [cbn; lia | cbn; lia | exact H].
Qed.

(** X19: An alias is resolved once and not followed further: the invocation of
    an alias behaves, in everything it prints, logs, calls and returns,
    like the invocation of the name it stands for under an executor
    without aliases. *)
Theorem alias_is_resolved_once w self a b ty args kwargs :
  aliases self !! a = Some b ->
  execute_command w self (mkChain ty (Some a) args kwargs) =
  execute_command w (mkExecutor (commands_module self) ∅) (mkChain ty (Some b) args kwargs).
Proof.
  intros Hab. unfold execute_command, resolve_alias.
  cbn [ch_cmd ch_args ch_kwargs fmap option_fmap option_map aliases commands_module].
  rewrite Hab, lookup_empty. reflexivity.
Qed.

Lemma alias_is_resolved_once_witness :
  aliases (mkExecutor "commands" (<["say" := "echo"]> (<["echo" := "fails"]> ∅))) !! "say"
    = Some "echo" /\
  execute_command world_on
    (mkExecutor "commands" (<["say" := "echo"]> (<["echo" := "fails"]> ∅))) (invoke "say") =
  ([Instantiate "Echo"; Execute "Echo" [] ∅], Ret true).
Proof.
  assert (H : aliases (mkExecutor "commands" (<["say" := "echo"]> (<["echo" := "fails"]> ∅)))
                !! "say" = Some "echo") by (vm_compute; reflexivity).
  split; [exact H|].
  refine (eq_trans (alias_is_resolved_once world_on _ "say" "echo"
                      (Some "COMMAND") (Some []) (Some ∅) H) _).
  vm_compute. reflexivity.
Defined.

Lemma lower_idempotent s : Str.lower (Str.lower s) = Str.lower s.
Proof.
  induction s as [|c s IH]; [reflexivity|]. cbn [Str.lower]. rewrite IH. f_equal.
  destruct c as [[] [] [] [] [] [] [] []]; vm_compute; reflexivity.
Qed.

(** The status of an invocation, read off the plugin that is found. *)
Lemma status_of_found w self cmd_dict :
  status_of w self cmd_dict =
  match ch_cmd cmd_dict with
  | None => None
  | Some name =>
      match modules w !! (commands_module self +:+ "." +:+ Str.lower (resolve_alias self name)) with
      | None => None
      | Some members =>
          match find_command_class members with
          | None => Some false
          | Some c =>
              if gated w c then Some true
              else match invocation c cmd_dict with
                   | Returns v => Some (negb (ne_zero v))
                   | Raises e => if is_exception e then Some false else None
                   end
          end
      end
  end.
Proof.
  unfold status_of.
  destruct (ch_cmd cmd_dict) as [name|] eqn:Hname.
  - destruct (modules w !! _) as [members|] eqn:Hmod.
    + destruct (find_command_class members) as [c|] eqn:Hcls.
      * assert (Hfound : plugin_of w self cmd_dict = Some c).
        { unfold plugin_of. rewrite Hname. cbn. rewrite Hmod. cbn. exact Hcls. }
        destruct (gated w c) eqn:Hg.
        -- rewrite (ExecutorFacts.execute_command_gated _ _ _ _ Hfound Hg). reflexivity.
        -- rewrite (ExecutorFacts.execute_command_invokes _ _ _ _ Hfound Hg).
           cbn [snd]. destruct (invocation c cmd_dict) as [v|e]; [reflexivity|].
           destruct (is_exception e); reflexivity.
      * rewrite (ExecutorFacts.execute_command_no_class _ _ _ _ _ Hname Hmod Hcls).
        reflexivity.
    + rewrite (ExecutorFacts.execute_command_no_module _ _ _ _ Hname Hmod). reflexivity.
  - unfold execute_command, lower. rewrite Hname. reflexivity.
Qed.

(** X20: Command names are looked up without regard to case: a name and its
    lower-case form, neither of them an alias, find the same plugin and
    give the same status. (The alias table itself is read with the name as
    it is written.) *)
Theorem command_name_case_does_not_matter w self ty name args kwargs :
  aliases self !! name = None ->
  aliases self !! Str.lower name = None ->
  plugin_of w self (mkChain ty (Some name) args kwargs) =
    plugin_of w self (mkChain ty (Some (Str.lower name)) args kwargs) /\
  status_of w self (mkChain ty (Some name) args kwargs) =
    status_of w self (mkChain ty (Some (Str.lower name)) args kwargs).
Proof.
  intros H1 H2.
  assert (Hkey : Str.lower (resolve_alias self (Str.lower name)) =
                 Str.lower (resolve_alias self name)).
  { unfold resolve_alias. rewrite H1, H2. cbn. apply lower_idempotent. }
  split.
  - unfold plugin_of. cbn [ch_cmd mbind option_bind]. rewrite Hkey. reflexivity.
  - rewrite !status_of_found. cbn [ch_cmd]. rewrite Hkey.
    destruct (modules w !! _) as [members|]; [|reflexivity].
    destruct (find_command_class members) as [c|]; reflexivity.
Qed.

Lemma command_name_case_does_not_matter_witness :
  aliases (init fun_on) !! "EcHo" = None /\
  aliases (init fun_on) !! Str.lower "EcHo" = None /\
  status_of world_on (init fun_on) (invoke "EcHo") = Some true.
Proof.
  assert (H1 : aliases (init fun_on) !! "EcHo" = None) by (vm_compute; reflexivity).
  assert (H2 : aliases (init fun_on) !! Str.lower "EcHo" = None) by (vm_compute; reflexivity).
  split; [exact H1|]. split; [exact H2|].
  refine (eq_trans (proj2 (command_name_case_does_not_matter world_on (init fun_on)
                             (Some "COMMAND") "EcHo" (Some []) (Some ∅) H1 H2)) _).
  vm_compute. reflexivity.
Defined.

(** X21: A configuration that does not say whether fun commands are on leaves
    them on: a fun plugin is then invoked like any other. (What the
    invocation raises gets its diagnostic when it is an instance of
    [Exception], the only case in which it is caught.) *)
Theorem fun_commands_are_on_by_default w self cmd_dict c :
  plugin_of w self cmd_dict = Some c ->
  default ∅ (cfg_features (settings w)) !! "fun_commands" = None ->
  gated w c = false /\
  (execute_command w self cmd_dict).1 =
    invocation_events c cmd_dict ++
      match invocation c cmd_dict with
      | Returns v =>
          if ne_zero v then
            [Log "executor" ERROR (FailedWithExitCode (resolved_name self cmd_dict) v);
             Print (FailedWithExitCode (resolved_name self cmd_dict) v)]
          else []
      | Raises e =>
          if is_exception e then
            [Log "executor" ERROR (ErrorExecuting (resolved_name self cmd_dict) (exn_str e));
             Print (ErrorRunning (resolved_name self cmd_dict) (exn_str e))]
          else []
      end.
Proof.
  intros Hfound Hcfg.
  assert (Hg : gated w c = false).
  { unfold gated, fun_commands. rewrite Hcfg. cbn. apply andb_false_r. }
  split; [exact Hg|].
  rewrite (ExecutorFacts.execute_command_invokes _ _ _ _ Hfound Hg). reflexivity.
Qed.

Lemma fun_commands_are_on_by_default_witness :
  plugin_of (mkWorld sample_modules (mkConfig None None))
    (init (mkConfig None None)) (invoke "prank") = Some Prank /\
  default ∅ (cfg_features (settings (mkWorld sample_modules (mkConfig None None))))
    !! "fun_commands" = None /\
  (execute_command (mkWorld sample_modules (mkConfig None None))
     (init (mkConfig None None)) (invoke "prank")).1 =
  [Instantiate "Prank"; Execute "Prank" [] ∅;
   Log "executor" ERROR (FailedWithExitCode (Some "prank") (VInt 1));
   Print (FailedWithExitCode (Some "prank") (VInt 1))].
Proof.
  assert (Hfound : plugin_of (mkWorld sample_modules (mkConfig None None))
            (init (mkConfig None None)) (invoke "prank") = Some Prank)
    by (vm_compute; reflexivity).
  assert (Hcfg : default ∅ (cfg_features (settings (mkWorld sample_modules (mkConfig None None))))
            !! "fun_commands" = None) by (vm_compute; reflexivity).
  split; [exact Hfound|]. split; [exact Hcfg|].
  refine (eq_trans (proj2 (fun_commands_are_on_by_default _ _ _ _ Hfound Hcfg)) _).
  vm_compute. reflexivity.
Defined.

Lemma run_stops_at_first_error_witness :
  none_raises world_on (init fun_on) [invoke "fails"] /\
  is_command_chain (invoke "nosuch") /\
  (execute_command world_on (init fun_on) (invoke "nosuch")).2 =
    Exc (mkExn ModuleNotFoundError (CommandNotFound (Some "nosuch"))) /\
  run world_on (init fun_on) ([invoke "fails"] ++ invoke "nosuch" :: [invoke "echo"]) =
  ([Instantiate "Fails"; Execute "Fails" [] ∅;
    Log "executor" ERROR (FailedWithExitCode (Some "fails") (VInt 2));
    Print (FailedWithExitCode (Some "fails") (VInt 2));
    Print (NoModuleNamed "commands.nosuch");
    Log "executor" ERROR (ErrorLoading (Some "nosuch") (NoModuleNamed "commands.nosuch"))],
   Exc (mkExn ModuleNotFoundError (CommandNotFound (Some "nosuch")))).
Proof.
  assert (Hnr : none_raises world_on (init fun_on) [invoke "fails"]).
  { repeat constructor. intros _. vm_compute. eauto. }
  assert (Hc : is_command_chain (invoke "nosuch")) by reflexivity.
  assert (He : (execute_command world_on (init fun_on) (invoke "nosuch")).2 =
               Exc (mkExn ModuleNotFoundError (CommandNotFound (Some "nosuch"))))
    by (vm_compute; reflexivity).
  split; [exact Hnr|]. split; [exact Hc|]. split; [exact He|].
  refine (eq_trans (run_stops_at_first_error world_on (init fun_on) [invoke "fails"]
                      (invoke "nosuch") [invoke "echo"] _ Hnr Hc He) _).
  vm_compute. reflexivity.
Defined.

Lemma run_loop_app w self c1 : forall c2 start,
  none_raises w self c1 ->
  exists b,
    status_after w self start c1 = Some b /\
    run_loop w self (c1 ++ c2) start =
    (concat (map (chain_events w self) c1) ++ (run_loop w self c2 b).1,
     (run_loop w self c2 b).2).
Proof.
  induction c1 as [|ch c1 IH]; intros c2 start Hnr.
  - exists start. split; [reflexivity|]. cbn. destruct (run_loop w self c2 start); reflexivity.
  - apply Forall_cons in Hnr as [Hch Hnr]. cbn [app].
    destruct (decide (is_command_chain ch)) as [Hc|Hc].
    + destruct (Hch Hc) as [b0 Hb0].
      destruct (execute_command w self ch) as [t r] eqn:He.
      unfold status_of in Hb0. rewrite He in Hb0. cbn in Hb0.
      destruct r as [b1|e]; [|discriminate]. injection Hb0 as ->.
      destruct (IH c2 b0 Hnr) as (b & Hst & Hrun).
      exists b. split.
      * rewrite (ExecutorFacts.status_after_command _ _ _ _ _ b0 Hc); [exact Hst|].
        unfold status_of. rewrite He. reflexivity.
      * rewrite (ExecutorFacts.run_loop_command _ _ _ _ _ _ _ Hc He), Hrun.
        cbn [map concat fst snd].
        rewrite (ExecutorFacts.chain_events_command _ _ _ Hc), He, <- List.app_assoc.
        reflexivity.
    + destruct (IH c2 start Hnr) as (b & Hst & Hrun).
      exists b. split.
      * rewrite ExecutorFacts.status_after_skip by exact Hc. exact Hst.
      * rewrite (ExecutorFacts.run_loop_skip _ _ _ _ _ Hc), Hrun.
        cbn [map concat fst snd].
        rewrite (ExecutorFacts.chain_events_skip _ _ _ Hc). reflexivity.
Qed.

(** X23: Running one sequence of chains after another in one call is running
    the first and then the second: the events are those of the first run
    followed by those of the loop over the second, which starts from the
    status the first run ends with and decides the result. *)
Theorem run_of_appended_sequences w self c1 c2 :
  none_raises w self c1 ->
  exists b,
    run w self c1 = (concat (map (chain_events w self) c1), Ret b) /\
    run w self (c1 ++ c2) =
    ((run w self c1).1 ++ (run_loop w self c2 b).1, (run_loop w self c2 b).2).
Proof.
  intros Hnr. unfold run.
  destruct (run_loop_app w self c1 c2 true Hnr) as (b & Hst & Happ).
  destruct (ExecutorFacts.run_loop_all w self c1 true Hnr) as (b' & Hst' & Hrun).
  assert (b' = b) as -> by congruence.
  exists b. split; [exact Hrun|]. rewrite Happ, Hrun. reflexivity.
Qed.

Lemma run_of_appended_sequences_witness :
  none_raises world_on (init fun_on) [invoke "fails"] /\
  run world_on (init fun_on) ([invoke "fails"] ++ [mkChain (Some "PIPE") None None None]) =
  ([Instantiate "Fails"; Execute "Fails" [] ∅;
    Log "executor" ERROR (FailedWithExitCode (Some "fails") (VInt 2));
    Print (FailedWithExitCode (Some "fails") (VInt 2));
    Print (UnsupportedChainType "PIPE")],
   Ret false).
Proof.
  assert (Hnr : none_raises world_on (init fun_on) [invoke "fails"]).
  { repeat constructor. intros _. vm_compute. eauto. }
  split; [exact Hnr|].
  destruct (run_of_appended_sequences world_on (init fun_on) [invoke "fails"]
              [mkChain (Some "PIPE") None None None] Hnr) as (b & Hb & Happ).
  rewrite Happ. vm_compute in Hb. injection Hb as <-. vm_compute. reflexivity.
Defined.

(* ===================================================================== *)
(** ** Properties of the interactive loop *)
(* ===================================================================== *)

(** On chains that are all tagged "COMMAND", the loop of the interactive
    shell prints, logs and calls what [Executor.run] does, and an error
    leaves the one exactly when it leaves the other. *)
Lemma execute_all_like_run w ex chains : forall start,
  Forall is_command_chain chains ->
  (CLI.execute_all w ex chains).1 = (run_loop w ex chains start).1 /\
  match (CLI.execute_all w ex chains).2, (run_loop w ex chains start).2 with
  | Ret _, Ret _ => True
  | Exc e, Exc e' => e = e'
  | _, _ => False
  end.
Proof.
  induction chains as [|ch chains IH]; intros start Hall; [split; reflexivity|].
  apply Forall_cons in Hall as [Hc Hall]. cbn [CLI.execute_all].
  destruct (execute_command w ex ch) as [t [b|e]] eqn:He.
  - rewrite (ExecutorFacts.run_loop_command _ _ _ _ _ _ _ Hc He).
    destruct (IH b Hall) as [Ht Hr]. unfold bind.
    destruct (CLI.execute_all w ex chains) as [t' r']. cbn [fst snd] in *.
    rewrite Ht. split; [reflexivity | exact Hr].
  - rewrite (ExecutorFacts.run_loop_raises _ _ _ _ _ _ _ Hc He). split; reflexivity.
Qed.

Lemma named_commands_are_command_chains chains :
  Forall named_command chains -> Forall is_command_chain chains.
Proof.
  intros H. eapply Forall_impl; [exact H|].
  intros ch [Hty _]. unfold is_command_chain. rewrite Hty. reflexivity.
Qed.

Lemma handle_exit self :
  CLI.handle_special_commands self "exit" =
  ([CLI.Goodbye; CLI.LogInfo CLI.Exiting], CLI.mkCLI (CLI.executor self) false, true).
Proof.
  unfold CLI.handle_special_commands.
  destruct (decide _) as [_|H]; [reflexivity|].
  exfalso. apply H. left. reflexivity.
Qed.

(** The [except] clauses, clause by clause. *)
Lemma except_clauses_cases self origin e :
  CLI.except_clauses self origin e =
  if is_exception e then ([CLI.PrintError (origin e)], self, CLI.Continues)
  else
    match exn_cls e with
    | KeyboardInterrupt =>
        ([CLI.Goodbye; CLI.LogInfo CLI.Exiting], CLI.mkCLI (CLI.executor self) false,
         CLI.Continues)
    | _ => ([], self, CLI.Leaves e)
    end.
Proof.
  unfold CLI.except_clauses. rewrite handle_exit.
  destruct (is_exception e); [reflexivity|]. destruct (exn_cls e); reflexivity.
Qed.

(** A line that is executed, in terms of [Executor.run]. *)
Lemma turn_parsed w self line chains :
  ~ CLISpec.exit_or_quit line ->
  parse_line (Lines.strip line) = Some (Parsed chains) ->
  CLI.turn w self line =
  Some match (run w (CLI.executor self) chains).2 with
       | Ret _ =>
           (CLI.LogInfo (CLI.UserInput (Lines.strip line))
              :: (CLI.Ran <$> (run w (CLI.executor self) chains).1),
            self, CLI.Continues)
       | Exc e =>
           if is_exception e then
             (CLI.LogInfo (CLI.UserInput (Lines.strip line))
                :: (CLI.Ran <$> (run w (CLI.executor self) chains).1) ++
                   [CLI.PrintError (CLI.FromExecutor e)],
              self, CLI.Continues)
           else
             match exn_cls e with
             | KeyboardInterrupt =>
                 (CLI.LogInfo (CLI.UserInput (Lines.strip line))
                    :: (CLI.Ran <$> (run w (CLI.executor self) chains).1) ++
                       [CLI.Goodbye; CLI.LogInfo CLI.Exiting],
                  CLI.mkCLI (CLI.executor self) false, CLI.Continues)
             | _ =>
                 (CLI.LogInfo (CLI.UserInput (Lines.strip line))
                    :: (CLI.Ran <$> (run w (CLI.executor self) chains).1),
                  self, CLI.Leaves e)
             end
       end.
Proof.
  intros Hstay Hparse. unfold CLI.turn, CLI.handle_special_commands.
  destruct (decide _) as [H|_]; [contradiction|].
  rewrite Hparse.
  pose proof (named_commands_are_command_chains _
                (parse_line_chains_are_named _ _ Hparse)) as Hall.
  destruct (execute_all_like_run w (CLI.executor self) chains true Hall) as [Ht Hr].
  unfold run. destruct (CLI.execute_all w (CLI.executor self) chains) as [t r].
  destruct (run_loop w (CLI.executor self) chains true) as [t' r'].
  cbn [fst snd] in *. subst t'.
  destruct r as [u|e], r' as [b|e']; try contradiction.
  - reflexivity.
  - subst e'. rewrite except_clauses_cases.
    destruct (is_exception e); [reflexivity|].
    destruct (exn_cls e); cbn [app]; rewrite ?app_nil_r; reflexivity.
Qed.

(** X24: A line that is not [exit] or [quit] and that parses is executed by the
    interactive loop as [Executor.run] executes its chains: the same
    events in the same order, with the rest of the line left out when an
    exception leaves the run. An instance of [Exception], such as the
    error of a command that is not found, is printed once after them and
    the loop goes on running; a [KeyboardInterrupt] is answered with the
    goodbye of [exit] and stops the loop; anything else leaves the
    loop. *)
Theorem turn_executes_like_run w self line chains :
  Str.lower (Lines.strip line) <> "exit" ->
  Str.lower (Lines.strip line) <> "quit" ->
  parse_line (Lines.strip line) = Some (Parsed chains) ->
  CLI.turn w self line =
  Some match (run w (CLI.executor self) chains).2 with
       | Ret _ =>
           (CLI.LogInfo (CLI.UserInput (Lines.strip line))
              :: (CLI.Ran <$> (run w (CLI.executor self) chains).1),
            self, CLI.Continues)
       | Exc e =>
           if is_exception e then
             (CLI.LogInfo (CLI.UserInput (Lines.strip line))
                :: (CLI.Ran <$> (run w (CLI.executor self) chains).1) ++
                   [CLI.PrintError (CLI.FromExecutor e)],
              self, CLI.Continues)
           else
             match exn_cls e with
             | KeyboardInterrupt =>
                 (CLI.LogInfo (CLI.UserInput (Lines.strip line))
                    :: (CLI.Ran <$> (run w (CLI.executor self) chains).1) ++
                       [CLI.Goodbye; CLI.LogInfo CLI.Exiting],
                  CLI.mkCLI (CLI.executor self) false, CLI.Continues)
             | _ =>
                 (CLI.LogInfo (CLI.UserInput (Lines.strip line))
                    :: (CLI.Ran <$> (run w (CLI.executor self) chains).1),
                  self, CLI.Leaves e)
             end
       end.
Proof.
  intros Hexit Hquit. apply turn_parsed. intros [H|H]; contradiction.
Qed.

Lemma turn_executes_like_run_witness :
  Str.lower (Lines.strip "  fails ; nosuch ; echo ") <> "exit" /\
  Str.lower (Lines.strip "  fails ; nosuch ; echo ") <> "quit" /\
  CLI.turn world_on (CLI.mkCLI (init fun_on) true) "  fails ; nosuch ; echo " =
  Some ([CLI.LogInfo (CLI.UserInput "fails ; nosuch ; echo");
         CLI.Ran (Instantiate "Fails"); CLI.Ran (Execute "Fails" [] ∅);
         CLI.Ran (Log "executor" ERROR (FailedWithExitCode (Some "fails") (VInt 2)));
         CLI.Ran (Print (FailedWithExitCode (Some "fails") (VInt 2)));
         CLI.Ran (Print (NoModuleNamed "commands.nosuch"));
         CLI.Ran (Log "executor" ERROR
                    (ErrorLoading (Some "nosuch") (NoModuleNamed "commands.nosuch")));
         CLI.PrintError (CLI.FromExecutor
                           (mkExn ModuleNotFoundError (CommandNotFound (Some "nosuch"))))],
        CLI.mkCLI (init fun_on) true, CLI.Continues).
Proof.
  assert (H1 : Str.lower (Lines.strip "  fails ; nosuch ; echo ") <> "exit")
    by (vm_compute; discriminate).
  assert (H2 : Str.lower (Lines.strip "  fails ; nosuch ; echo ") <> "quit")
    by (vm_compute; discriminate).
  split; [exact H1|]. split; [exact H2|].
  refine (eq_trans (turn_executes_like_run world_on (CLI.mkCLI (init fun_on) true)
                      "  fails ; nosuch ; echo "
                      [invoke "fails"; invoke "nosuch"; invoke "echo"] H1 H2 _) _);
    vm_compute; reflexivity.
Defined.




(* ===================================================================== *)
(** ** Properties of the [echo] command *)
(* ===================================================================== *)

(** X26: [echo] is never held back, and it fails in one case only: an
    invocation that finds the class [Echo] creates it and calls its
    [execute] once, whatever the configuration says about fun commands.
    When no named argument is called [self], nothing more is printed and
    [execute_command] returns [True]. When one is, as on the line
    [echo --self], the call raises [TypeError] before the body of
    [execute] runs; the error is logged and printed, and
    [execute_command] returns [False]. *)
Theorem echo_fails_only_on_argument_self w self cmd_dict :
  plugin_of w self cmd_dict = Some EchoCommand.Echo ->
  execute_command w self cmd_dict =
  match default ∅ (ch_kwargs cmd_dict) !! "self" with
  | None =>
      ([Instantiate "Echo";
        Execute "Echo" (default [] (ch_args cmd_dict)) (default ∅ (ch_kwargs cmd_dict))],
       Ret true)
  | Some _ =>
      ([Instantiate "Echo";
        Execute "Echo" (default [] (ch_args cmd_dict)) (default ∅ (ch_kwargs cmd_dict));
        Log "executor" ERROR
          (ErrorExecuting (resolved_name self cmd_dict) (MultipleValuesFor "self"));
        Print (ErrorRunning (resolved_name self cmd_dict) (MultipleValuesFor "self"))],
       Ret false)
  end.
Proof.
  intros Hfound.
  rewrite (ExecutorFacts.execute_command_invokes _ _ _ _ Hfound eq_refl).
  unfold invocation, invocation_events.
  cbn [cls_init cls_execute cls_name EchoCommand.Echo]. unfold star_method.
  destruct (default ∅ (ch_kwargs cmd_dict) !! "self"); reflexivity.
Qed.

Lemma echo_fails_only_on_argument_self_witness :
  plugin_of (mkWorld (<["commands.echo" := [BaseCommand; EchoCommand.Echo]]> ∅) fun_off)
    (init fun_off)
    (mkChain (Some "COMMAND") (Some "echo") (Some []) (Some (<["self" := KwTrue]> ∅))) =
    Some EchoCommand.Echo /\
  parse_line "echo --self" =
    Some (Parsed [mkChain (Some "COMMAND") (Some "echo") (Some [])
                    (Some (<["self" := KwTrue]> ∅))]) /\
  execute_command (mkWorld (<["commands.echo" := [BaseCommand; EchoCommand.Echo]]> ∅) fun_off)
    (init fun_off)
    (mkChain (Some "COMMAND") (Some "echo") (Some []) (Some (<["self" := KwTrue]> ∅))) =
  ([Instantiate "Echo"; Execute "Echo" [] (<["self" := KwTrue]> ∅);
    Log "executor" ERROR (ErrorExecuting (Some "echo") (MultipleValuesFor "self"));
    Print (ErrorRunning (Some "echo") (MultipleValuesFor "self"))],
   Ret false).
Proof.
  assert (H : plugin_of
                (mkWorld (<["commands.echo" := [BaseCommand; EchoCommand.Echo]]> ∅) fun_off)
                (init fun_off)
                (mkChain (Some "COMMAND") (Some "echo") (Some [])
                   (Some (<["self" := KwTrue]> ∅))) =
              Some EchoCommand.Echo) by (vm_compute; reflexivity).
  split; [exact H|]. split; [vm_compute; reflexivity|].
  refine (eq_trans (echo_fails_only_on_argument_self _ _ _ H) _).
  vm_compute. reflexivity.
Defined.

(** X27: [echo] followed by plain words prints the words with one blank
    between them, and the line it prints is tokenized into those words
    again. *)
Theorem echo_prints_its_words ws :
  Forall (fun w => Lines.is_plain_word w = true) ws ->
  parse_line (Lines.join " " ("echo" :: ws)) =
    Some (Parsed [mkChain (Some "COMMAND") (Some "echo") (Some ws) (Some ∅)]) /\
  EchoCommand.execute ws ∅ =
    ([EchoCommand.LogExecuting ws ∅; EchoCommand.PrintLine (Lines.join " " ws)], VInt 0) /\
  Tokenizer.tokenize (Lines.join " " ws) =
    Some ((mkToken COMMAND <$> ws) ++ [mkToken EOF EmptyString], None).
Proof.
  intros Hws. split; [|split].
  - exact (parse_line_plain_words "echo" ws eq_refl Hws).
  - reflexivity.
  - exact (tokenize_plain_words ws 0 Hws).
Qed.

Lemma echo_prints_its_words_witness :
  Forall (fun w => Lines.is_plain_word w = true) ["hello"; "big-world"] /\
  parse_line "echo hello big-world" =
    Some (Parsed [mkChain (Some "COMMAND") (Some "echo") (Some ["hello"; "big-world"])
                    (Some ∅)]) /\
  EchoCommand.execute ["hello"; "big-world"] ∅ =
    ([EchoCommand.LogExecuting ["hello"; "big-world"] ∅;
      EchoCommand.PrintLine "hello big-world"], VInt 0) /\
  Tokenizer.tokenize "hello big-world" =
    Some ([mkToken COMMAND "hello"; mkToken COMMAND "big-world"; mkToken EOF EmptyString],
          None).
Proof.
  assert (Hws : Forall (fun w => Lines.is_plain_word w = true) ["hello"; "big-world"])
    by (repeat constructor).
  split; [exact Hws|].
  exact (echo_prints_its_words ["hello"; "big-world"] Hws).
Defined.

(** X28: The word after [--verbose] is taken as the value of the flag:
    [echo --verbose w] echoes no argument at all, while [echo w --verbose]
    echoes [w]. Both print in the verbose form. *)
Theorem echo_verbose_takes_the_word v :
  Lines.is_plain_word v = true ->
  (parse_line ("echo" +:+ " " +:+ ("--" +:+ "verbose") +:+ " " +:+ v) =
     Some (Parsed [mkChain (Some "COMMAND") (Some "echo") (Some [])
                     (Some (<["verbose" := KwStr v]> ∅))]) /\
   EchoCommand.execute [] (<["verbose" := KwStr v]> ∅) =
     ([EchoCommand.LogExecuting [] (<["verbose" := KwStr v]> ∅);
       EchoCommand.PrintEchoing []], VInt 0)) /\
  (parse_line ("echo" +:+ " " +:+ v +:+ " " +:+ ("--" +:+ "verbose")) =
     Some (Parsed [mkChain (Some "COMMAND") (Some "echo") (Some [v])
                     (Some (<["verbose" := KwTrue]> ∅))]) /\
   EchoCommand.execute [v] (<["verbose" := KwTrue]> ∅) =
     ([EchoCommand.LogExecuting [v] (<["verbose" := KwTrue]> ∅);
       EchoCommand.PrintEchoing [v]], VInt 0)).
Proof.
  intros Hv.
  destruct (parse_line_flag_and_word "echo" "verbose" v eq_refl eq_refl Hv) as [H1 H2].
  split; (split; [assumption|]).
  - unfold EchoCommand.execute, EchoCommand.verbose.
    rewrite (lookup_insert_eq (M:=gmap string)).
    destruct v as [|c v']; [discriminate Hv | reflexivity].
  - unfold EchoCommand.execute, EchoCommand.verbose.
    rewrite (lookup_insert_eq (M:=gmap string)). reflexivity.
Qed.

Lemma echo_verbose_takes_the_word_witness :
  Lines.is_plain_word "hello" = true /\
  parse_line "echo --verbose hello" =
    Some (Parsed [mkChain (Some "COMMAND") (Some "echo") (Some [])
                    (Some (<["verbose" := KwStr "hello"]> ∅))]) /\
  EchoCommand.execute [] (<["verbose" := KwStr "hello"]> ∅) =
    ([EchoCommand.LogExecuting [] (<["verbose" := KwStr "hello"]> ∅);
      EchoCommand.PrintEchoing []], VInt 0).
Proof.
  split; [reflexivity|].
  exact (proj1 (echo_verbose_takes_the_word "hello" eq_refl)).
Defined.
